(** * Reeke index generation and reflection prediction (dials, spot_prediction)

    A shallow embedding of
    - [algorithms/spot_prediction/reeke_index_generator.h]
      ([reeke_detail], [ReekeModel], [ReekeIndexGenerator]) and
    - [algorithms/spot_prediction/reflection_predictor.h]
      ([ScanStaticReflectionPredictor], [ScanVaryingReflectionPredictor],
      [StillsReflectionPredictor]),
    followed by the properties of the specification that concern them and
    by further properties of the code.

    Conventions.
    - A C++ [double] is a binary64 primitive float ([float]); the operations
      [+ - * / sqrt abs] and the comparisons are the IEEE ones.
    - A C++ [int] or [std::size_t] is a [Z] (or a [nat] when it only indexes).
      Signed overflow and the conversion to [int] of a [double] that is not
      finite or is out of range are undefined in C++; the embedding gives the
      mathematical value there (0 for a NaN or an infinity), so it describes
      the program as long as none occurs.  The statements that depend on
      these values say so in a hypothesis ([fits_int], [p * p < 2 ^ 31]).
      The increments of [next_pqr] are guarded by the loop conditions
      ([x < bound]) and never overflow.
    - [std::sin], [std::asin] (libm) and [solve_quad]
      ([scan_varying_helpers.h]) are not part of the embedded files; they are
      parameters of the sections that use them. *)

From Stdlib Require Import ZArith List Lia Bool Floats.
From Stdlib Require Import Sorting.Sorted Sorting.Permutation.
From stdpp Require Import base list.
Import ListNotations.

#[local] Open Scope Z_scope.

(** ** Numbers *)

(** [(double)n] for an [int] [n]. *)
Definition int_to_double (n : Z) : float :=
  if n <? 0 then PrimFloat.opp (PrimFloat.of_uint63 (Uint63.of_Z (- n)))
  else PrimFloat.of_uint63 (Uint63.of_Z n).

(** The integer [n] and exponent [e] with [x = n * 2^e], for a finite [x]. *)
Definition double_scaled (x : float) : option (Z * Z) :=
  match Prim2SF x with
  | S754_zero _ => Some (0, 0)
  | S754_finite s m e => Some (if s then Z.neg m else Z.pos m, e)
  | _ => None
  end.

(** [(int)x]: the conversion discards the fractional part (rounds toward
    zero).  It is undefined in C++ for a NaN, an infinity and a value whose
    integral part is not a value of an [int]; here it is 0 for a NaN and an
    infinity and the mathematical value otherwise, so it is the conversion
    of the program for the finite values within the range of [int]. *)
Definition double_to_int (x : float) : Z :=
  match double_scaled x with
  | Some (n, e) => if 0 <=? e then n * 2 ^ e else Z.quot n (2 ^ (- e))
  | None => 0
  end.

(** The mathematical floor of the real number a finite [x] denotes. *)
Definition double_floor (x : float) : Z :=
  match double_scaled x with
  | Some (n, e) => if 0 <=? e then n * 2 ^ e else Z.div n (2 ^ (- e))
  | None => 0
  end.

(** [x] denotes a negative real number that is not an integer. *)
Definition negative_fraction (x : float) : bool :=
  match double_scaled x with
  | Some (n, e) => (n <? 0) && (e <? 0) && negb (Z.rem n (2 ^ (- e)) =? 0)
  | None => false
  end.

(** [std::min], [std::max] on doubles. *)
Definition std_min (a b : float) : float := if (b <? a)%float then b else a.
Definition std_max (a b : float) : float := if (a <? b)%float then b else a.

(** [af::min], [af::max], [af::max_index] of scitbx ([ref_reductions.h]) on a
    non-empty array: a left-to-right scan that keeps the first extremum. *)
Definition af_min (a : list float) : float :=
  match a with
  | [] => 0%float
  | x :: a' => fold_left (fun res y => if (y <? res)%float then y else res) a' x
  end.

Definition af_max (a : list float) : float :=
  match a with
  | [] => 0%float
  | x :: a' => fold_left (fun res y => if (res <? y)%float then y else res) a' x
  end.

Fixpoint max_index_from (best : float) (ibest i : nat) (a : list float) : nat :=
  match a with
  | [] => ibest
  | x :: a' =>
      if (best <? x)%float then max_index_from x i (S i) a'
      else max_index_from best ibest (S i) a'
  end.

Definition max_index (a : list float) : nat :=
  match a with
  | [] => 0%nat
  | x :: a' => max_index_from x 0%nat 1%nat a'
  end.

(** ** Small vectors and matrices (scitbx [vec2], [vec3], [mat3]) *)

Abbreviation vec2 A := (A * A)%type.

Record vec3 (A : Type) : Type := Vec3 { v3_0 : A; v3_1 : A; v3_2 : A }.
Arguments Vec3 {A} _ _ _.
Arguments v3_0 {A} _.
Arguments v3_1 {A} _.
Arguments v3_2 {A} _.

(** A [mat3] is its nine elements in row-major order. *)
Record mat3 (A : Type) : Type :=
  Mat3 { m_0 : A; m_1 : A; m_2 : A; m_3 : A; m_4 : A; m_5 : A;
         m_6 : A; m_7 : A; m_8 : A }.
Arguments Mat3 {A} _ _ _ _ _ _ _ _ _.
Arguments m_0 {A} _.
Arguments m_1 {A} _.
Arguments m_2 {A} _.
Arguments m_3 {A} _.
Arguments m_4 {A} _.
Arguments m_5 {A} _.
Arguments m_6 {A} _.
Arguments m_7 {A} _.
Arguments m_8 {A} _.

(** [v[i]] and [v[i] = x]; an index past the end is undefined in C++ (the
    last element is used here). *)
Definition v3_get {A} (v : vec3 A) (i : nat) : A :=
  match i with 0%nat => v3_0 v | 1%nat => v3_1 v | _ => v3_2 v end.

Definition v3_set {A} (v : vec3 A) (i : nat) (x : A) : vec3 A :=
  match i with
  | 0%nat => Vec3 x (v3_1 v) (v3_2 v)
  | 1%nat => Vec3 (v3_0 v) x (v3_2 v)
  | _ => Vec3 (v3_0 v) (v3_1 v) x
  end.

(** [std::swap(v[i], v[j])]. *)
Definition v3_swap {A} (v : vec3 A) (i j : nat) : vec3 A :=
  v3_set (v3_set v i (v3_get v j)) j (v3_get v i).

Definition m3_get {A} (m : mat3 A) (i : nat) : A :=
  match i with
  | 0%nat => m_0 m | 1%nat => m_1 m | 2%nat => m_2 m
  | 3%nat => m_3 m | 4%nat => m_4 m | 5%nat => m_5 m
  | 6%nat => m_6 m | 7%nat => m_7 m | _ => m_8 m
  end.

Definition m3_set {A} (m : mat3 A) (i : nat) (x : A) : mat3 A :=
  match m with
  | Mat3 a0 a1 a2 a3 a4 a5 a6 a7 a8 =>
      match i with
      | 0%nat => Mat3 x a1 a2 a3 a4 a5 a6 a7 a8
      | 1%nat => Mat3 a0 x a2 a3 a4 a5 a6 a7 a8
      | 2%nat => Mat3 a0 a1 x a3 a4 a5 a6 a7 a8
      | 3%nat => Mat3 a0 a1 a2 x a4 a5 a6 a7 a8
      | 4%nat => Mat3 a0 a1 a2 a3 x a5 a6 a7 a8
      | 5%nat => Mat3 a0 a1 a2 a3 a4 x a6 a7 a8
      | 6%nat => Mat3 a0 a1 a2 a3 a4 a5 x a7 a8
      | 7%nat => Mat3 a0 a1 a2 a3 a4 a5 a6 x a8
      | _ => Mat3 a0 a1 a2 a3 a4 a5 a6 a7 x
      end
  end.

Definition get_row {A} (m : mat3 A) (i : nat) : vec3 A :=
  Vec3 (m3_get m (3 * i)) (m3_get m (3 * i + 1)) (m3_get m (3 * i + 2)).

Definition transpose {A} (m : mat3 A) : mat3 A :=
  Mat3 (m_0 m) (m_3 m) (m_6 m) (m_1 m) (m_4 m) (m_7 m) (m_2 m) (m_5 m) (m_8 m).

(** Dot product ([a * b] on two [vec3]), cross product, length. *)
Definition dot (a b : vec3 float) : float :=
  (v3_0 a * v3_0 b + v3_1 a * v3_1 b + v3_2 a * v3_2 b)%float.

Definition cross (a b : vec3 float) : vec3 float :=
  Vec3 (v3_1 a * v3_2 b - v3_1 b * v3_2 a)%float
       (v3_2 a * v3_0 b - v3_2 b * v3_0 a)%float
       (v3_0 a * v3_1 b - v3_0 b * v3_1 a)%float.

Definition length3 (a : vec3 float) : float := PrimFloat.sqrt (dot a a).

Definition normalize (a : vec3 float) : vec3 float :=
  let l := length3 a in Vec3 (v3_0 a / l)%float (v3_1 a / l)%float (v3_2 a / l)%float.

Definition neg3 (a : vec3 float) : vec3 float :=
  Vec3 (- v3_0 a)%float (- v3_1 a)%float (- v3_2 a)%float.

(** [a * b] for two [mat3] of doubles. *)
Definition mat3_mul (a b : mat3 float) : mat3 float :=
  Mat3 (m_0 a * m_0 b + m_1 a * m_3 b + m_2 a * m_6 b)%float
       (m_0 a * m_1 b + m_1 a * m_4 b + m_2 a * m_7 b)%float
       (m_0 a * m_2 b + m_1 a * m_5 b + m_2 a * m_8 b)%float
       (m_3 a * m_0 b + m_4 a * m_3 b + m_5 a * m_6 b)%float
       (m_3 a * m_1 b + m_4 a * m_4 b + m_5 a * m_7 b)%float
       (m_3 a * m_2 b + m_4 a * m_5 b + m_5 a * m_8 b)%float
       (m_6 a * m_0 b + m_7 a * m_3 b + m_8 a * m_6 b)%float
       (m_6 a * m_1 b + m_7 a * m_4 b + m_8 a * m_7 b)%float
       (m_6 a * m_2 b + m_7 a * m_5 b + m_8 a * m_8 b)%float.

(** A Miller index, and [permutation * index] for the integer permutation
    matrix (its elements are 0 and 1, so the unsigned arithmetic of a
    [mat3<std::size_t>] gives the same components). *)
Definition miller_index : Type := vec3 Z.

Definition is_zero (h : miller_index) : bool :=
  (v3_0 h =? 0) && (v3_1 h =? 0) && (v3_2 h =? 0).

Definition zero_index : miller_index := Vec3 0 0 0.

Definition mat3_mul_index (m : mat3 Z) (v : miller_index) : miller_index :=
  Vec3 (m_0 m * v3_0 v + m_1 m * v3_1 v + m_2 m * v3_2 v)
       (m_3 m * v3_0 v + m_4 m * v3_1 v + m_5 m * v3_2 v)
       (m_6 m * v3_0 v + m_7 m * v3_1 v + m_8 m * v3_2 v).

(** ** [reeke_detail] *)

Module reeke_detail.

(** [sort2]: sort a two-element vector. *)
Definition sort2 (a : vec2 float) : vec2 float :=
  if (a.2 <? a.1)%float then (a.2, a.1) else a.

(** [struct permute_axes]: its two members. *)
Record permute_axes_s : Type :=
  { index : vec3 nat; permutation : mat3 Z }.

(** The constructor of [permute_axes]: the permutation of the columns of
    [ub] that puts first the column closest to the source direction and
    last the one, of the other two, closest to the spindle axis. *)
Definition permute_axes (ub : mat3 float) (axis source : vec3 float)
  : permute_axes_s :=
  let index := Vec3 0%nat 1%nat 2%nat in
  let permutation := Mat3 0 0 0 0 0 0 0 0 0 in
  let rl_dirs (i : nat) :=
    normalize (Vec3 (m3_get ub i) (m3_get ub (i + 3)) (m3_get ub (i + 6))) in
  let p_index :=
    max_index [PrimFloat.abs (dot (rl_dirs 0%nat) source);
               PrimFloat.abs (dot (rl_dirs 1%nat) source);
               PrimFloat.abs (dot (rl_dirs 2%nat) source)] in
  let index := v3_swap index 0 p_index in
  let r_index :=
    max_index [PrimFloat.abs (dot (rl_dirs (v3_get index 1)) axis);
               PrimFloat.abs (dot (rl_dirs (v3_get index 2)) axis)] in
  let index := v3_swap index 2 (r_index + 1) in
  let permutation := m3_set permutation (3 * v3_get index 0 + 0) 1 in
  let permutation := m3_set permutation (3 * v3_get index 1 + 1) 1 in
  let permutation := m3_set permutation (3 * v3_get index 2 + 2) 1 in
  {| index := index; permutation := permutation |}.

(** [struct permute_matrix : permute_axes]. *)
Record permute_matrix_s : Type :=
  { base : permute_axes_s; rlv_beg : mat3 float; rlv_end : mat3 float }.

Definition permute_matrix (ub_beg ub_end : mat3 float)
    (axis source : vec3 float) : permute_matrix_s :=
  let base := permute_axes ub_beg axis source in
  let i0 := v3_get (index base) 0 in
  let i1 := v3_get (index base) 1 in
  let i2 := v3_get (index base) 2 in
  let rlv (ub : mat3 float) :=
    Mat3 (m3_get ub i0) (m3_get ub (i0 + 3)) (m3_get ub (i0 + 6))
         (m3_get ub i1) (m3_get ub (i1 + 3)) (m3_get ub (i1 + 6))
         (m3_get ub i2) (m3_get ub (i2 + 3)) (m3_get ub (i2 + 6)) in
  {| base := base; rlv_beg := rlv ub_beg; rlv_end := rlv ub_end |}.

(** [a[i]] for an array of doubles. *)
Definition elt (a : list float) (i : nat) : float := nth i a 0%float.

(** [scitbx::matrix::transpose_multiply(a, a, 3, 4, 4, t)]: the 4x4 matrix
    [t = a^T a] of a 3x4 matrix [a], both row-major; each element is
    accumulated from 0 over the three rows. *)
Definition transpose_multiply_3_4_4 (a : list float) : list float :=
  flat_map (fun i : nat =>
    map (fun k : nat =>
           (0 + elt a i * elt a k + elt a (4 + i) * elt a (4 + k)
            + elt a (8 + i) * elt a (8 + k))%float)
        [0; 1; 2; 3]%nat)
    [0; 1; 2; 3]%nat.

(** [struct compute_constant_with_p]: the 21 quantities [cp]. *)
Definition compute_constant_with_p (rlv_beg rlv_end : mat3 float)
    (axis source : vec3 float) : list float :=
  let p_beg := transpose rlv_beg in
  let p_end := transpose rlv_end in
  let pp (p : mat3 float) :=
    [m_0 p; m_1 p; m_2 p; (- v3_0 source)%float;
     m_3 p; m_4 p; m_5 p; (- v3_1 source)%float;
     m_6 p; m_7 p; m_8 p; (- v3_2 source)%float] in
  let t_beg := transpose_multiply_3_4_4 (pp p_beg) in
  let t_end := transpose_multiply_3_4_4 (pp p_end) in
  [ elt t_beg 10;
    elt t_beg 11 * elt t_beg 11;
    elt t_end 11 * elt t_end 11;
    elt t_beg 2 * elt t_beg 11 - elt t_beg 3 * elt t_beg 10;
    elt t_end 2 * elt t_end 11 - elt t_end 3 * elt t_end 10;
    elt t_beg 2 * elt t_beg 2 - elt t_beg 0 * elt t_beg 10;
    elt t_beg 6 * elt t_beg 11 - elt t_beg 7 * elt t_beg 10;
    elt t_end 6 * elt t_end 11 - elt t_end 7 * elt t_end 10;
    elt t_beg 2 * elt t_beg 6 - elt t_beg 1 * elt t_beg 10;
    elt t_beg 6 * elt t_beg 6 - elt t_beg 5 * elt t_beg 10;
    2 * elt t_beg 2;
    2 * elt t_beg 6;
    elt t_beg 0;
    elt t_beg 5;
    2 * elt t_beg 1;
    2 * elt t_beg 11;
    2 * elt t_end 11;
    2 * elt t_beg 7;
    2 * elt t_end 7;
    2 * elt t_beg 3;
    2 * elt t_end 3 ]%float.

End reeke_detail.

(** ** [class ReekeModel] *)

(** The data members of a [ReekeModel]. *)
Record ReekeModel : Type :=
  { permutation_ : mat3 Z;
    source_ : vec3 float;
    axis_ : vec3 float;
    cp_ : list float;
    p_lim_ : vec2 Z;
    dstarmax_ : float;
    dstarmax2_ : float;
    wavelength_ : float;
    wavelength_sq_ : float;
    margin_ : Z;
    ewald_p_lim_beg_ : vec2 float;
    ewald_p_lim_end_ : vec2 float;
    res_p_lim_beg_ : vec2 float;
    res_p_lim_end_ : vec2 float }.

(** [cp_[i]]. *)
Definition cp (m : ReekeModel) (i : nat) : float := reeke_detail.elt (cp_ m) i.

(** [x >= 0 ? 1 : -1]. *)
Definition sign_of (x : float) : Z := if (0 <=? x)%float then 1 else -1.

(** The assignments of [compute_p_limits] and of the two functions it calls
    to the members of [*this]. *)
Definition set_p_limits (m : ReekeModel)
    (ewald_beg ewald_end res_beg res_end : vec2 float) (p_lim : vec2 Z)
  : ReekeModel :=
  {| permutation_ := permutation_ m; source_ := source_ m; axis_ := axis_ m;
     cp_ := cp_ m; p_lim_ := p_lim;
     dstarmax_ := dstarmax_ m; dstarmax2_ := dstarmax2_ m;
     wavelength_ := wavelength_ m; wavelength_sq_ := wavelength_sq_ m;
     margin_ := margin_ m;
     ewald_p_lim_beg_ := ewald_beg; ewald_p_lim_end_ := ewald_end;
     res_p_lim_beg_ := res_beg; res_p_lim_end_ := res_end |}.

(** [compute_ewald_sphere_p_limits]: the values of [ewald_p_lim_beg_] and
    [ewald_p_lim_end_]. *)
Definition compute_ewald_sphere_p_limits (m : ReekeModel)
    (v_beg v_end : vec3 float) (dp_beg dp_end p_dist : float)
  : vec2 float * vec2 float :=
  let sign := sign_of (dot v_beg (source_ m)) in
  let ewald_p_lim_beg :=
    reeke_detail.sort2
      ((int_to_double (- sign) * (length3 (source_ m) - dp_beg) / p_dist)%float,
       (int_to_double sign * (length3 (source_ m) + dp_beg) / p_dist)%float) in
  let sign := sign_of (dot v_end (source_ m)) in
  let ewald_p_lim_end :=
    reeke_detail.sort2
      ((int_to_double (- sign) * (length3 (source_ m) - dp_end) / p_dist)%float,
       (int_to_double sign * (length3 (source_ m) + dp_end) / p_dist)%float) in
  (ewald_p_lim_beg, ewald_p_lim_end).

(** The four limits [compute_p_limits] selects, on the basis of [sign],
    between the Ewald and the resolution limits. *)
Definition select_p_limits (sign : Z)
    (ewald_beg ewald_end res_beg res_end : vec2 float) : list float :=
  if sign <? 0 then
    [std_max res_beg.1 ewald_beg.1; std_max res_end.1 ewald_end.1;
     std_max res_beg.2 ewald_beg.2; std_max res_end.2 ewald_end.2]
  else
    [std_min res_beg.1 ewald_beg.1; std_min res_end.1 ewald_end.1;
     std_min res_beg.2 ewald_beg.2; std_min res_end.2 ewald_end.2].

(** [std::sort] on an array of [int]: the ascending arrangement (insertion
    sort; the result of sorting integers does not depend on the algorithm). *)
Fixpoint sort_insert (x : Z) (l : list Z) : list Z :=
  match l with
  | [] => [x]
  | y :: l' => if x <=? y then x :: l else y :: sort_insert x l'
  end.

Definition std_sort (l : list Z) : list Z := fold_right sort_insert [] l.

Section ReekeModel.

(** [std::sin] and [std::asin]. *)
Variables c_sin c_asin : float -> float.

(** [reeke_detail::solve_quad(a, b, c)], of [scan_varying_helpers.h]: the
    real roots of [a x^2 + b x + c]. *)
Variable solve_quad : float -> float -> float -> list float.

(** [compute_resolution_p_limits]: the values of [res_p_lim_beg_] and
    [res_p_lim_end_], or [None] when the sanity check [DIALS_ASSERT] on
    [sin_theta] fails. *)
Definition compute_resolution_p_limits (m : ReekeModel)
    (v_beg v_end : vec3 float) (dp_beg dp_end p_dist : float)
  : option (vec2 float * vec2 float) :=
  let sin_theta := (0.5 * wavelength_ m * dstarmax_ m)%float in
  if (sin_theta <=? 1)%float && (-1 <=? sin_theta)%float then
    let sin_2theta := c_sin (2 * c_asin sin_theta)%float in
    let sign := sign_of (dot v_end (source_ m)) in
    let e := (2 * sin_theta * sin_theta * dp_beg)%float in
    let f :=
      (sin_2theta
       * PrimFloat.sqrt (std_max (1 / wavelength_sq_ m - dp_beg * dp_beg) 0))%float in
    let res_p_lim_beg :=
      reeke_detail.sort2 (((int_to_double sign * e - f) / p_dist)%float,
                          ((int_to_double sign * e + f) / p_dist)%float) in
    let e := (2 * sin_theta * sin_theta * dp_end)%float in
    let f :=
      (sin_2theta
       * PrimFloat.sqrt (std_max (1 / wavelength_sq_ m - dp_end * dp_end) 0))%float in
    let res_p_lim_end :=
      reeke_detail.sort2 (((int_to_double sign * e - f) / p_dist)%float,
                          ((int_to_double sign * e + f) / p_dist)%float) in
    Some (res_p_lim_beg, res_p_lim_end)
  else None.

(** The unit normals [v_beg], [v_end] to the planes of constant p, pointing
    toward increasing p, as [compute_p_limits] computes them. *)
Definition plane_normal (rlv : mat3 float) : vec3 float :=
  let v := normalize (cross (get_row rlv 1) (get_row rlv 2)) in
  if (dot (get_row rlv 0) v <? 0)%float then neg3 v else v.

(** [compute_p_limits]: sets the four real limits and [p_lim_]. *)
Definition compute_p_limits (m : ReekeModel) (rlv_beg rlv_end : mat3 float)
  : option ReekeModel :=
  let rlv_beg0 := get_row rlv_beg 0 in
  let v_beg := plane_normal rlv_beg in
  let v_end := plane_normal rlv_end in
  let p_dist := PrimFloat.abs (dot rlv_beg0 v_beg) in
  let dp_beg := PrimFloat.abs (dot v_beg (source_ m)) in
  let dp_end := PrimFloat.abs (dot v_end (source_ m)) in
  let '(ewald_beg, ewald_end) :=
    compute_ewald_sphere_p_limits m v_beg v_end dp_beg dp_end p_dist in
  match compute_resolution_p_limits m v_beg v_end dp_beg dp_end p_dist with
  | None => None
  | Some (res_beg, res_end) =>
      let sign := sign_of (dot v_end (source_ m)) in
      let limits := select_p_limits sign ewald_beg ewald_end res_beg res_end in
      Some (set_p_limits m ewald_beg ewald_end res_beg res_end
              (double_to_int (af_min limits) - margin_ m,
               double_to_int (af_max limits) + margin_ m + 1))
  end.

(** The constructor [ReekeModel(ub_beg, ub_end, axis, source, dmin, margin)];
    [None] when an assertion fails. *)
Definition ReekeModel_ctor (ub_beg ub_end : mat3 float)
    (axis source : vec3 float) (dmin : float) (margin : Z)
  : option ReekeModel :=
  let wavelength := (1 / length3 source)%float in
  let dstarmax := (1 / dmin)%float in
  let perm := reeke_detail.permute_matrix ub_beg ub_end axis source in
  let compute_cp :=
    reeke_detail.compute_constant_with_p
      (reeke_detail.rlv_beg perm) (reeke_detail.rlv_end perm) axis source in
  compute_p_limits
    {| permutation_ := reeke_detail.permutation (reeke_detail.base perm);
       source_ := source; axis_ := axis; cp_ := compute_cp;
       p_lim_ := (0, 0);
       dstarmax_ := dstarmax; dstarmax2_ := (dstarmax * dstarmax)%float;
       wavelength_ := wavelength;
       wavelength_sq_ := (wavelength * wavelength)%float;
       margin_ := margin;
       ewald_p_lim_beg_ := (0, 0)%float; ewald_p_lim_end_ := (0, 0)%float;
       res_p_lim_beg_ := (0, 0)%float; res_p_lim_end_ := (0, 0)%float |}
    (reeke_detail.rlv_beg perm) (reeke_detail.rlv_end perm).

(** [permutation()] and [p_limits()]. *)
Definition permutation (m : ReekeModel) : mat3 Z := permutation_ m.
Definition p_limits (m : ReekeModel) : vec2 Z := p_lim_ m.

(** [ewald_sphere_p_limits()] and [resolution_p_limits()]: the pairs for
    the begin and for the end orientation. *)
Definition ewald_sphere_p_limits (m : ReekeModel) : vec2 float * vec2 float :=
  (ewald_p_lim_beg_ m, ewald_p_lim_end_ m).
Definition resolution_p_limits (m : ReekeModel) : vec2 float * vec2 float :=
  (res_p_lim_beg_ m, res_p_lim_end_ m).

(** The margin-widened integer extent of a non-empty array of roots:
    [vec2<int>((int)af::min(limits) - margin_, (int)af::max(limits) + margin_)]. *)
Definition widened_extent (m : ReekeModel) (limits : list float) : vec2 Z :=
  (double_to_int (af_min limits) - margin_ m,
   double_to_int (af_max limits) + margin_ m).

(** [resolution_q_limits(p)].  The product [p*p] is one of [int]s in the
    source; it is the mathematical square here, which it is in the program
    as long as [p * p < 2 ^ 31]. *)
Definition resolution_q_limits (m : ReekeModel) (p : Z) : option (vec2 Z) :=
  let a := cp m 9 in
  let b := (2 * int_to_double p * cp m 8)%float in
  let c := (int_to_double (p * p) * cp m 5 + cp m 0 * dstarmax2_ m)%float in
  let limits := solve_quad a b c in
  if (length limits =? 0)%nat then None
  else Some (widened_extent m limits).

(** [ewald_sphere_q_limits(p)]. *)
Definition ewald_sphere_q_limits (m : ReekeModel) (p : Z) : option (vec2 Z) :=
  let a := cp m 9 in
  let b := (2 * (cp m 6 + int_to_double p * cp m 8))%float in
  let c := (cp m 1 + int_to_double p * (2 * cp m 3 + int_to_double p * cp m 5))%float in
  let limits_beg := solve_quad a b c in
  let b := (2 * (cp m 7 + int_to_double p * cp m 8))%float in
  let c := (cp m 2 + int_to_double p * (2 * cp m 4 + int_to_double p * cp m 5))%float in
  let limits_end := solve_quad a b c in
  let limits := limits_beg ++ limits_end in
  if (length limits =? 0)%nat then None
  else Some (widened_extent m limits).

(** [q_limits(p)]. *)
Definition q_limits (m : ReekeModel) (p : Z) : vec2 Z :=
  let res_q_lim := resolution_q_limits m p in
  let ewald_q_lim := ewald_sphere_q_limits m p in
  match res_q_lim, ewald_q_lim with
  | Some res_q_lim, Some ewald_q_lim =>
      let limits :=
        std_sort [ewald_q_lim.1; ewald_q_lim.2; res_q_lim.1; res_q_lim.2] in
      (nth 1 limits 0, nth 2 limits 0 + 1)
  | _, _ => (0, 0)
  end.

(** [resolution_r_limits(p, q, cq)]. *)
Definition resolution_r_limits (m : ReekeModel) (p q : float)
    (cq : list float) : option (vec2 Z) :=
  let cq := reeke_detail.elt cq in
  let a := cp m 0 in
  let b := (cq 0%nat + q * cp m 11)%float in
  let c := (cq 1%nat + q * q * cp m 13 + q * cq 2%nat - dstarmax2_ m)%float in
  let limits := solve_quad a b c in
  if (length limits =? 0)%nat then None
  else Some (widened_extent m limits).

(** [ewald_sphere_r_limits(p, q, cq)]. *)
Definition ewald_sphere_r_limits (m : ReekeModel) (p q : float)
    (cq : list float) : list (vec2 Z) :=
  let cq := reeke_detail.elt cq in
  let a := cp m 0 in
  let b := (cq 0%nat + q * cp m 11 + cp m 15)%float in
  let c :=
    (cq 1%nat + q * (cq 2%nat + cp m 17) + q * q * cp m 13 + cq 3%nat)%float in
  let limits_beg := solve_quad a b c in
  let b := (cq 0%nat + q * cp m 11 + cp m 15)%float in
  let c :=
    (cq 1%nat + q * (cq 2%nat + cp m 18) + q * q * cp m 13 + cq 4%nat)%float in
  let limits_end := solve_quad a b c in
  if (0 <? length limits_beg)%nat && (0 <? length limits_end)%nat then
    let min_beg := af_min limits_beg in
    let max_beg := af_max limits_beg in
    let min_end := af_min limits_end in
    let max_end := af_max limits_end in
    [ (double_to_int (std_min min_beg min_end) - margin_ m,
       double_to_int (std_max min_beg min_end) + margin_ m);
      (double_to_int (std_min max_beg max_end) - margin_ m,
       double_to_int (std_max max_beg max_end) + margin_ m) ]
  else
    (if (0 <? length limits_beg)%nat then [widened_extent m limits_beg] else [])
    ++ (if (0 <? length limits_end)%nat then [widened_extent m limits_end] else []).

(** One turn of the loop of [r_limits] over [ewald_r_lim]: restrict the
    range to the resolution range and keep it when it is not empty. *)
Definition restrict_r_lim (res_r_lim ewald_r_lim : vec2 Z) : list (vec2 Z) :=
  let lo := if ewald_r_lim.1 <? res_r_lim.1 then res_r_lim.1 else ewald_r_lim.1 in
  let hi := if res_r_lim.2 <? ewald_r_lim.2 then res_r_lim.2 else ewald_r_lim.2 in
  if lo <? hi then [(lo, hi + 1)] else [].

(** The end of [r_limits]: two ranges are put in order and the second is
    made to start no earlier than the first ends. *)
Definition order_ranges (result : list (vec2 Z)) : list (vec2 Z) :=
  match result with
  | [r0; r1] =>
      let '(r0, r1) := if r1.1 <? r0.1 then (r1, r0) else (r0, r1) in
      let r1 := if r1.1 <? r0.2 then (r0.2, r1.2) else r1 in
      [r0; r1]
  | _ => result
  end.

(** [r_limits(p, q)]. *)
Definition r_limits (m : ReekeModel) (p q : float) : list (vec2 Z) :=
  let cq :=
    [p * cp m 10; p * p * cp m 12; p * cp m 14; p * cp m 19; p * cp m 20]%float in
  match resolution_r_limits m p q cq with
  | None => []
  | Some res_r_lim =>
      let ewald_r_lim := ewald_sphere_r_limits m p q cq in
      order_ranges (flat_map (restrict_r_lim res_r_lim) ewald_r_lim)
  end.

End ReekeModel.

(** ** [class ReekeIndexGenerator] *)

(** The function-static variables of [next_pqr]; they belong to the function,
    not to an instance, so every [ReekeIndexGenerator] reads and writes the
    same ones. *)
Module statics.
Inductive coroutine_state : Type := enter | yield.

Record t : Type :=
  { p : vec2 Z; q : vec2 Z; r : list (vec2 Z); ridx : nat;
    state : coroutine_state }.

(** Their values at program start (zero initialisation, [state = enter]). *)
Definition initial : t :=
  {| p := (0, 0); q := (0, 0); r := []; ridx := 0%nat; state := enter |}.

Definition set_p (s : t) (v : vec2 Z) : t :=
  {| p := v; q := q s; r := r s; ridx := ridx s; state := state s |}.
Definition set_q (s : t) (v : vec2 Z) : t :=
  {| p := p s; q := v; r := r s; ridx := ridx s; state := state s |}.
Definition set_r (s : t) (v : list (vec2 Z)) : t :=
  {| p := p s; q := q s; r := v; ridx := ridx s; state := state s |}.
Definition set_ridx (s : t) (v : nat) : t :=
  {| p := p s; q := q s; r := r s; ridx := v; state := state s |}.
Definition set_state (s : t) (v : coroutine_state) : t :=
  {| p := p s; q := q s; r := r s; ridx := ridx s; state := v |}.
End statics.

Record ReekeIndexGenerator : Type := { model_ : ReekeModel }.

Section ReekeIndexGenerator.

Variables c_sin c_asin : float -> float.
Variable solve_quad : float -> float -> float -> list float.

(** The constructor: the model is built with the source vector [-s0]. *)
Definition ReekeIndexGenerator_ctor (ub_beg ub_end : mat3 float)
    (axis s0 : vec3 float) (dmin : float) (margin : Z)
  : option ReekeIndexGenerator :=
  match ReekeModel_ctor c_sin c_asin ub_beg ub_end axis (neg3 s0) dmin margin with
  | Some m => Some {| model_ := m |}
  | None => None
  end.

Import statics.

(** The increments [++r[ridx][0]], [++ridx], [++q[0]], [++p[0]]. *)
Definition incr_r (s : statics.t) : statics.t :=
  match r s !! ridx s with
  | Some (lo, hi) => set_r s (<[ridx s := (lo + 1, hi)]> (r s))
  | None => s
  end.
Definition incr_ridx (s : statics.t) : statics.t := set_ridx s (S (ridx s)).
Definition incr_q (s : statics.t) : statics.t := set_q s ((q s).1 + 1, (q s).2).
Definition incr_p (s : statics.t) : statics.t := set_p s ((p s).1 + 1, (p s).2).

(** The number of turns a loop [for (; x[0] < x[1]; ++x[0])] has left. *)
Definition turns (x : vec2 Z) : nat := Z.to_nat (x.2 - x.1).

Definition r_turns (s : statics.t) : nat :=
  match r s !! ridx s with Some x => turns x | None => 0%nat end.

Section loops.

Variable g : ReekeIndexGenerator.

(** Each loop is entered at its condition and runs until it returns an
    index ([Some]) or its condition fails ([None]); [n] bounds the number
    of turns.

    The innermost loop, [for (; r[ridx][0] < r[ridx][1]; ++r[ridx][0])]. *)
Fixpoint r_loop (n : nat) (s : statics.t) : option miller_index * statics.t :=
  match n with
  | O => (None, s)
  | S n' =>
      match r s !! ridx s with
      | Some (lo, hi) =>
          if lo <? hi then
            let result := Vec3 (p s).1 (q s).1 lo in
            if negb (is_zero result) then (Some result, s)
            else r_loop n' (incr_r s)
          else (None, s)
      | None => (None, s) (* [ridx] past the end: excluded by [ridx_loop] *)
      end
  end.

(** [for (; ridx < r.size(); ++ridx)]. *)
Fixpoint ridx_loop (n : nat) (s : statics.t) : option miller_index * statics.t :=
  match n with
  | O => (None, s)
  | S n' =>
      if (ridx s <? length (r s))%nat then
        match r_loop (r_turns s) s with
        | (Some h, s') => (Some h, s')
        | (None, s') => ridx_loop n' (incr_ridx s')
        end
      else (None, s)
  end.

Definition ridx_turns (s : statics.t) : nat := (length (r s) - ridx s)%nat.

(** [for (; q[0] < q[1]; ++q[0])]. *)
Fixpoint q_loop (n : nat) (s : statics.t) : option miller_index * statics.t :=
  match n with
  | O => (None, s)
  | S n' =>
      if (q s).1 <? (q s).2 then
        let s :=
          set_r s (r_limits solve_quad (model_ g)
                     (int_to_double (p s).1) (int_to_double (q s).1)) in
        let s := set_ridx s 0 in
        match ridx_loop (ridx_turns s) s with
        | (Some h, s') => (Some h, s')
        | (None, s') => q_loop n' (incr_q s')
        end
      else (None, s)
  end.

(** [for (; p[0] < p[1]; ++p[0])]. *)
Fixpoint p_loop (n : nat) (s : statics.t) : option miller_index * statics.t :=
  match n with
  | O => (None, s)
  | S n' =>
      if (p s).1 <? (p s).2 then
        let s := set_q s (q_limits solve_quad (model_ g) (p s).1) in
        match q_loop (turns (q s)) s with
        | (Some h, s') => (Some h, s')
        | (None, s') => p_loop n' (incr_p s')
        end
      else (None, s)
  end.

(** Control after [case yield:]: the pending increment of the innermost
    loop, then the rest of each enclosing loop in turn. *)
Definition resume (s : statics.t) : option miller_index * statics.t :=
  let s := incr_r s in
  match r_loop (r_turns s) s with
  | (Some h, s') => (Some h, s')
  | (None, s) =>
      let s := incr_ridx s in
      match ridx_loop (ridx_turns s) s with
      | (Some h, s') => (Some h, s')
      | (None, s) =>
          let s := incr_q s in
          match q_loop (turns (q s)) s with
          | (Some h, s') => (Some h, s')
          | (None, s) =>
              let s := incr_p s in
              p_loop (turns (p s)) s
          end
      end
  end.

(** The [switch (state)] statement of [next_pqr()]: [case enter] sets
    [state = yield] and starts the loops, [case yield] resumes them.  [Some]
    is the [return result] inside the loops, [None] is control leaving the
    switch. *)
Definition switch_state (s : statics.t) : option miller_index * statics.t :=
  match state s with
  | enter =>
      let s := set_state s yield in
      let s := set_p s (p_limits (model_ g)) in
      p_loop (turns (p s)) s
  | yield => resume s
  end.

(** [next_pqr()]: after the switch, [state = enter; return (0, 0, 0)]. *)
Definition next_pqr (s : statics.t) : miller_index * statics.t :=
  match switch_state s with
  | (Some result, s') => (result, s')
  | (None, s') => (Vec3 0 0 0, set_state s' enter)
  end.

(** [next()]. *)
Definition next (s : statics.t) : miller_index * statics.t :=
  let '(pqr, s') := next_pqr s in
  (mat3_mul_index (permutation (model_ g)) pqr, s').

(** The results of [n] successive calls of [next()] on [g], and the
    statics they leave. *)
Fixpoint calls (n : nat) (s : statics.t) : list miller_index * statics.t :=
  match n with
  | O => ([], s)
  | S n' =>
      let '(h, s') := next s in
      let '(hs, s'') := calls n' s' in
      (h :: hs, s'')
  end.

(** [to_array()]: the indices [next()] returns before the first (0,0,0); the
    loop [for (;;)] is bounded here by [n] calls. *)
Fixpoint to_array (n : nat) (s : statics.t) : list miller_index * statics.t :=
  match n with
  | O => ([], s)
  | S n' =>
      let '(h, s') := next s in
      if is_zero h then ([], s')
      else
        let '(result, s'') := to_array n' s' in
        (h :: result, s'')
  end.

End loops.

(** The results of one call of [next()] on each generator of a list, in
    that order, on the shared statics. *)
Fixpoint interleaved (gs : list ReekeIndexGenerator) (s : statics.t)
  : list miller_index * statics.t :=
  match gs with
  | [] => ([], s)
  | g :: gs' =>
      let '(h, s') := next g s in
      let '(hs, s'') := interleaved gs' s' in
      (h :: hs, s'')
  end.

End ReekeIndexGenerator.

(** ** Reflection prediction ([reflection_predictor.h])

    The models of dxtbx ([Beam], [Detector], [Goniometer], [Scan]) are
    external; each is the record of the member functions the predictors
    call.  A member that throws [dxtbx::error] returns [None]. *)

Record Ray : Type := { s1 : vec3 float; angle : float; entering : bool }.

Record Beam : Type := { get_s0 : vec3 float }.

Record Goniometer : Type := { get_rotation_axis : vec3 float }.

Record Scan : Type :=
  { get_oscillation : vec2 float;
    get_num_images : Z;
    get_array_range : vec2 Z;
    get_angle_from_array_index : float -> float;
    get_array_index_from_angle : float -> float }.

Record Panel : Type :=
  { get_ray_intersection : vec3 float -> option (vec2 float);
    millimeter_to_pixel : vec2 float -> vec2 float }.

(** A [Detector]: its panels ([detector_[panel]] throws on an index past the
    end) and the intersection of a ray with whichever panel it hits. *)
Record Detector : Type :=
  { panels : list Panel;
    detector_get_ray_intersection : vec3 float -> option (nat * vec2 float) }.

(** [struct prediction_data]: the columns of the reflection table. *)
Record prediction_data : Type :=
  { hkl : list miller_index;
    panel : list nat;
    enter : list bool;
    pd_s1 : list (vec3 float);
    xyz_px : list (vec3 float);
    xyz_mm : list (vec3 float);
    flags : list Z }.

(** The columns of a new, empty table. *)
Definition empty_table : prediction_data :=
  {| hkl := []; panel := []; enter := []; pd_s1 := []; xyz_px := [];
     xyz_mm := []; flags := [] |}.

(** [table.nrows()]. *)
Definition nrows (p : prediction_data) : nat := length (hkl p).

(** [push_back] on each column. *)
Definition push_hkl (p : prediction_data) (x : miller_index) : prediction_data :=
  {| hkl := hkl p ++ [x]; panel := panel p; enter := enter p; pd_s1 := pd_s1 p;
     xyz_px := xyz_px p; xyz_mm := xyz_mm p; flags := flags p |}.
Definition push_panel (p : prediction_data) (x : nat) : prediction_data :=
  {| hkl := hkl p; panel := panel p ++ [x]; enter := enter p; pd_s1 := pd_s1 p;
     xyz_px := xyz_px p; xyz_mm := xyz_mm p; flags := flags p |}.
Definition push_enter (p : prediction_data) (x : bool) : prediction_data :=
  {| hkl := hkl p; panel := panel p; enter := enter p ++ [x]; pd_s1 := pd_s1 p;
     xyz_px := xyz_px p; xyz_mm := xyz_mm p; flags := flags p |}.
Definition push_s1 (p : prediction_data) (x : vec3 float) : prediction_data :=
  {| hkl := hkl p; panel := panel p; enter := enter p; pd_s1 := pd_s1 p ++ [x];
     xyz_px := xyz_px p; xyz_mm := xyz_mm p; flags := flags p |}.
Definition push_xyz_px (p : prediction_data) (x : vec3 float) : prediction_data :=
  {| hkl := hkl p; panel := panel p; enter := enter p; pd_s1 := pd_s1 p;
     xyz_px := xyz_px p ++ [x]; xyz_mm := xyz_mm p; flags := flags p |}.
Definition push_xyz_mm (p : prediction_data) (x : vec3 float) : prediction_data :=
  {| hkl := hkl p; panel := panel p; enter := enter p; pd_s1 := pd_s1 p;
     xyz_px := xyz_px p; xyz_mm := xyz_mm p ++ [x]; flags := flags p |}.
Definition push_flags (p : prediction_data) (x : Z) : prediction_data :=
  {| hkl := hkl p; panel := panel p; enter := enter p; pd_s1 := pd_s1 p;
     xyz_px := xyz_px p; xyz_mm := xyz_mm p; flags := flags p ++ [x] |}.

(** Row [i] of the table: the [i]-th element of each column. *)
Record row : Type :=
  { row_hkl : miller_index; row_panel : nat; row_enter : bool;
    row_s1 : vec3 float; row_xyz_px : vec3 float; row_xyz_mm : vec3 float;
    row_flags : Z }.

Definition row_at (p : prediction_data) (i : nat) : option row :=
  match hkl p !! i, panel p !! i, enter p !! i, pd_s1 p !! i,
        xyz_px p !! i, xyz_mm p !! i, flags p !! i with
  | Some h, Some pn, Some e, Some s, Some px, Some mm, Some f =>
      Some {| row_hkl := h; row_panel := pn; row_enter := e; row_s1 := s;
              row_xyz_px := px; row_xyz_mm := mm; row_flags := f |}
  | _, _, _, _, _, _, _ => None
  end.

(** The body of a [try] block that intersects a ray with a given panel. *)
Definition panel_impact (d : Detector) (pnl : nat) (s : vec3 float)
  : option (vec2 float * vec2 float) :=
  match panels d !! pnl with
  | Some pn =>
      match get_ray_intersection pn s with
      | Some mm => Some (mm, millimeter_to_pixel pn mm)
      | None => None
      end
  | None => None
  end.

(** [table.is_consistent()] of [reflection_table.h]: every column has
    [nrows()] elements. *)
Definition is_consistent (p : prediction_data) : bool :=
  (length (panel p) =? nrows p)%nat && (length (enter p) =? nrows p)%nat
  && (length (pd_s1 p) =? nrows p)%nat && (length (xyz_px p) =? nrows p)%nat
  && (length (xyz_mm p) =? nrows p)%nat && (length (flags p) =? nrows p)%nat.

(** [struct stills_prediction_data : prediction_data]: the columns of the
    table of a stills prediction, with the column [delpsical.rad]. *)
Record stills_prediction_data : Type :=
  { columns : prediction_data; delpsi : list float }.

Definition empty_stills_table : stills_prediction_data :=
  {| columns := empty_table; delpsi := [] |}.

(** The value of a [std::size_t] converted to [int] (32 bits, two's
    complement). *)
Definition size_t_to_int (n : nat) : Z :=
  let r := Z.of_nat n mod 2 ^ 32 in
  if r <? 2 ^ 31 then r else r - 2 ^ 32.

Module ScanStatic.
Section ScanStatic.

(** [af::Predicted], a flag bit of [reflection_table.h]. *)
Variable Predicted : Z.

(** The members of a [ScanStaticReflectionPredictor] that [for_hkl] uses;
    [predict_rays_] is the [ScanStaticRayPredictor] of [ray_predictor.h]. *)
Record ScanStaticReflectionPredictor : Type :=
  { beam_ : Beam;
    detector_ : Detector;
    goniometer_ : Goniometer;
    scan_ : Scan;
    dmin_ : float;
    predict_rays_ : miller_index -> mat3 float -> list Ray }.

Variable P : ScanStaticReflectionPredictor.

(** The loop of [append_for_index(p, ub, h, entering, panel)] over the
    rays: the first ray whose flag equals [entering] completes the row and
    returns; [None] when the loop ends without one. *)
Fixpoint append_matching_ray (p : prediction_data) (entering_ : bool)
    (panel_ : nat) (rays : list Ray) : option prediction_data :=
  match rays with
  | [] => None
  | ray :: rays' =>
      if Bool.eqb (entering ray) entering_ then
        let p := push_s1 p (s1 ray) in
        let frame := get_array_index_from_angle (scan_ P) (angle ray) in
        match panel_impact (detector_ P) panel_ (s1 ray) with
        | Some (mm, px) =>
            let p := push_xyz_mm p (Vec3 mm.1 mm.2 (angle ray)) in
            let p := push_xyz_px p (Vec3 px.1 px.2 frame) in
            Some (push_flags p Predicted)
        | None =>
            let p := push_xyz_mm p (Vec3 0%float 0%float (angle ray)) in
            let p := push_xyz_px p (Vec3 0%float 0%float frame) in
            Some (push_flags p 0)
        end
      else append_matching_ray p entering_ panel_ rays'
  end.

(** [append_for_index(p, ub, h, entering, panel)]. *)
Definition append_for_index (p : prediction_data) (ub : mat3 float)
    (h : miller_index) (entering_ : bool) (panel_ : nat) : prediction_data :=
  let p := push_hkl p h in
  let p := push_enter p entering_ in
  let p := push_panel p panel_ in
  let rays := predict_rays_ P h ub in
  match append_matching_ray p entering_ panel_ rays with
  | Some p' => p'
  | None =>
      let p := push_s1 p (Vec3 0 0 0)%float in
      let p := push_xyz_mm p (Vec3 0 0 0)%float in
      let p := push_xyz_px p (Vec3 0 0 0)%float in
      push_flags p 0
  end.

(** The loop of [for_hkl_with_individual_ub] over [i < h.size()]. *)
Fixpoint for_hkl_loop (n i : nat) (p : prediction_data)
    (h : list miller_index) (entering_ : list bool) (panel_ : list nat)
    (ub : list (mat3 float)) : prediction_data :=
  match n with
  | O => p
  | S n' =>
      match ub !! i, h !! i, entering_ !! i, panel_ !! i with
      | Some ubi, Some hi, Some ei, Some pi =>
          for_hkl_loop n' (S i) (append_for_index p ubi hi ei pi)
            h entering_ panel_ ub
      | _, _, _, _ => p
      end
  end.

(** [for_hkl_with_individual_ub(h, entering, panel, ub)]; [None] when a
    [DIALS_ASSERT] fails. *)
Definition for_hkl_with_individual_ub (h : list miller_index)
    (entering_ : list bool) (panel_ : list nat) (ub : list (mat3 float))
  : option prediction_data :=
  if negb (length ub =? length h)%nat then None
  else if negb (length ub =? length panel_)%nat then None
  else if negb (length ub =? length entering_)%nat then None
  else if negb (0 <? (get_oscillation (scan_ P)).2)%float then None
  else
    let table := for_hkl_loop (length h) 0 empty_table h entering_ panel_ ub in
    if negb (nrows table =? length h)%nat then None
    else Some table.

(** [for_hkl(h, entering, panel, ub)]. *)
Definition for_hkl (h : list miller_index) (entering_ : list bool)
    (panel_ : list nat) (ub : mat3 float) : option prediction_data :=
  let uba := replicate (length h) ub in
  for_hkl_with_individual_ub h entering_ panel_ uba.

(** The loop of [for_reflection_table_with_individual_ub] over
    [i < flags.size()]: [flags[i] &= ~af::Predicted; flags[i] |= new_flags[i]].
    [af::Predicted] is an enumerator, so [~af::Predicted] is an [int]; it is
    converted to [std::size_t] (64 bits) for the [&=]. *)
Fixpoint update_flags_loop (n i : nat) (flags_ new_flags : list Z) : list Z :=
  match n with
  | O => flags_
  | S n' =>
      match flags_ !! i, new_flags !! i with
      | Some f, Some nf =>
          let f := Z.land f (Z.lnot Predicted mod 2 ^ 64) in
          let f := Z.lor f nf in
          update_flags_loop n' (S i) (<[i := f]> flags_) new_flags
      | _, _ => flags_ (* a read past the end of [new_flags] *)
      end
  end.

(** [for_reflection_table_with_individual_ub(table, ub)]: the table after
    the call, or [None] when a [DIALS_ASSERT] fails.  The table is given by
    the seven columns the function reads and writes. *)
Definition for_reflection_table_with_individual_ub (table : prediction_data)
    (ub : list (mat3 float)) : option prediction_data :=
  if negb (length ub =? nrows table)%nat then None
  else
    match
      for_hkl_with_individual_ub (hkl table) (enter table) (panel table) ub
    with
    | None => None
    | Some new_table =>
        if negb (nrows new_table =? nrows table)%nat then None
        else
          let flags_ :=
            update_flags_loop (length (flags table)) 0 (flags table)
              (flags new_table) in
          let table :=
            {| hkl := hkl new_table; panel := panel new_table;
               enter := enter new_table; pd_s1 := pd_s1 new_table;
               xyz_px := xyz_px new_table; xyz_mm := xyz_mm new_table;
               flags := flags_ |} in
          if is_consistent table then Some table else None
    end.

(** [for_reflection_table(table, ub)]. *)
Definition for_reflection_table (table : prediction_data) (ub : mat3 float)
  : option prediction_data :=
  let uba := replicate (nrows table) ub in
  for_reflection_table_with_individual_ub table uba.

(** [cctbx::uctbx::unit_cell] and [cctbx::sgtbx::space_group_type], and the
    members [unit_cell_] and [space_group_type_] of the predictor. *)
Variables unit_cell space_group_type : Type.
Variable unit_cell_ : unit_cell.
Variable space_group_type_ : space_group_type.

(** The [IndexGenerator] of [index_generator.h], built from a unit cell, a
    space group type and a resolution limit: the indices its [next()]
    returns before the first (0,0,0). *)
Variable IndexGenerator_indices :
  unit_cell -> space_group_type -> float -> list miller_index.

(** [dxtbx::model::is_angle_in_range] ([scan_helpers.h]), and the members
    [get_oscillation_range] and [get_array_indices_with_angle] of a
    [Scan]. *)
Variable is_angle_in_range : vec2 float -> float -> bool.
Variable get_oscillation_range : Scan -> vec2 float.
Variable get_array_indices_with_angle : Scan -> float -> list (vec2 float).

(** One turn of the loop of [append_for_index(p, ub, h)] over the rays: no
    row when the angle of the ray is outside the oscillation range or the
    ray hits no panel, otherwise a row for each frame at which the scan is
    at that angle. *)
Definition append_for_index_ub_ray (p : prediction_data) (h : miller_index)
    (ray : Ray) : prediction_data :=
  let phi_range := get_oscillation_range (scan_ P) in
  if negb (is_angle_in_range phi_range (angle ray)) then p
  else
    match detector_get_ray_intersection (detector_ P) (s1 ray) with
    | Some (panel_, mm) =>
        match panels (detector_ P) !! panel_ with
        | Some pn =>
            let px := millimeter_to_pixel pn mm in
            let frames := get_array_indices_with_angle (scan_ P) (angle ray) in
            fold_left
              (fun (p : prediction_data) (frame : vec2 float) =>
                 let p := push_hkl p h in
                 let p := push_enter p (entering ray) in
                 let p := push_s1 p (s1 ray) in
                 let p := push_panel p panel_ in
                 let p := push_flags p Predicted in
                 let p := push_xyz_mm p (Vec3 mm.1 mm.2 frame.1) in
                 push_xyz_px p (Vec3 px.1 px.2 frame.2))
              frames p
        | None => p
        end
    | None => p
    end.

(** [append_for_index(p, ub, h)], the overload without a requested
    entering flag and panel. *)
Definition append_for_index_ub (p : prediction_data) (ub : mat3 float)
    (h : miller_index) : prediction_data :=
  fold_left (fun p ray => append_for_index_ub_ray p h ray)
    (predict_rays_ P h ub) p.

(** [for_ub(ub)]. *)
Definition for_ub (ub : mat3 float) : prediction_data :=
  let indices := IndexGenerator_indices unit_cell_ space_group_type_ (dmin_ P) in
  fold_left (fun p h => append_for_index_ub p ub h) indices empty_table.


End ScanStatic.

Arguments for_ub _ _ {_ _} _ _ _ _ _ _ _.

End ScanStatic.

Module ScanVarying.
Section ScanVarying.

(** [af::Predicted], a flag bit of [reflection_table.h]. *)
Variable Predicted : Z.

(** [cctbx::sgtbx::space_group_type]. *)
Variable space_group_type : Type.

(** [scitbx::math::r3_rotation::axis_and_angle_as_matrix]. *)
Variable axis_and_angle_as_matrix : vec3 float -> float -> mat3 float.

(** The arguments of a constructor call, in order. *)
Inductive ctor_arg : Type :=
  | arg_mat3 (a : mat3 float)
  | arg_space_group_type (t : space_group_type)
  | arg_vec3 (v : vec3 float)
  | arg_double (d : float)
  | arg_size_t (n : Z).

(** The [ReekeIndexGenerator] that [append_for_image] constructs takes seven
    arguments, [space_group_type_] among them; the class embedded above
    has the six-argument constructor only.  So the generator built here is
    a parameter: the indices its [next()] returns before the first (0,0,0),
    as a function of the arguments of the constructor call, or [None] when
    the construction fails an assertion.  This is the generator as it
    behaves when its cursors are at [state = enter]; the definitions that
    pass the cursors from call to call ([for_ub_s] and the others, below)
    agree with these from [state = enter] ([for_ub_s_enter]). *)
Variable reeke_indices : list ctor_arg -> option (list miller_index).

(** The members of a [ScanVaryingReflectionPredictor]; [predict_rays_] is
    the [ScanVaryingRayPredictor] of [scan_varying_ray_predictor.h]. *)
Record ScanVaryingReflectionPredictor : Type :=
  { beam_ : Beam;
    detector_ : Detector;
    goniometer_ : Goniometer;
    scan_ : Scan;
    space_group_type_ : space_group_type;
    dmin_ : float;
    margin_ : Z;
    predict_rays_ :
      miller_index -> mat3 float -> mat3 float -> Z -> Z -> option Ray }.

Variable P : ScanVaryingReflectionPredictor.

(** The value of an [int] converted to [std::size_t] (64 bits). *)
Definition to_size_t (n : Z) : Z := n mod 2 ^ 64.

(** [append_for_ray(p, h, ray, panel)]. *)
Definition append_for_ray (p : prediction_data) (h : miller_index) (ray : Ray)
  : prediction_data :=
  match detector_get_ray_intersection (detector_ P) (s1 ray) with
  | Some (panel_, mm) =>
      match panels (detector_ P) !! panel_ with
      | Some pn =>
          let px := millimeter_to_pixel pn mm in
          let frame := get_array_index_from_angle (scan_ P) (angle ray) in
          let p := push_hkl p h in
          let p := push_enter p (entering ray) in
          let p := push_s1 p (s1 ray) in
          let p := push_xyz_mm p (Vec3 mm.1 mm.2 (angle ray)) in
          let p := push_xyz_px p (Vec3 px.1 px.2 frame) in
          let p := push_panel p panel_ in
          push_flags p Predicted
      | None => p
      end
  | None => p
  end.

(** [append_for_index(p, A1, A2, frame, h)]; [frame] is a [std::size_t]
    here. *)
Definition append_for_index (p : prediction_data) (A1 A2 : mat3 float)
    (frame : Z) (h : miller_index) : prediction_data :=
  match predict_rays_ P h A1 A2 frame 1 with
  | Some ray => append_for_ray p h ray
  | None => p
  end.

(** [compute_setting_matrices(A1, A2, frame)]: the new values of [A1] and
    [A2]. *)
Definition compute_setting_matrices (A1 A2 : mat3 float) (frame : Z)
  : mat3 float * mat3 float :=
  let m2 := get_rotation_axis (goniometer_ P) in
  let phi_beg := get_angle_from_array_index (scan_ P) (int_to_double frame) in
  let phi_end :=
    get_angle_from_array_index (scan_ P) (int_to_double (frame + 1)) in
  let r_beg := axis_and_angle_as_matrix m2 phi_beg in
  let r_end := axis_and_angle_as_matrix m2 phi_end in
  (mat3_mul r_beg A1, mat3_mul r_end A2).

(** The arguments of the constructor call
    [ReekeIndexGenerator indices(A1, A2, space_group_type_, m2, s0, dmin_, margin_)]. *)
Definition generator_arguments (A1 A2 : mat3 float) : list ctor_arg :=
  let m2 := get_rotation_axis (goniometer_ P) in
  let s0 := get_s0 (beam_ P) in
  [arg_mat3 A1; arg_mat3 A2; arg_space_group_type (space_group_type_ P);
   arg_vec3 m2; arg_vec3 s0; arg_double (dmin_ P); arg_size_t (margin_ P)].

(** [append_for_image(p, frame, A1, A2)]; [None] when the construction of
    the generator fails. *)
Definition append_for_image (p : prediction_data) (frame : Z)
    (A1 A2 : mat3 float) : option prediction_data :=
  let '(A1, A2) := compute_setting_matrices A1 A2 frame in
  match reeke_indices (generator_arguments A1 A2) with
  | Some indices =>
      Some (fold_left
              (fun p h => append_for_index p A1 A2 (to_size_t frame) h)
              indices p)
  | None => None
  end.

(** The ways [for_ub] ends without a table. *)
Inductive failure : Type :=
  | size_assertion      (* [A.size() == scan_.get_num_images() + 1] *)
  | frame_assertion     (* [frame-offset < A.size()-1] *)
  | generator_failure.  (* thrown while constructing the generator *)

(** The loop of [for_ub] over the frames of the array range. *)
Fixpoint for_ub_loop (n : nat) (A : list (mat3 float)) (offset frame : Z)
    (p : prediction_data) : failure + prediction_data :=
  match n with
  | O => inr p
  | S n' =>
      if frame <? (get_array_range (scan_ P)).2 then
        if to_size_t (frame - offset) <? to_size_t (Z.of_nat (length A) - 1)
        then
          match A !! Z.to_nat (frame - offset),
                A !! Z.to_nat (frame - offset + 1) with
          | Some A1, Some A2 =>
              match append_for_image p frame A1 A2 with
              | Some p' => for_ub_loop n' A offset (frame + 1) p'
              | None => inl generator_failure
              end
          | _, _ => inl frame_assertion (* a read past the end of [A] *)
          end
        else inl frame_assertion
      else inr p
  end.

(** [for_ub(A)]. *)
Definition for_ub (A : list (mat3 float)) : failure + prediction_data :=
  if negb (Z.of_nat (length A) =? to_size_t (get_num_images (scan_ P) + 1))
  then inl size_assertion
  else
    let array_range := get_array_range (scan_ P) in
    let offset := array_range.1 in
    for_ub_loop (Z.to_nat (array_range.2 - array_range.1)) A offset
      array_range.1 empty_table.

(** The ways [for_ub_on_single_image] ends without a table. *)
Inductive single_image_failure : Type :=
  | range_assertion   (* [frame >= array_range[0] && frame < array_range[1]] *)
  | generator_failed. (* thrown while constructing the generator *)

(** [for_ub_on_single_image(frame, A1, A2)]. *)
Definition for_ub_on_single_image (frame : Z) (A1 A2 : mat3 float)
  : single_image_failure + prediction_data :=
  let array_range := get_array_range (scan_ P) in
  if negb ((array_range.1 <=? frame) && (frame <? array_range.2))
  then inl range_assertion
  else
    match append_for_image empty_table frame A1 A2 with
    | Some p => inr p
    | None => inl generator_failed
    end.


End ScanVarying.

Arguments arg_mat3 {space_group_type} a.
Arguments arg_space_group_type {space_group_type} t.
Arguments arg_vec3 {space_group_type} v.
Arguments arg_double {space_group_type} d.
Arguments arg_size_t {space_group_type} n.
Arguments beam_ {space_group_type} _.
Arguments detector_ {space_group_type} _.
Arguments goniometer_ {space_group_type} _.
Arguments scan_ {space_group_type} _.
Arguments space_group_type_ {space_group_type} _.
Arguments dmin_ {space_group_type} _.
Arguments margin_ {space_group_type} _.
Arguments predict_rays_ {space_group_type} _ _ _ _ _ _.
Arguments append_for_ray _ {_} _ _ _ _.
Arguments append_for_index _ {_} _ _ _ _ _ _.
Arguments compute_setting_matrices {_} _ _ _ _ _.
Arguments generator_arguments {_} _ _ _.
Arguments append_for_image _ {_} _ _ _ _ _ _ _.
Arguments for_ub_loop _ {_} _ _ _ _ _ _ _ _.
Arguments for_ub _ {_} _ _ _ _.
Arguments for_ub_on_single_image _ {_} _ _ _ _ _ _.

Section shared_cursors.

Variable Predicted : Z.
Variable space_group_type : Type.
Variable axis_and_angle_as_matrix : vec3 float -> float -> mat3 float.

(** The cursors of a generator are function-static (see [statics]): what
    [to_array()] returns depends on the values the calls before it left in
    them, whichever instance made those calls.  [reeke_to_array args s] is
    the construction of a generator from the arguments [args] followed by
    [to_array()], when the cursors hold [s]: the indices and the cursors
    left, or [None] when the construction fails an assertion. *)
Variable reeke_to_array :
  list (ctor_arg space_group_type) -> statics.t ->
  option (list miller_index * statics.t).

Variable P : ScanVaryingReflectionPredictor space_group_type.

(** [append_for_image(p, frame, A1, A2)] called when the cursors hold [s]:
    the table and the cursors left. *)
Definition append_for_image_s (s : statics.t) (p : prediction_data) (frame : Z)
    (A1 A2 : mat3 float) : option (prediction_data * statics.t) :=
  let '(A1, A2) :=
    ScanVarying.compute_setting_matrices axis_and_angle_as_matrix P A1 A2 frame in
  match reeke_to_array (ScanVarying.generator_arguments P A1 A2) s with
  | Some (indices, s') =>
      Some (fold_left
              (fun p h =>
                 ScanVarying.append_for_index Predicted P p A1 A2
                   (to_size_t frame) h)
              indices p,
            s')
  | None => None
  end.

(** The loop of [for_ub], the cursors passed from frame to frame. *)
Fixpoint for_ub_loop_s (n : nat) (A : list (mat3 float)) (offset frame : Z)
    (s : statics.t) (p : prediction_data)
  : failure + prediction_data * statics.t :=
  match n with
  | O => inr (p, s)
  | S n' =>
      if frame <? (get_array_range (scan_ P)).2 then
        if to_size_t (frame - offset) <? to_size_t (Z.of_nat (length A) - 1)
        then
          match A !! Z.to_nat (frame - offset),
                A !! Z.to_nat (frame - offset + 1) with
          | Some A1, Some A2 =>
              match append_for_image_s s p frame A1 A2 with
              | Some (p', s') => for_ub_loop_s n' A offset (frame + 1) s' p'
              | None => inl generator_failure
              end
          | _, _ => inl frame_assertion (* a read past the end of [A] *)
          end
        else inl frame_assertion
      else inr (p, s)
  end.

(** [for_ub(A)] called when the cursors hold [s]. *)
Definition for_ub_s (s : statics.t) (A : list (mat3 float))
  : failure + prediction_data * statics.t :=
  if negb (Z.of_nat (length A) =? to_size_t (get_num_images (scan_ P) + 1))
  then inl size_assertion
  else
    let array_range := get_array_range (scan_ P) in
    let offset := array_range.1 in
    for_ub_loop_s (Z.to_nat (array_range.2 - array_range.1)) A offset
      array_range.1 s empty_table.

(** [for_ub_on_single_image(frame, A1, A2)] called when the cursors hold
    [s]. *)
Definition for_ub_on_single_image_s (s : statics.t) (frame : Z)
    (A1 A2 : mat3 float)
  : single_image_failure + prediction_data * statics.t :=
  let array_range := get_array_range (scan_ P) in
  if negb ((array_range.1 <=? frame) && (frame <? array_range.2))
  then inl range_assertion
  else
    match append_for_image_s s empty_table frame A1 A2 with
    | Some r => inr r
    | None => inl generator_failed
    end.

End shared_cursors.

Arguments append_for_image_s _ {_} _ _ _ _ _ _ _ _.
Arguments for_ub_loop_s _ {_} _ _ _ _ _ _ _ _ _.
Arguments for_ub_s _ {_} _ _ _ _ _.
Arguments for_ub_on_single_image_s _ {_} _ _ _ _ _ _ _.

End ScanVarying.

(** ** [class StillsReflectionPredictor] *)

Module Stills.
Section Stills.

(** [af::Predicted], a flag bit of [reflection_table.h]. *)
Variable Predicted : Z.

(** [cctbx::uctbx::unit_cell] and [cctbx::sgtbx::space_group_type]. *)
Variables unit_cell space_group_type : Type.

(** The [IndexGenerator] of [index_generator.h]: the indices its [next()]
    returns before the first (0,0,0). *)
Variable IndexGenerator_indices :
  unit_cell -> space_group_type -> float -> list miller_index.

(** The members of a [StillsReflectionPredictor]; [predict_ray_] is the
    [StillsRayPredictor] of [stills_ray_predictor.h]: the ray it returns for
    [(h, ub)], with the value [get_delpsi()] returns after that call. *)
Record StillsReflectionPredictor : Type :=
  { beam_ : Beam;
    detector_ : Detector;
    ub_ : mat3 float;
    unit_cell_ : unit_cell;
    space_group_type_ : space_group_type;
    dmin_ : float;
    predict_ray_ : miller_index -> mat3 float -> Ray * float }.

Variable P : StillsReflectionPredictor.

(** [operator()()]: [DIALS_ERROR("Not implemented")]. *)
Definition call : option stills_prediction_data := None.

(** [get_ray_intersection(s1, panel)]: with [panel < 0] the intersection
    with whichever panel the ray hits, otherwise with the given panel. *)
Definition get_ray_intersection (s1_ : vec3 float) (panel_ : Z)
  : option (nat * vec2 float) :=
  if panel_ <? 0 then detector_get_ray_intersection (detector_ P) s1_
  else
    match panels (detector_ P) !! Z.to_nat panel_ with
    | Some pn =>
        match get_ray_intersection pn s1_ with
        | Some mm => Some (Z.to_nat panel_, mm)
        | None => None
        end
    | None => None
    end.

(** [append_for_ray(p, h, ray, panel, delpsi)]. *)
Definition append_for_ray (p : stills_prediction_data) (h : miller_index)
    (ray : Ray) (panel_ : Z) (delpsi_ : float) : stills_prediction_data :=
  match get_ray_intersection (s1 ray) panel_ with
  | Some (panel_, mm) =>
      match panels (detector_ P) !! panel_ with
      | Some pn =>
          let px := millimeter_to_pixel pn mm in
          let c := columns p in
          let c := push_hkl c h in
          let c := push_enter c (entering ray) in
          let c := push_s1 c (s1 ray) in
          let c := push_xyz_mm c (Vec3 mm.1 mm.2 0%float) in
          let c := push_xyz_px c (Vec3 px.1 px.2 0%float) in
          let c := push_panel c panel_ in
          let c := push_flags c Predicted in
          {| columns := c; delpsi := delpsi p ++ [delpsi_] |}
      | None => p
      end
  | None => p
  end.

(** [append_for_index(p, ub, h, panel)]; the default [panel] is -1. *)
Definition append_for_index (p : stills_prediction_data) (ub : mat3 float)
    (h : miller_index) (panel_ : Z) : stills_prediction_data :=
  let '(ray, delpsi_) := predict_ray_ P h ub in
  append_for_ray p h ray panel_ delpsi_.

(** [for_ub(ub)]: the indices whose |delpsi| is below 0.001. *)
Definition for_ub (ub : mat3 float) : stills_prediction_data :=
  let indices :=
    IndexGenerator_indices (unit_cell_ P) (space_group_type_ P) (dmin_ P) in
  fold_left
    (fun p h =>
       let '(ray, delpsi_) := predict_ray_ P h ub in
       let delpsi_ := PrimFloat.abs delpsi_ in
       if (delpsi_ <? 0x1.0624dd2f1a9fcp-10)%float (* 0.001 *) then append_for_index p ub h (-1) else p)
    indices empty_stills_table.

(** [operator()(h)]. *)
Definition call_hkl (h : list miller_index) : stills_prediction_data :=
  fold_left (fun p hi => append_for_index p (ub_ P) hi (-1)) h
    empty_stills_table.

(** The loop of [operator()(h, panel)] over [i < h.size()]. *)
Fixpoint call_loop (n i : nat) (p : stills_prediction_data)
    (h : list miller_index) (panel_ : list nat) : stills_prediction_data :=
  match n with
  | O => p
  | S n' =>
      match h !! i, panel_ !! i with
      | Some hi, Some pi =>
          call_loop n' (S i) (append_for_index p (ub_ P) hi (size_t_to_int pi))
            h panel_
      | _, _ => p
      end
  end.

(** [operator()(h, panel)] for an array of panels; [None] when the
    [DIALS_ASSERT] fails. *)
Definition call_hkl_panels (h : list miller_index) (panel_ : list nat)
  : option stills_prediction_data :=
  if negb (length h =? length panel_)%nat then None
  else Some (call_loop (length h) 0 empty_stills_table h panel_).

(** [operator()(h, panel)] for one panel. *)
Definition call_hkl_panel (h : list miller_index) (panel_ : nat)
  : option stills_prediction_data :=
  let panels_ := replicate (length h) panel_ in
  call_hkl_panels h panels_.

(** The loop of [for_hkl_with_individual_ub] over [i < h.size()]. *)
Fixpoint for_hkl_loop (n i : nat) (p : stills_prediction_data)
    (h : list miller_index) (panel_ : list nat) (ub : list (mat3 float))
  : stills_prediction_data :=
  match n with
  | O => p
  | S n' =>
      match ub !! i, h !! i, panel_ !! i with
      | Some ubi, Some hi, Some pi =>
          for_hkl_loop n' (S i)
            (append_for_index p ubi hi (size_t_to_int pi)) h panel_ ub
      | _, _, _ => p
      end
  end.

(** [for_hkl_with_individual_ub(h, panel, ub)]; [None] when a
    [DIALS_ASSERT] fails. *)
Definition for_hkl_with_individual_ub (h : list miller_index)
    (panel_ : list nat) (ub : list (mat3 float))
  : option stills_prediction_data :=
  if negb (length ub =? length h)%nat then None
  else if negb (length ub =? length panel_)%nat then None
  else
    let table := for_hkl_loop (length h) 0 empty_stills_table h panel_ ub in
    if negb (nrows (columns table) =? length h)%nat then None
    else Some table.

End Stills.
End Stills.

Arguments Stills.beam_ {unit_cell space_group_type} _.
Arguments Stills.detector_ {unit_cell space_group_type} _.
Arguments Stills.ub_ {unit_cell space_group_type} _.
Arguments Stills.unit_cell_ {unit_cell space_group_type} _.
Arguments Stills.space_group_type_ {unit_cell space_group_type} _.
Arguments Stills.dmin_ {unit_cell space_group_type} _.
Arguments Stills.predict_ray_ {unit_cell space_group_type} _ _ _.
Arguments Stills.get_ray_intersection {unit_cell space_group_type} _ _ _.
Arguments Stills.append_for_ray _ {unit_cell space_group_type} _ _ _ _ _ _.
Arguments Stills.append_for_index _ {unit_cell space_group_type} _ _ _ _ _.
Arguments Stills.for_ub _ {unit_cell space_group_type} _ _ _.
Arguments Stills.call_hkl _ {unit_cell space_group_type} _ _.
Arguments Stills.call_loop _ {unit_cell space_group_type} _ _ _ _ _ _.
Arguments Stills.call_hkl_panels _ {unit_cell space_group_type} _ _ _.
Arguments Stills.call_hkl_panel _ {unit_cell space_group_type} _ _ _.
Arguments Stills.for_hkl_loop _ {unit_cell space_group_type} _ _ _ _ _ _ _.
Arguments Stills.for_hkl_with_individual_ub _ {unit_cell space_group_type} _ _ _ _.

(** ** Inputs for the examples *)

(** Modelled from the spec: [reeke_detail::solve_quad] of
    [scan_varying_helpers.h], which is not among the embedded files.  The
    real roots of [a x^2 + b x + c = 0]: for [a = 0] the single root [-c/b]
    (none if [b = 0]); none for a negative discriminant, one for a zero
    discriminant, otherwise the two roots in ascending order. *)
Definition spec_solve_quad (a b c : float) : list float :=
  if (a =? 0)%float then
    if (b =? 0)%float then [] else [(- c / b)%float]
  else
    let discriminant := (b * b - 4 * a * c)%float in
    if (discriminant <? 0)%float then []
    else if (discriminant =? 0)%float then [(- b / (2 * a))%float]
    else
      let x1 := ((- b - PrimFloat.sqrt discriminant) / (2 * a))%float in
      let x2 := ((- b + PrimFloat.sqrt discriminant) / (2 * a))%float in
      if (x2 <? x1)%float then [x2; x1] else [x1; x2].

(** [std::asin] and [std::sin] at the arguments the examples evaluate
    ([asin(0.5)] and [sin(2 asin(0.5))], as glibc returns them), NaN
    elsewhere. *)
Definition libm_asin (x : float) : float :=
  if (x =? 0.5)%float then 0x1.0c152382d7366p-1%float else nan.

Definition libm_sin (x : float) : float :=
  if (x =? 0x1.0c152382d7366p+0)%float then 0x1.bb67ae8584cabp-1%float else nan.

(** A cubic cell of edge 1, a beam of wavelength 1 along z, resolution
    limit 1, margin 1; the rotation axis is x or y; the end orientation is
    the beginning one, or the beginning one turned by half a turn about x. *)
Definition ub_unit : mat3 float := (Mat3 1 0 0 0 1 0 0 0 1)%float.
Definition ub_half_turn : mat3 float := (Mat3 1 0 0 0 (-1) 0 0 0 (-1))%float.
Definition axis_x : vec3 float := (Vec3 1 0 0)%float.
Definition axis_y : vec3 float := (Vec3 0 1 0)%float.
Definition s0_z : vec3 float := (Vec3 0 0 1)%float.

Definition generator_x : option ReekeIndexGenerator :=
  ReekeIndexGenerator_ctor libm_sin libm_asin ub_unit ub_unit axis_x s0_z 1 1.

Definition generator_y : option ReekeIndexGenerator :=
  ReekeIndexGenerator_ctor libm_sin libm_asin ub_unit ub_unit axis_y s0_z 1 1.

Definition generator_half_turn : option ReekeIndexGenerator :=
  ReekeIndexGenerator_ctor libm_sin libm_asin ub_unit ub_half_turn axis_x s0_z 1 1.

(** A scan-static predictor for the examples.  The scan has oscillation
    (0, 0.5), so an angle is at array index angle / 0.5.  The detector has
    one panel, the plane z = 1 in front of the sample: a ray [s1] hits it,
    at (x/z, y/z), when its z component is positive; a pixel is 0.125 wide.
    The ray predictor returns, for the index (1,0,0), an entering ray
    pointing away from the panel at angle 1 and an exiting ray toward it at
    angle 2, and for any other index the exiting ray only. *)
Definition example_scan : Scan :=
  {| get_oscillation := (0, 0.5)%float;
     get_num_images := 8;
     get_array_range := (0, 8);
     get_angle_from_array_index := fun i => (i * 0.5)%float;
     get_array_index_from_angle := fun a => (a / 0.5)%float |}.

Definition example_panel : Panel :=
  {| get_ray_intersection := fun s =>
       if (0 <? v3_2 s)%float then Some (v3_0 s / v3_2 s, v3_1 s / v3_2 s)%float
       else None;
     millimeter_to_pixel := fun mm => (mm.1 / 0.125, mm.2 / 0.125)%float |}.

Definition example_detector : Detector :=
  {| panels := [example_panel];
     detector_get_ray_intersection := fun s =>
       match get_ray_intersection example_panel s with
       | Some mm => Some (0%nat, mm)
       | None => None
       end |}.

Definition entering_ray : Ray :=
  {| s1 := (Vec3 0 0 (-1))%float; angle := 1; entering := true |}.

Definition exiting_ray : Ray :=
  {| s1 := (Vec3 0 0 1)%float; angle := 2; entering := false |}.

Definition example_static_predictor : ScanStatic.ScanStaticReflectionPredictor :=
  {| ScanStatic.beam_ := {| get_s0 := s0_z |};
     ScanStatic.detector_ := example_detector;
     ScanStatic.goniometer_ := {| get_rotation_axis := axis_x |};
     ScanStatic.scan_ := example_scan;
     ScanStatic.dmin_ := 1;
     ScanStatic.predict_rays_ := fun h ub =>
       if (v3_0 h =? 1) && (v3_1 h =? 0) && (v3_2 h =? 0)
       then [entering_ray; exiting_ray] else [exiting_ray] |}.

(** A scan-varying predictor for the examples.  The scan has one image
    and does not turn: every array index is at angle 0, where the rotation
    matrix is the identity.  The space group is given by its number, and
    the generator is that of the embedded class, which has no space-group
    argument: its indices are those of [to_array].  The ray of an index
    (h,k,l) has s1 = (h, k, l + 1). *)
Definition still_scan : Scan :=
  {| get_oscillation := (0, 0)%float;
     get_num_images := 1;
     get_array_range := (0, 1);
     get_angle_from_array_index := fun _ => 0%float;
     get_array_index_from_angle := fun _ => 0%float |}.

Definition rotation_at_zero (axis : vec3 float) (angle_ : float) : mat3 float :=
  if (angle_ =? 0)%float then ub_unit
  else Mat3 nan nan nan nan nan nan nan nan nan.

Definition example_reeke_indices (args : list (ScanVarying.ctor_arg nat))
  : option (list miller_index) :=
  match args with
  | [ScanVarying.arg_mat3 A1; ScanVarying.arg_mat3 A2;
     ScanVarying.arg_space_group_type _; ScanVarying.arg_vec3 m2;
     ScanVarying.arg_vec3 s0; ScanVarying.arg_double dmin;
     ScanVarying.arg_size_t margin] =>
      match ReekeIndexGenerator_ctor libm_sin libm_asin A1 A2 m2 s0 dmin margin with
      | Some g => Some (to_array spec_solve_quad g 100 statics.initial).1
      | None => None
      end
  | _ => None
  end.

Definition example_varying_predictor
  : ScanVarying.ScanVaryingReflectionPredictor nat :=
  {| ScanVarying.beam_ := {| get_s0 := s0_z |};
     ScanVarying.detector_ := example_detector;
     ScanVarying.goniometer_ := {| get_rotation_axis := axis_x |};
     ScanVarying.scan_ := still_scan;
     ScanVarying.space_group_type_ := 1%nat;
     ScanVarying.dmin_ := 1;
     ScanVarying.margin_ := 1;
     ScanVarying.predict_rays_ := fun h A1 A2 frame step =>
       Some {| s1 := Vec3 (int_to_double (v3_0 h)) (int_to_double (v3_1 h))
                       (int_to_double (v3_2 h) + 1)%float;
               angle := 0; entering := true |} |}.

(** A table of two rows for the examples: the index (1,0,0) requested
    entering and exiting on panel 0, with flags 3 and 4. *)
Definition example_table : prediction_data :=
  {| hkl := [Vec3 1 0 0; Vec3 1 0 0]; panel := [0; 0]%nat;
     enter := [true; false];
     pd_s1 := [Vec3 0 0 0; Vec3 0 0 0]%float;
     xyz_px := [Vec3 0 0 0; Vec3 0 0 0]%float;
     xyz_mm := [Vec3 0 0 0; Vec3 0 0 0]%float;
     flags := [3; 4] |}.

(** A stills predictor for the examples, with the detector of the other
    examples: the ray of (h,k,l) has s1 = (h, k, l) and delpsi h / 1024. *)
Definition example_stills_predictor : Stills.StillsReflectionPredictor nat nat :=
  {| Stills.beam_ := {| get_s0 := s0_z |};
     Stills.detector_ := example_detector;
     Stills.ub_ := ub_unit;
     Stills.unit_cell_ := 1%nat;
     Stills.space_group_type_ := 1%nat;
     Stills.dmin_ := 1;
     Stills.predict_ray_ := fun h ub =>
       ({| s1 := Vec3 (int_to_double (v3_0 h)) (int_to_double (v3_1 h))
                   (int_to_double (v3_2 h));
           angle := 0; entering := false |},
        (int_to_double (v3_0 h) / 1024)%float) |}.

(** ** Vocabulary of the statements *)

(** The six permutation matrices. *)
Definition permutation_matrix (m : mat3 Z) : Prop :=
  m = Mat3 1 0 0 0 1 0 0 0 1 \/ m = Mat3 1 0 0 0 0 1 0 1 0 \/
  m = Mat3 0 1 0 1 0 0 0 0 1 \/ m = Mat3 0 1 0 0 0 1 1 0 0 \/
  m = Mat3 0 0 1 1 0 0 0 1 0 \/ m = Mat3 0 0 1 0 1 0 1 0 0.

(** [index] is a rearrangement of (0, 1, 2). *)
Definition index_bijection (i : vec3 nat) : Prop :=
  Permutation [v3_0 i; v3_1 i; v3_2 i] [0; 1; 2]%nat.

(** Two values of the statics from which a traversal proceeds alike: the
    same values, or both with [state = enter]. *)
Definition same_or_enter (s1 s2 : statics.t) : Prop :=
  s1 = s2 \/ (statics.state s1 = statics.enter /\ statics.state s2 = statics.enter).

(** The result of call number [k + 1] of [next()] on [g], in a program that
    calls no other generator. *)
Definition call_result (solve_quad : float -> float -> float -> list float)
    (g : ReekeIndexGenerator) (k : nat) : miller_index :=
  (next solve_quad g (calls solve_quad g k statics.initial).2).1.

(** "Once [next()] has returned (0,0,0), every later call returns (0,0,0)." *)
Definition sentinel_forever (solve_quad : float -> float -> float -> list float)
    (g : ReekeIndexGenerator) : Prop :=
  forall k : nat,
    call_result solve_quad g k = zero_index ->
    call_result solve_quad g (S k) = zero_index.

(** "The results of the calls on [g] do not depend on the calls made on
    other generators": whatever generators were called before, the first [n]
    calls on [g] return what they return in a program that calls only [g]. *)
Definition independent_of_other_generators
    (solve_quad : float -> float -> float -> list float)
    (g : ReekeIndexGenerator) : Prop :=
  forall (others : list ReekeIndexGenerator) (n : nat),
    (calls solve_quad g n (interleaved solve_quad others statics.initial).2).1
    = (calls solve_quad g n statics.initial).1.

(** The roots of the three quadratics in q at a given p, with the
    coefficients the specification lists: the resolution quadratic and the
    Ewald quadratics of the begin and of the end setting. *)
Definition resolution_q_roots (solve_quad : float -> float -> float -> list float)
    (m : ReekeModel) (p : Z) : list float :=
  solve_quad (cp m 9) (2 * int_to_double p * cp m 8)%float
    (int_to_double (p * p) * cp m 5 + cp m 0 * dstarmax2_ m)%float.

Definition ewald_beg_q_roots (solve_quad : float -> float -> float -> list float)
    (m : ReekeModel) (p : Z) : list float :=
  solve_quad (cp m 9) (2 * (cp m 6 + int_to_double p * cp m 8))%float
    (cp m 1 + int_to_double p * (2 * cp m 3 + int_to_double p * cp m 5))%float.

Definition ewald_end_q_roots (solve_quad : float -> float -> float -> list float)
    (m : ReekeModel) (p : Z) : list float :=
  solve_quad (cp m 9) (2 * (cp m 7 + int_to_double p * cp m 8))%float
    (cp m 2 + int_to_double p * (2 * cp m 4 + int_to_double p * cp m 5))%float.

(** [n] is a value of an [int] (32 bits). *)
Definition is_int (n : Z) : bool := (- 2 ^ 31 <=? n) && (n <? 2 ^ 31).

(** [x] is finite. *)
Definition is_finite (x : float) : bool :=
  match double_scaled x with Some _ => true | None => false end.

(** [x] is finite, and [(int)x] and the sums the limit computations form
    from it with the margin, each also increased by one, are values of an
    [int]: on [x] none of these computations meets a conversion or an
    overflow that C++ leaves undefined. *)
Definition fits_int (margin : Z) (x : float) : bool :=
  is_finite x
  && is_int (double_to_int x)
  && is_int (double_to_int x - margin) && is_int (double_to_int x - margin + 1)
  && is_int (double_to_int x + margin) && is_int (double_to_int x + margin + 1).

(** [x] is a least, or a greatest, element of [l]: it is in [l] and no
    element of [l] is below it, or above it. *)
Definition least_of (l : list float) (x : float) : Prop :=
  In x l /\ Forall (fun y => (y <? x)%float = false) l.

Definition greatest_of (l : list float) (x : float) : Prop :=
  In x l /\ Forall (fun y => (x <? y)%float = false) l.

(** Two doubles that denote the same finite number (they are the same
    double, or the two zeros). *)
Definition same_number (x y : float) : Prop :=
  exists a : Z * Z, double_scaled x = Some a /\ double_scaled y = Some a.


(** "At most two intervals, each with lower < upper, and two of them
    ascending and disjoint." *)
Definition r_limits_claimed (l : list (vec2 Z)) : Prop :=
  (length l <= 2)%nat
  /\ Forall (fun x : vec2 Z => x.1 < x.2) l
  /\ forall a b : vec2 Z, l = [a; b] -> a.2 <= b.1.

(** What [r_limits] ensures: the same, but the second of two intervals may
    be empty when its lower bound was raised to the end of the first. *)
Definition r_limits_ensured (l : list (vec2 Z)) : Prop :=
  (length l <= 2)%nat
  /\ (forall a : vec2 Z, l = [a] -> a.1 < a.2)
  /\ forall a b : vec2 Z,
       l = [a; b] ->
       a.1 < a.2 /\ a.2 <= b.1 /\ (b.1 < b.2 \/ b.1 = a.2).

(** The resolution p limits of one orientation as the specification gives
    them: [sigma = sign(v . source)] is taken from the plane normal [v] of
    that same orientation, [e] and [f] from its [dp]. *)
Definition spec_resolution_p_limits (c_sin c_asin : float -> float)
    (m : ReekeModel) (v : vec3 float) (dp p_dist : float) : vec2 float :=
  let sin_theta := (0.5 * wavelength_ m * dstarmax_ m)%float in
  let sigma := int_to_double (sign_of (dot v (source_ m))) in
  let e := (2 * sin_theta * sin_theta * dp)%float in
  let f :=
    (c_sin (2 * c_asin sin_theta)
     * PrimFloat.sqrt (std_max (1 / wavelength_sq_ m - dp * dp) 0))%float in
  reeke_detail.sort2 (((sigma * e - f) / p_dist)%float,
                      ((sigma * e + f) / p_dist)%float).

(** The sign [compute_p_limits] selects by: that of [v_end . source]. *)
Definition end_sign (ub_beg ub_end : mat3 float) (axis source : vec3 float) : Z :=
  sign_of
    (dot (plane_normal
            (reeke_detail.rlv_end
               (reeke_detail.permute_matrix ub_beg ub_end axis source)))
         source).

(** The four real endpoints [compute_p_limits] selects. *)
Definition selected_p_limits (sign : Z) (m : ReekeModel) : list float :=
  select_p_limits sign (ewald_p_lim_beg_ m) (ewald_p_lim_end_ m)
    (res_p_lim_beg_ m) (res_p_lim_end_ m).

(** "[p_limits()] is [floor(min) - margin, floor(max) + margin + 1)." *)
Definition p_limits_by_floor (sign : Z) (m : ReekeModel) : Prop :=
  p_limits m
  = (double_floor (af_min (selected_p_limits sign m)) - margin_ m,
     double_floor (af_max (selected_p_limits sign m)) + margin_ m + 1).

(** What [compute_p_limits] stores: the same with the conversion to [int],
    which rounds toward zero. *)
Definition p_limits_by_truncation (sign : Z) (m : ReekeModel) : Prop :=
  p_limits m
  = (double_to_int (af_min (selected_p_limits sign m)) - margin_ m,
     double_to_int (af_max (selected_p_limits sign m)) + margin_ m + 1).

(** The four sides of the p range of a model (the lower limit at the begin
    and at the end orientation, the upper limit at the begin and at the end
    orientation), each with its resolution limit and its Ewald limit, as
    [resolution_p_limits()] and [ewald_sphere_p_limits()] return them. *)
Definition p_limit_sides (m : ReekeModel) : list (float * float) :=
  let ewald := ewald_sphere_p_limits m in
  let res := resolution_p_limits m in
  [(res.1.1, ewald.1.1); (res.2.1, ewald.2.1);
   (res.1.2, ewald.1.2); (res.2.2, ewald.2.2)].

(** "If sigma < 0 use max per side, else use min per side": [x] is the
    endpoint selected on a side. *)
Definition side_choice (sigma : Z) (side : float * float) (x : float) : Prop :=
  if sigma <? 0 then greatest_of [side.1; side.2] x
  else least_of [side.1; side.2] x.

(** [xs] are the four per-side-selected endpoints of [m]. *)
Definition per_side_selected (sigma : Z) (m : ReekeModel) (xs : list float)
  : Prop :=
  Forall2 (side_choice sigma) (p_limit_sides m) xs.

(** The eight real limits of a model are finite and no conversion or sum of
    [compute_p_limits] on them leaves the range of [int]. *)
Definition p_limits_fit_int (m : ReekeModel) : Prop :=
  Forall (fun side : float * float =>
            fits_int (margin_ m) side.1 = true
            /\ fits_int (margin_ m) side.2 = true)
    (p_limit_sides m).

(** The first ray whose flag equals the requested one. *)
Definition matching_ray (rays : list Ray) (entering_ : bool) : option Ray :=
  List.find (fun ray => Bool.eqb (entering ray) entering_) rays.

(** The row requested by [(h, entering, panel)] with the matrix [ub]: the
    outcome of the prediction for the matching ray on the requested panel. *)
Definition requested_row (Predicted : Z)
    (P : ScanStatic.ScanStaticReflectionPredictor) (ub : mat3 float)
    (h : miller_index) (entering_ : bool) (panel_ : nat) : row :=
  match matching_ray (ScanStatic.predict_rays_ P h ub) entering_ with
  | Some ray =>
      let frame :=
        get_array_index_from_angle (ScanStatic.scan_ P) (angle ray) in
      match panel_impact (ScanStatic.detector_ P) panel_ (s1 ray) with
      | Some (mm, px) =>
          {| row_hkl := h; row_panel := panel_; row_enter := entering_;
             row_s1 := s1 ray; row_xyz_px := Vec3 px.1 px.2 frame;
             row_xyz_mm := Vec3 mm.1 mm.2 (angle ray);
             row_flags := Predicted |}
      | None =>
          {| row_hkl := h; row_panel := panel_; row_enter := entering_;
             row_s1 := s1 ray; row_xyz_px := Vec3 0%float 0%float frame;
             row_xyz_mm := Vec3 0%float 0%float (angle ray);
             row_flags := 0 |}
      end
  | None =>
      {| row_hkl := h; row_panel := panel_; row_enter := entering_;
         row_s1 := (Vec3 0 0 0)%float; row_xyz_px := (Vec3 0 0 0)%float;
         row_xyz_mm := (Vec3 0 0 0)%float; row_flags := 0 |}
  end.

(** The table [p] with one more row. *)
Definition add_row (p : prediction_data) (w : row) : prediction_data :=
  {| hkl := hkl p ++ [row_hkl w]; panel := panel p ++ [row_panel w];
     enter := enter p ++ [row_enter w]; pd_s1 := pd_s1 p ++ [row_s1 w];
     xyz_px := xyz_px p ++ [row_xyz_px w]; xyz_mm := xyz_mm p ++ [row_xyz_mm w];
     flags := flags p ++ [row_flags w] |}.

(** Every column of [p] has [n] elements. *)
Definition columns_of_length (p : prediction_data) (n : nat) : Prop :=
  length (hkl p) = n /\ length (panel p) = n /\ length (enter p) = n
  /\ length (pd_s1 p) = n /\ length (xyz_px p) = n /\ length (xyz_mm p) = n
  /\ length (flags p) = n.

(** "A row for a ray that the requested panel rejects has zero coordinates
    and the Predicted flag unset." *)
Definition zero_coordinates (Predicted : Z) (w : row) : Prop :=
  row_xyz_mm w = (Vec3 0 0 0)%float /\ row_xyz_px w = (Vec3 0 0 0)%float
  /\ Z.land (row_flags w) Predicted = 0.

(** "Where the requested panel rejects the matching ray, the row of the
    table has zero coordinates and the Predicted flag unset." *)
Definition rejected_rows_zero (Predicted : Z)
    (P : ScanStatic.ScanStaticReflectionPredictor) (h : list miller_index)
    (e : list bool) (pn : list nat) (ub : mat3 float) (t : prediction_data)
  : Prop :=
  forall (i : nat) (hi : miller_index) (ei : bool) (pi : nat) (ray : Ray)
         (w : row),
    h !! i = Some hi -> e !! i = Some ei -> pn !! i = Some pi ->
    matching_ray (ScanStatic.predict_rays_ P hi ub) ei = Some ray ->
    panel_impact (ScanStatic.detector_ P) pi (s1 ray) = None ->
    row_at t i = Some w ->
    zero_coordinates Predicted w.

Section scan_varying_vocabulary.

Variable Predicted : Z.
Variable space_group_type : Type.
Variable axis_and_angle_as_matrix : vec3 float -> float -> mat3 float.
Variable reeke_indices :
  list (ScanVarying.ctor_arg space_group_type) -> option (list miller_index).
Variable P : ScanVarying.ScanVaryingReflectionPredictor space_group_type.

(** "The generator is built from exactly (A1, A2, axis, s0, dmin, margin)." *)
Definition six_arguments (A1 A2 : mat3 float)
  : list (ScanVarying.ctor_arg space_group_type) :=
  [ScanVarying.arg_mat3 A1; ScanVarying.arg_mat3 A2;
   ScanVarying.arg_vec3 (get_rotation_axis (ScanVarying.goniometer_ P));
   ScanVarying.arg_vec3 (get_s0 (ScanVarying.beam_ P));
   ScanVarying.arg_double (ScanVarying.dmin_ P);
   ScanVarying.arg_size_t (ScanVarying.margin_ P)].

(** The matrix [A] premultiplied by the rotation at the angle of array index
    [f]. *)
Definition rotated (f : Z) (A : mat3 float) : mat3 float :=
  mat3_mul
    (axis_and_angle_as_matrix (get_rotation_axis (ScanVarying.goniometer_ P))
       (get_angle_from_array_index (ScanVarying.scan_ P) (int_to_double f)))
    A.

(** The prediction for frame [f]: from [A[f - offset]] and
    [A[f + 1 - offset]], rotated to the angles of [f] and [f + 1], the
    indices of the generator built from the two matrices, the space group
    type, the axis, s0, dmin and the margin, each index predicted on [f]. *)
Definition predict_frame (A : list (mat3 float)) (p : prediction_data) (f : Z)
  : ScanVarying.failure + prediction_data :=
  let offset := (get_array_range (ScanVarying.scan_ P)).1 in
  match A !! Z.to_nat (f - offset), A !! Z.to_nat (f + 1 - offset) with
  | Some Af, Some Af1 =>
      let A1 := rotated f Af in
      let A2 := rotated (f + 1) Af1 in
      match
        reeke_indices
          [ScanVarying.arg_mat3 A1; ScanVarying.arg_mat3 A2;
           ScanVarying.arg_space_group_type (ScanVarying.space_group_type_ P);
           ScanVarying.arg_vec3 (get_rotation_axis (ScanVarying.goniometer_ P));
           ScanVarying.arg_vec3 (get_s0 (ScanVarying.beam_ P));
           ScanVarying.arg_double (ScanVarying.dmin_ P);
           ScanVarying.arg_size_t (ScanVarying.margin_ P)]
      with
      | Some indices =>
          inr (fold_left
                 (fun p h =>
                    ScanVarying.append_for_index Predicted P p A1 A2
                      (ScanVarying.to_size_t f) h)
                 indices p)
      | None => inl ScanVarying.generator_failure
      end
  | _, _ => inl ScanVarying.frame_assertion
  end.

(** The frames [first, first + 1, ..., first + n - 1]. *)
Definition frames_from (first : Z) (n : nat) : list Z :=
  map (fun k : nat => first + Z.of_nat k) (seq 0 n).

(** The frames one after the other, until one fails. *)
Fixpoint predict_frames (A : list (mat3 float)) (fs : list Z)
    (p : prediction_data) : ScanVarying.failure + prediction_data :=
  match fs with
  | [] => inr p
  | f :: fs' =>
      match predict_frame A p f with
      | inr p' => predict_frames A fs' p'
      | inl err => inl err
      end
  end.

End scan_varying_vocabulary.

Arguments six_arguments {_} _ _ _.
Arguments rotated {_} _ _ _ _.
Arguments predict_frame _ {_} _ _ _ _ _ _.
Arguments predict_frames _ {_} _ _ _ _ _ _.

(** *** The permutation and the constructor *)

(** A pair whose second element is not below its first. *)
Definition ordered (a : vec2 float) : Prop := (a.2 <? a.1)%float = false.

(** Column [j] of [ub]. *)
Definition column (ub : mat3 float) (j : nat) : vec3 float :=
  Vec3 (m3_get ub j) (m3_get ub (j + 3)) (m3_get ub (j + 6)).

(** How closely column [j] of [ub] is aligned with [v]: the absolute value
    of the product of the column's direction with [v], as [permute_axes]
    computes it. *)
Definition alignment (ub : mat3 float) (v : vec3 float) (j : nat) : float :=
  PrimFloat.abs (dot (normalize (column ub j)) v).

(** [0.5 * wavelength * dstarmax] for a source vector and a resolution
    limit, and the sanity check on it. *)
Definition sin_theta (source : vec3 float) (dmin : float) : float :=
  (0.5 * (1 / length3 source) * (1 / dmin))%float.

Definition sin_theta_in_range (source : vec3 float) (dmin : float) : bool :=
  (sin_theta source dmin <=? 1)%float && (-1 <=? sin_theta source dmin)%float.

(** The quantities [cq] of [r_limits(p, q)]. *)
Definition cq_of (m : ReekeModel) (p : float) : list float :=
  [p * cp m 10; p * p * cp m 12; p * cp m 14; p * cp m 19; p * cp m 20]%float.

(** The interval [x] lies within the closed-open interval that the
    resolution range [res] gives. *)
Definition within (res x : vec2 Z) : Prop := res.1 <= x.1 /\ x.2 <= res.2 + 1.

(** *** The nested loops of [next_pqr] *)

(** The values [lo, lo + 1, ..., hi - 1] a loop [for (; x[0] < x[1]; ++x[0])]
    goes through from [x = (lo, hi)]. *)
Definition zrange (lo hi : Z) : list Z :=
  map (fun k : nat => lo + Z.of_nat k) (seq 0 (Z.to_nat (hi - lo))).

Definition nonzero (h : miller_index) : bool := negb (is_zero h).

Section nested_loops.

Variable solve_quad : float -> float -> float -> list float.
Variable m : ReekeModel.

(** The triples the loops of [next_pqr] return, as the nested loops list
    them: for [r] in one interval, for the intervals of [r_limits(p, q)] in
    turn, for [q] in [q_limits(p)], and for [p] in [p_limits()]; the triple
    (0,0,0) is passed over. *)
Definition r_interval_indices (p q : Z) (x : vec2 Z) : list miller_index :=
  List.filter nonzero (map (fun r : Z => Vec3 p q r) (zrange x.1 x.2)).

Definition r_indices (p q : Z) (rl : list (vec2 Z)) : list miller_index :=
  flat_map (r_interval_indices p q) rl.

Definition q_indices (p q : Z) : list miller_index :=
  r_indices p q (r_limits solve_quad m (int_to_double p) (int_to_double q)).

Definition p_indices (p : Z) : list miller_index :=
  flat_map (q_indices p)
    (zrange (q_limits solve_quad m p).1 (q_limits solve_quad m p).2).

Definition pqr_indices : list miller_index :=
  flat_map p_indices (zrange (p_limits m).1 (p_limits m).2).

(** What is left of each loop at given values of the statics: the r loops
    from the interval [r[ridx]] on, the q loop from [q[0]] on, the p loop
    from [p[0]] on. *)
Definition at_r (s : statics.t) : list miller_index :=
  r_indices (statics.p s).1 (statics.q s).1 (drop (statics.ridx s) (statics.r s)).

Definition at_q (s : statics.t) : list miller_index :=
  flat_map (q_indices (statics.p s).1) (zrange (statics.q s).1 (statics.q s).2).

Definition at_p (s : statics.t) : list miller_index :=
  flat_map p_indices (zrange (statics.p s).1 (statics.p s).2).

(** What is left of the traversal after the triple that was returned with
    the statics [s]: each loop after its pending increment. *)
Definition rest (s : statics.t) : list miller_index :=
  at_r (incr_r s) ++ at_q (incr_q s) ++ at_p (incr_p s).

End nested_loops.

(** The triples that calls of [next_pqr()] on [g] have yet to return before
    the next (0,0,0): all of them when [state = enter], otherwise what is
    left after the last one returned. *)
Definition pending (solve_quad : float -> float -> float -> list float)
    (g : ReekeIndexGenerator) (s : statics.t) : list miller_index :=
  match statics.state s with
  | statics.enter => pqr_indices solve_quad (model_ g)
  | statics.yield => rest solve_quad (model_ g) s
  end.

(** The indices of a whole traversal by [g]. *)
Definition traversal (solve_quad : float -> float -> float -> list float)
    (g : ReekeIndexGenerator) : list miller_index :=
  map (mat3_mul_index (permutation (model_ g)))
    (pqr_indices solve_quad (model_ g)).

(** The order of the nested loops on triples: by p, then q, then r. *)
Definition pqr_lt (a b : miller_index) : Prop :=
  v3_0 a < v3_0 b
  \/ (v3_0 a = v3_0 b
      /\ (v3_1 a < v3_1 b \/ (v3_1 a = v3_1 b /\ v3_2 a < v3_2 b))).

(** [r] lies in one of the intervals [rl]. *)
Definition in_intervals (rl : list (vec2 Z)) (r : Z) : Prop :=
  exists x : vec2 Z, In x rl /\ x.1 <= r < x.2.

(** The triple (p, q, r) is within the limits of the model. *)
Definition within_limits (solve_quad : float -> float -> float -> list float)
    (m : ReekeModel) (h : miller_index) : Prop :=
  (p_limits m).1 <= v3_0 h < (p_limits m).2
  /\ (q_limits solve_quad m (v3_0 h)).1 <= v3_1 h
     < (q_limits solve_quad m (v3_0 h)).2
  /\ in_intervals
       (r_limits solve_quad m (int_to_double (v3_0 h)) (int_to_double (v3_1 h)))
       (v3_2 h).

(** *** Tables and rows *)

(** The assertions at the start of the scan-static
    [for_hkl_with_individual_ub]. *)
Definition for_hkl_assertions (P : ScanStatic.ScanStaticReflectionPredictor)
    (h : list miller_index) (e : list bool) (pn : list nat)
    (ub : list (mat3 float)) : Prop :=
  length ub = length h /\ length ub = length pn /\ length ub = length e
  /\ (0 <? (get_oscillation (ScanStatic.scan_ P)).2)%float = true.

(** The table [p] with the rows [ws] added in order, and the table that
    consists of the rows [ws]. *)
Definition add_rows (p : prediction_data) (ws : list row) : prediction_data :=
  fold_left add_row ws p.

Definition table_of_rows (ws : list row) : prediction_data :=
  add_rows empty_table ws.

(** The rows of [p] followed by the rows of [q], and the tables [ts] joined
    in order. *)
Definition table_app (p q : prediction_data) : prediction_data :=
  {| hkl := hkl p ++ hkl q; panel := panel p ++ panel q;
     enter := enter p ++ enter q; pd_s1 := pd_s1 p ++ pd_s1 q;
     xyz_px := xyz_px p ++ xyz_px q; xyz_mm := xyz_mm p ++ xyz_mm q;
     flags := flags p ++ flags q |}.

Definition join_tables (ts : list prediction_data) : prediction_data :=
  fold_left table_app ts empty_table.

(** The row of a ray of [h] that hits panel [panel_] at [mm], with the
    given z coordinates; none when the detector has no such panel. *)
Definition predicted_row (Predicted : Z) (d : Detector) (h : miller_index)
    (ray : Ray) (panel_ : nat) (mm : vec2 float) (z_mm z_px : float)
  : list row :=
  match panels d !! panel_ with
  | Some pn =>
      let px := millimeter_to_pixel pn mm in
      [{| row_hkl := h; row_panel := panel_; row_enter := entering ray;
          row_s1 := s1 ray; row_xyz_px := Vec3 px.1 px.2 z_px;
          row_xyz_mm := Vec3 mm.1 mm.2 z_mm; row_flags := Predicted |}]
  | None => []
  end.

(** A row that records a ray of the index [h] which hits the detector: it
    carries the index, the ray's flag and [s1], the panel and the position
    of the impact in millimetres and in pixels, and the flag [Predicted]. *)
Definition row_of_ray (Predicted : Z) (d : Detector) (h : miller_index)
    (ray : Ray) (w : row) : Prop :=
  exists (mm : vec2 float) (pn : Panel),
    detector_get_ray_intersection d (s1 ray) = Some (row_panel w, mm)
    /\ panels d !! row_panel w = Some pn
    /\ row_hkl w = h /\ row_enter w = entering ray /\ row_s1 w = s1 ray
    /\ v3_0 (row_xyz_mm w) = mm.1 /\ v3_1 (row_xyz_mm w) = mm.2
    /\ v3_0 (row_xyz_px w) = (millimeter_to_pixel pn mm).1
    /\ v3_1 (row_xyz_px w) = (millimeter_to_pixel pn mm).2
    /\ row_flags w = Predicted.

(** The rows the scan-static [append_for_index(p, ub, h)] adds for one
    ray. *)
Definition static_ray_rows (Predicted : Z)
    (P : ScanStatic.ScanStaticReflectionPredictor)
    (is_angle_in_range : vec2 float -> float -> bool)
    (get_oscillation_range : Scan -> vec2 float)
    (get_array_indices_with_angle : Scan -> float -> list (vec2 float))
    (h : miller_index) (ray : Ray) : list row :=
  if is_angle_in_range (get_oscillation_range (ScanStatic.scan_ P)) (angle ray)
  then
    match detector_get_ray_intersection (ScanStatic.detector_ P) (s1 ray) with
    | Some (panel_, mm) =>
        flat_map
          (fun frame : vec2 float =>
             predicted_row Predicted (ScanStatic.detector_ P) h ray panel_ mm
               frame.1 frame.2)
          (get_array_indices_with_angle (ScanStatic.scan_ P) (angle ray))
    | None => []
    end
  else [].

Section scan_varying_rows.

Variable Predicted : Z.
Variable space_group_type : Type.
Variable axis_and_angle_as_matrix : vec3 float -> float -> mat3 float.
Variable reeke_indices :
  list (ScanVarying.ctor_arg space_group_type) -> option (list miller_index).
Variable P : ScanVarying.ScanVaryingReflectionPredictor space_group_type.

(** The rows the scan-varying [append_for_ray] adds for a ray: one, at the
    ray's angle and array index, when the ray hits the detector. *)
Definition varying_ray_rows (h : miller_index) (ray : Ray) : list row :=
  match detector_get_ray_intersection (ScanVarying.detector_ P) (s1 ray) with
  | Some (panel_, mm) =>
      predicted_row Predicted (ScanVarying.detector_ P) h ray panel_ mm
        (angle ray)
        (get_array_index_from_angle (ScanVarying.scan_ P) (angle ray))
  | None => []
  end.

(** The rows the scan-varying [append_for_index] adds for an index. *)
Definition varying_index_rows (A1 A2 : mat3 float) (frame : Z)
    (h : miller_index) : list row :=
  match ScanVarying.predict_rays_ P h A1 A2 frame 1 with
  | Some ray => varying_ray_rows h ray
  | None => []
  end.

End scan_varying_rows.

Arguments varying_ray_rows _ {_} _ _ _.
Arguments varying_index_rows _ {_} _ _ _ _ _.
Section scan_varying_cursors.

Variable Predicted : Z.
Variable space_group_type : Type.
Variable axis_and_angle_as_matrix : vec3 float -> float -> mat3 float.
Variable reeke_to_array :
  list (ScanVarying.ctor_arg space_group_type) -> statics.t ->
  option (list miller_index * statics.t).
Variable P : ScanVarying.ScanVaryingReflectionPredictor space_group_type.

(** The calls [for_ub_on_single_image(f, A[f - offset], A[f - offset + 1])]
    made one after the other for the frames [fs], the first when the
    cursors hold [s]: they return the tables [ts], and the last one leaves
    the cursors [s']. *)
Fixpoint single_images (A : list (mat3 float)) (fs : list Z) (s : statics.t)
    (ts : list prediction_data) (s' : statics.t) : Prop :=
  match fs, ts with
  | [], [] => s' = s
  | f :: fs, t :: ts =>
      let offset := (get_array_range (ScanVarying.scan_ P)).1 in
      exists (A1 A2 : mat3 float) (s1 : statics.t),
        A !! Z.to_nat (f - offset) = Some A1
        /\ A !! Z.to_nat (f - offset + 1) = Some A2
        /\ ScanVarying.for_ub_on_single_image_s Predicted
             axis_and_angle_as_matrix reeke_to_array P s f A1 A2 = inr (t, s1)
        /\ single_images A fs s1 ts s'
  | _, _ => False
  end.

(** A generator that, called when [state = enter], returns indices that
    depend on its arguments only and leaves [state = enter]; [to_array()]
    of the class [ReekeIndexGenerator] is one. *)
Definition restarts_from_enter : Prop :=
  forall (args : list (ScanVarying.ctor_arg space_group_type))
         (s1 s2 : statics.t),
    statics.state s1 = statics.enter -> statics.state s2 = statics.enter ->
    option_map fst (reeke_to_array args s1) = option_map fst (reeke_to_array args s2)
    /\ forall (l : list miller_index) (s' : statics.t),
         reeke_to_array args s1 = Some (l, s') ->
         statics.state s' = statics.enter.

(** The indices a generator returns when it is called with
    [state = enter], as a function of its arguments. *)
Definition indices_from_enter
    (args : list (ScanVarying.ctor_arg space_group_type))
  : option (list miller_index) :=
  option_map fst (reeke_to_array args statics.initial).

(** [t] is the table that [for_ub_on_single_image(f, A[f - offset],
    A[f - offset + 1])] returns whenever it is called with [state = enter],
    and the call leaves [state = enter]. *)
Definition image_from_enter (A : list (mat3 float)) (f : Z)
    (t : prediction_data) : Prop :=
  let offset := (get_array_range (ScanVarying.scan_ P)).1 in
  exists A1 A2 : mat3 float,
    A !! Z.to_nat (f - offset) = Some A1
    /\ A !! Z.to_nat (f - offset + 1) = Some A2
    /\ forall s : statics.t,
         statics.state s = statics.enter ->
         exists s' : statics.t,
           ScanVarying.for_ub_on_single_image_s Predicted
             axis_and_angle_as_matrix reeke_to_array P s f A1 A2 = inr (t, s')
           /\ statics.state s' = statics.enter.

End scan_varying_cursors.

Arguments single_images _ {_} _ _ _ _ _ _ _ _.
Arguments restarts_from_enter {_} _.
Arguments indices_from_enter {_} _ _.
Arguments image_from_enter _ {_} _ _ _ _ _ _.

(** A stills table with one more row, and with the rows [ws] added. *)
Definition stills_add_row (p : stills_prediction_data) (w : row * float)
  : stills_prediction_data :=
  {| columns := add_row (columns p) w.1; delpsi := delpsi p ++ [w.2] |}.

Definition stills_add_rows (p : stills_prediction_data)
    (ws : list (row * float)) : stills_prediction_data :=
  fold_left stills_add_row ws p.

Section stills_rows.

Variable Predicted : Z.
Variables unit_cell space_group_type : Type.
Variable P : Stills.StillsReflectionPredictor unit_cell space_group_type.

(** The row, with its delpsi, that the stills [append_for_index] adds for
    [(ub, h, panel)], if the ray hits. *)
Definition stills_request_row (ub : mat3 float) (h : miller_index) (panel_ : Z)
  : option (row * float) :=
  let '(ray, delpsi_) := Stills.predict_ray_ P h ub in
  match Stills.get_ray_intersection P (s1 ray) panel_ with
  | Some (panel_, mm) =>
      match panels (Stills.detector_ P) !! panel_ with
      | Some pn =>
          let px := millimeter_to_pixel pn mm in
          Some ({| row_hkl := h; row_panel := panel_; row_enter := entering ray;
                   row_s1 := s1 ray; row_xyz_px := Vec3 px.1 px.2 0%float;
                   row_xyz_mm := Vec3 mm.1 mm.2 0%float;
                   row_flags := Predicted |}, delpsi_)
      | None => None
      end
  | None => None
  end.

(** Request [i] of [(h, panel, ub)] gives a row. *)
Definition stills_request_hits (h : list miller_index) (pn : list nat)
    (ub : list (mat3 float)) (i : nat) : Prop :=
  exists (hi : miller_index) (pi : nat) (ubi : mat3 float) (w : row * float),
    h !! i = Some hi /\ pn !! i = Some pi /\ ub !! i = Some ubi
    /\ stills_request_row ubi hi (size_t_to_int pi) = Some w.

(** The row of request [j], if it gives one, and the rows of the requests
    [i, i + 1, ..., i + n - 1]. *)
Definition stills_rows_at (h : list miller_index) (pn : list nat)
    (ub : list (mat3 float)) (j : nat) : list (row * float) :=
  match ub !! j, h !! j, pn !! j with
  | Some ubj, Some hj, Some pj =>
      option_list (stills_request_row ubj hj (size_t_to_int pj))
  | _, _, _ => []
  end.

Definition stills_rows_from (h : list miller_index) (pn : list nat)
    (ub : list (mat3 float)) (i n : nat) : list (row * float) :=
  flat_map (stills_rows_at h pn ub) (seq i n).

(** The rows the stills [for_ub] adds for one index. *)
Definition stills_for_ub_rows (ub : mat3 float) (h : miller_index)
  : list (row * float) :=
  if (PrimFloat.abs (Stills.predict_ray_ P h ub).2 <? 0x1.0624dd2f1a9fcp-10)%float
  then option_list (stills_request_row ub h (-1))
  else [].

End stills_rows.

Arguments stills_request_row _ {_ _} _ _ _ _.
Arguments stills_request_hits _ {_ _} _ _ _ _ _.
Arguments stills_rows_at _ {_ _} _ _ _ _ _.
Arguments stills_rows_from _ {_ _} _ _ _ _ _ _.
Arguments stills_for_ub_rows _ {_ _} _ _ _.

(** ** Further inputs for the examples *)

(** A scan of two images that does not turn, and the scan-varying
    predictor of the examples on it. *)
Definition two_image_scan : Scan :=
  {| get_oscillation := (0, 0)%float;
     get_num_images := 2;
     get_array_range := (0, 2);
     get_angle_from_array_index := fun _ => 0%float;
     get_array_index_from_angle := fun _ => 0%float |}.

Definition two_image_predictor
  : ScanVarying.ScanVaryingReflectionPredictor nat :=
  {| ScanVarying.beam_ := ScanVarying.beam_ example_varying_predictor;
     ScanVarying.detector_ := ScanVarying.detector_ example_varying_predictor;
     ScanVarying.goniometer_ := ScanVarying.goniometer_ example_varying_predictor;
     ScanVarying.scan_ := two_image_scan;
     ScanVarying.space_group_type_ :=
       ScanVarying.space_group_type_ example_varying_predictor;
     ScanVarying.dmin_ := ScanVarying.dmin_ example_varying_predictor;
     ScanVarying.margin_ := ScanVarying.margin_ example_varying_predictor;
     ScanVarying.predict_rays_ :=
       ScanVarying.predict_rays_ example_varying_predictor |}.

(** The arguments the embedded constructor takes, out of the seven of the
    call. *)
Definition embedded_arguments (args : list (ScanVarying.ctor_arg nat))
  : option (mat3 float * mat3 float * vec3 float * vec3 float * float * Z) :=
  match args with
  | [ScanVarying.arg_mat3 A1; ScanVarying.arg_mat3 A2;
     ScanVarying.arg_space_group_type _; ScanVarying.arg_vec3 m2;
     ScanVarying.arg_vec3 s0; ScanVarying.arg_double dmin;
     ScanVarying.arg_size_t margin] => Some (A1, A2, m2, s0, dmin, margin)
  | _ => None
  end.

(** The generator of the embedded class with its cursors: [to_array()] runs
    until [next()] returns (0,0,0), which it does within one call more than
    the traversal has indices. *)
Definition example_reeke_to_array (args : list (ScanVarying.ctor_arg nat))
    (s : statics.t) : option (list miller_index * statics.t) :=
  match embedded_arguments args with
  | Some (A1, A2, m2, s0, dmin, margin) =>
      match ReekeIndexGenerator_ctor libm_sin libm_asin A1 A2 m2 s0 dmin margin with
      | Some g =>
          Some (to_array spec_solve_quad g
                  (S (length (traversal spec_solve_quad g))) s)
      | None => None
      end
  | None => None
  end.

(** * Properties *)

(** [take o g]: name [g] the value of the closed option [o], with its
    equation, by evaluation. *)
Ltac take o g :=
  let E := fresh "E" in
  destruct o as [g|] eqn:E;
  [vm_compute in E; injection E as E; symmetry in E
  |vm_compute in E; discriminate E].

(** ** Comparison of doubles *)

Ltac sf_compare :=
  repeat match goal with
         | H : context [Pos.compare_cont Eq ?a ?b] |- _ =>
             change (Pos.compare_cont Eq a b) with (Pos.compare a b) in H
         | |- context [Pos.compare_cont Eq ?a ?b] =>
             change (Pos.compare_cont Eq a b) with (Pos.compare a b)
         | H : context [Z.compare ?a ?b] |- _ =>
             destruct (Z.compare_spec a b)
         | H : context [Pos.compare ?a ?b] |- _ =>
             destruct (Pos.compare_spec a b)
         | |- context [Z.compare ?a ?b] => destruct (Z.compare_spec a b)
         | |- context [Pos.compare ?a ?b] => destruct (Pos.compare_spec a b)
         end.

Lemma SFltb_asym (x y : SpecFloat.spec_float) :
  SpecFloat.SFltb x y = true -> SpecFloat.SFltb y x = false.
Proof.
  unfold SpecFloat.SFltb, SpecFloat.SFcompare.
  destruct x as [[]|[]| |[] m1 e1], y as [[]|[]| |[] m2 e2];
    try (intros; reflexivity); try discriminate;
    intros H; sf_compare; cbn in *; try reflexivity; try discriminate; lia.
Qed.

Lemma SFltb_trans (x y z : SpecFloat.spec_float) :
  SpecFloat.SFltb x y = true -> SpecFloat.SFltb y z = true ->
  SpecFloat.SFltb x z = true.
Proof.
  unfold SpecFloat.SFltb, SpecFloat.SFcompare.
  destruct x as [[]|[]| |[] m1 e1], y as [[]|[]| |[] m2 e2],
           z as [[]|[]| |[] m3 e3];
    try (intros; reflexivity); try discriminate;
    intros H1 H2; sf_compare; cbn in *; try reflexivity; try discriminate; lia.
Qed.

Lemma ltb_asym (x y : float) : (x <? y)%float = true -> (y <? x)%float = false.
Proof. rewrite !ltb_spec. apply SFltb_asym. Qed.

Lemma ltb_trans (x y z : float) :
  (x <? y)%float = true -> (y <? z)%float = true -> (x <? z)%float = true.
Proof. rewrite !ltb_spec. apply SFltb_trans. Qed.

Lemma ltb_irrefl (x : float) : (x <? x)%float = false.
Proof.
  destruct (x <? x)%float eqn:E; [|reflexivity].
  rewrite (ltb_asym _ _ E) in E. discriminate.
Qed.

(** Two finite doubles neither of which is below the other denote the same
    number. *)
Lemma SF_same_value (x y : SpecFloat.spec_float) :
  SpecFloat.SFltb x y = false -> SpecFloat.SFltb y x = false ->
  match x, y with
  | S754_zero _, S754_zero _ => True
  | S754_finite s1 m1 e1, S754_finite s2 m2 e2 => s1 = s2 /\ m1 = m2 /\ e1 = e2
  | S754_zero _, S754_finite _ _ _ | S754_finite _ _ _, S754_zero _ => False
  | _, _ => True
  end.
Proof.
  unfold SpecFloat.SFltb, SpecFloat.SFcompare.
  destruct x as [[]|[]| |[] m1 e1], y as [[]|[]| |[] m2 e2];
    try (intros; exact I); try discriminate;
    intros H1 H2; sf_compare; cbn in *; try discriminate; subst; auto.
  all: lia.
Qed.

Lemma same_value_scaled (x y : float) (a b : Z * Z) :
  double_scaled x = Some a -> double_scaled y = Some b ->
  (x <? y)%float = false -> (y <? x)%float = false -> a = b.
Proof.
  rewrite !ltb_spec. unfold double_scaled. intros Hx Hy H1 H2.
  pose proof (SF_same_value _ _ H1 H2) as H.
  destruct (Prim2SF x) as [| | |s1 m1 e1], (Prim2SF y) as [| | |s2 m2 e2];
    try discriminate; try contradiction.
  - congruence.
  - destruct H as (-> & -> & ->). congruence.
Qed.

(** The comparison of finite doubles reads the number only. *)
Lemma SFltb_scaled_l (x x' y : SpecFloat.spec_float) :
  match x, x' with
  | S754_zero _, S754_zero _ => True
  | S754_finite s1 m1 e1, S754_finite s2 m2 e2 => s1 = s2 /\ m1 = m2 /\ e1 = e2
  | _, _ => False
  end ->
  SpecFloat.SFltb x y = SpecFloat.SFltb x' y
  /\ SpecFloat.SFltb y x = SpecFloat.SFltb y x'.
Proof.
  destruct x as [[]|[]| |[] m1 e1], x' as [[]|[]| |[] m2 e2]; try contradiction;
    try (intros (? & ? & ?); subst; try discriminate; split; reflexivity);
    intros _; destruct y as [[]|[]| |[] ? ?]; split; reflexivity.
Qed.

Lemma ltb_scaled (x x' y : float) (a : Z * Z) :
  double_scaled x = Some a -> double_scaled x' = Some a ->
  (x <? y)%float = (x' <? y)%float /\ (y <? x)%float = (y <? x')%float.
Proof.
  rewrite !ltb_spec. unfold double_scaled. intros Hx Hx'.
  apply SFltb_scaled_l.
  destruct (Prim2SF x) as [| | |s1 m1 e1], (Prim2SF x') as [| | |s2 m2 e2];
    try discriminate; try exact I.
  - destruct s2; congruence.
  - destruct s1; congruence.
  - destruct s1, s2; try congruence; repeat split; congruence.
Qed.

Lemma fits_int_finite (margin : Z) (x : float) :
  fits_int margin x = true -> is_finite x = true.
Proof.
  unfold fits_int. intros H. repeat (apply andb_prop in H; destruct H as [H _]).
  exact H.
Qed.

Lemma is_finite_scaled (x : float) :
  is_finite x = true -> exists a : Z * Z, double_scaled x = Some a.
Proof. unfold is_finite. destruct (double_scaled x); [eauto|discriminate]. Qed.

Lemma same_number_to_int (x y : float) :
  same_number x y -> double_to_int x = double_to_int y.
Proof. intros (a & Hx & Hy). unfold double_to_int. rewrite Hx, Hy. reflexivity. Qed.

Lemma same_number_ltb (x x' y y' : float) :
  same_number x x' -> same_number y y' -> (x <? y)%float = (x' <? y')%float.
Proof.
  intros (a & Hx & Hx') (b & Hy & Hy').
  rewrite (proj1 (ltb_scaled x x' y a Hx Hx')).
  exact (proj2 (ltb_scaled y y' x' b Hy Hy')).
Qed.

Lemma same_number_trans (x y z : float) :
  same_number x y -> same_number y z -> same_number x z.
Proof. intros (a & Hx & Hy) (b & Hy' & Hz). exists a. split; congruence. Qed.

Lemma same_number_finite (x y : float) : same_number x y -> is_finite y = true.
Proof. intros (a & _ & Hy). unfold is_finite. rewrite Hy. reflexivity. Qed.

(** Among finite doubles the least and the greatest element of a list are
    determined as numbers. *)
Lemma least_of_unique (l : list float) (x y : float) :
  Forall (fun z => is_finite z = true) l ->
  least_of l x -> least_of l y -> same_number x y.
Proof.
  intros Hl [Hx Ax] [Hy Ay]. rewrite List.Forall_forall in Hl, Ax, Ay.
  destruct (is_finite_scaled x (Hl x Hx)) as [a Ea].
  destruct (is_finite_scaled y (Hl y Hy)) as [b Eb].
  exists a. split; [exact Ea|].
  rewrite (same_value_scaled x y a b Ea Eb (Ay x Hx) (Ax y Hy)). exact Eb.
Qed.

Lemma greatest_of_unique (l : list float) (x y : float) :
  Forall (fun z => is_finite z = true) l ->
  greatest_of l x -> greatest_of l y -> same_number x y.
Proof.
  intros Hl [Hx Ax] [Hy Ay]. rewrite List.Forall_forall in Hl, Ax, Ay.
  destruct (is_finite_scaled x (Hl x Hx)) as [a Ea].
  destruct (is_finite_scaled y (Hl y Hy)) as [b Eb].
  exists a. split; [exact Ea|].
  rewrite (same_value_scaled x y a b Ea Eb (Ax y Hy) (Ay x Hx)). exact Eb.
Qed.

(** The scans of [af::min] and [af::max] end on an element that none is
    below, or above. *)
Lemma af_min_scan (l seen : list float) (res : float) :
  In res seen -> Forall (fun y => (y <? res)%float = false) seen ->
  least_of (seen ++ l)
    (fold_left (fun res y => if (y <? res)%float then y else res) l res).
Proof.
  revert seen res. induction l as [|y l IH]; intros seen res Hin Hall.
  - rewrite app_nil_r. split; assumption.
  - cbn [fold_left]. replace (seen ++ y :: l) with ((seen ++ [y]) ++ l)
      by (rewrite <- app_assoc; reflexivity).
    destruct (y <? res)%float eqn:E; apply IH.
    + apply in_or_app. right. left. reflexivity.
    + apply Forall_app. split.
      * eapply List.Forall_impl; [|exact Hall]. cbn. intros z Hz.
        destruct (z <? y)%float eqn:Ez; [|reflexivity].
        rewrite (ltb_trans _ _ _ Ez E) in Hz. discriminate.
      * constructor; [apply ltb_irrefl|constructor].
    + apply in_or_app. left. exact Hin.
    + apply Forall_app. split; [exact Hall|]. constructor; [exact E|constructor].
Qed.

Lemma af_max_scan (l seen : list float) (res : float) :
  In res seen -> Forall (fun y => (res <? y)%float = false) seen ->
  greatest_of (seen ++ l)
    (fold_left (fun res y => if (res <? y)%float then y else res) l res).
Proof.
  revert seen res. induction l as [|y l IH]; intros seen res Hin Hall.
  - rewrite app_nil_r. split; assumption.
  - cbn [fold_left]. replace (seen ++ y :: l) with ((seen ++ [y]) ++ l)
      by (rewrite <- app_assoc; reflexivity).
    destruct (res <? y)%float eqn:E; apply IH.
    + apply in_or_app. right. left. reflexivity.
    + apply Forall_app. split.
      * eapply List.Forall_impl; [|exact Hall]. cbn. intros z Hz.
        destruct (y <? z)%float eqn:Ez; [|reflexivity].
        rewrite (ltb_trans _ _ _ E Ez) in Hz. discriminate.
      * constructor; [apply ltb_irrefl|constructor].
    + apply in_or_app. left. exact Hin.
    + apply Forall_app. split; [exact Hall|]. constructor; [exact E|constructor].
Qed.

Lemma af_min_least (l : list float) : l <> [] -> least_of l (af_min l).
Proof.
  destruct l as [|x l]; [contradiction|]. intros _.
  apply (af_min_scan l [x] x); [left; reflexivity|].
  constructor; [apply ltb_irrefl|constructor].
Qed.

Lemma af_max_greatest (l : list float) : l <> [] -> greatest_of l (af_max l).
Proof.
  destruct l as [|x l]; [contradiction|]. intros _.
  apply (af_max_scan l [x] x); [left; reflexivity|].
  constructor; [apply ltb_irrefl|constructor].
Qed.

Lemma std_min_least (a b : float) : least_of [a; b] (std_min a b).
Proof.
  unfold std_min, least_of. destruct (b <? a)%float eqn:E.
  - split; [right; left; reflexivity|].
    constructor; [apply ltb_asym, E|constructor; [apply ltb_irrefl|constructor]].
  - split; [left; reflexivity|].
    constructor; [apply ltb_irrefl|constructor; [exact E|constructor]].
Qed.

Lemma std_max_greatest (a b : float) : greatest_of [a; b] (std_max a b).
Proof.
  unfold std_max, greatest_of. destruct (a <? b)%float eqn:E.
  - split; [right; left; reflexivity|].
    constructor; [apply ltb_asym, E|constructor; [apply ltb_irrefl|constructor]].
  - split; [left; reflexivity|].
    constructor; [apply ltb_irrefl|constructor; [exact E|constructor]].
Qed.

(** Lists that hold the same numbers have the same least and greatest
    numbers. *)
Lemma least_of_same_numbers (xs cs : list float) (lo : float) :
  Forall2 same_number xs cs -> least_of xs lo ->
  exists lo' : float, least_of cs lo' /\ same_number lo lo'.
Proof.
  intros H [Hin Hall]. apply list_elem_of_In, list_elem_of_lookup in Hin.
  destruct Hin as [i Hi].
  destruct (Forall2_lookup_l _ _ _ _ _ H Hi) as (lo' & Hi' & S).
  exists lo'. split; [|exact S]. split.
  - apply list_elem_of_In, list_elem_of_lookup. eauto.
  - apply List.Forall_forall. intros c Hc.
    apply list_elem_of_In, list_elem_of_lookup in Hc. destruct Hc as [j Hj].
    destruct (Forall2_lookup_r _ _ _ _ _ H Hj) as (x & Hx & Sx).
    rewrite <- (same_number_ltb x c lo lo' Sx S).
    rewrite List.Forall_forall in Hall. apply Hall.
    apply list_elem_of_In, list_elem_of_lookup. eauto.
Qed.

Lemma greatest_of_same_numbers (xs cs : list float) (hi : float) :
  Forall2 same_number xs cs -> greatest_of xs hi ->
  exists hi' : float, greatest_of cs hi' /\ same_number hi hi'.
Proof.
  intros H [Hin Hall]. apply list_elem_of_In, list_elem_of_lookup in Hin.
  destruct Hin as [i Hi].
  destruct (Forall2_lookup_l _ _ _ _ _ H Hi) as (hi' & Hi' & S).
  exists hi'. split; [|exact S]. split.
  - apply list_elem_of_In, list_elem_of_lookup. eauto.
  - apply List.Forall_forall. intros c Hc.
    apply list_elem_of_In, list_elem_of_lookup in Hc. destruct Hc as [j Hj].
    destruct (Forall2_lookup_r _ _ _ _ _ H Hj) as (x & Hx & Sx).
    rewrite <- (same_number_ltb hi hi' x c S Sx).
    rewrite List.Forall_forall in Hall. apply Hall.
    apply list_elem_of_In, list_elem_of_lookup. eauto.
Qed.

(** ** The loops of [next_pqr] *)

Section loop_facts.

Variable solve_quad : float -> float -> float -> list float.
Variable g : ReekeIndexGenerator.

Import statics.

Lemma incr_r_lookup (s : statics.t) (lo hi : Z) :
  r s !! ridx s = Some (lo, hi) ->
  r (incr_r s) !! ridx (incr_r s) = Some (lo + 1, hi).
Proof.
  intros H. unfold incr_r. rewrite H. cbn.
  apply list_lookup_insert_eq. eapply lookup_lt_Some, H.
Qed.

Lemma incr_r_frame (s : statics.t) :
  p (incr_r s) = p s /\ q (incr_r s) = q s /\ ridx (incr_r s) = ridx s
  /\ state (incr_r s) = state s /\ length (r (incr_r s)) = length (r s).
Proof.
  unfold incr_r. destruct (r s !! ridx s) as [[lo hi]|]; cbn;
    rewrite ?length_insert; auto.
Qed.

(** What the innermost loop leaves alone, and what it returns. *)
Lemma r_loop_frame (n : nat) (s s' : statics.t) (o : option miller_index) :
  r_loop n s = (o, s') ->
  p s' = p s /\ q s' = q s /\ ridx s' = ridx s /\ state s' = state s
  /\ length (r s') = length (r s).
Proof.
  revert s. induction n as [|n IH]; intros s; cbn.
  - intros [= <- <-]. auto.
  - destruct (r s !! ridx s) as [[lo hi]|] eqn:E; [|intros [= <- <-]; auto].
    destruct (lo <? hi); [|intros [= <- <-]; auto].
    destruct (negb _); [intros [= <- <-]; auto|].
    intros Hrec. apply IH in Hrec. destruct (incr_r_frame s) as (?&?&?&?&?).
    destruct Hrec as (?&?&?&?&?). repeat split; congruence.
Qed.

Lemma r_loop_some (n : nat) (s s' : statics.t) (h : miller_index) :
  r_loop n s = (Some h, s') -> is_zero h = false.
Proof.
  revert s. induction n as [|n IH]; intros s; cbn; [discriminate|].
  destruct (r s !! ridx s) as [[lo hi]|]; [|discriminate].
  destruct (lo <? hi); [|discriminate].
  destruct (negb _) eqn:Z.
  - intros [= <- <-]. apply negb_true_iff, Z.
  - apply IH.
Qed.

(** The bound [r_turns] is enough: the loop ends without an index only
    when its condition [r[ridx][0] < r[ridx][1]] is false. *)
Lemma r_loop_exit (n : nat) (s s' : statics.t) :
  (r_turns s <= n)%nat ->
  r_loop n s = (None, s') ->
  match r s' !! ridx s' with Some x => x.2 <= x.1 | None => True end.
Proof.
  revert s. induction n as [|n IH]; intros s Hn; cbn.
  - intros [= <-]. unfold r_turns, turns in Hn.
    destruct (r s !! ridx s) as [x|]; [lia|exact I].
  - destruct (r s !! ridx s) as [[lo hi]|] eqn:E.
    + destruct (lo <? hi) eqn:C.
      * destruct (negb _); [discriminate|].
        apply IH. pose proof (incr_r_lookup _ _ _ E) as E'.
        unfold r_turns in *. rewrite E'. rewrite E in Hn.
        apply Z.ltb_lt in C. unfold turns in *. cbn in *. lia.
      * intros [= <-]. rewrite E. cbn. lia.
    + intros [= <-]. rewrite E. exact I.
Qed.

Lemma ridx_loop_frame (n : nat) (s s' : statics.t) (o : option miller_index) :
  ridx_loop n s = (o, s') ->
  p s' = p s /\ q s' = q s /\ state s' = state s.
Proof.
  revert s. induction n as [|n IH]; intros s; cbn [ridx_loop].
  - intros [= <- <-]. auto.
  - destruct (_ <? _)%nat; [|intros [= <- <-]; auto].
    destruct (r_loop _ s) as [[h|] s1] eqn:E; apply r_loop_frame in E;
      destruct E as (?&?&?&?&?).
    + intros [= <- <-]. auto.
    + intros Hrec. apply IH in Hrec. cbn in Hrec. destruct Hrec as (?&?&?).
      repeat split; congruence.
Qed.

Lemma ridx_loop_some (n : nat) (s s' : statics.t) (h : miller_index) :
  ridx_loop n s = (Some h, s') -> is_zero h = false.
Proof.
  revert s. induction n as [|n IH]; intros s; cbn [ridx_loop]; [discriminate|].
  destruct (_ <? _)%nat; [|discriminate].
  destruct (r_loop _ s) as [[h'|] s1] eqn:E.
  - intros [= <- <-]. eapply r_loop_some, E.
  - apply IH.
Qed.

Lemma ridx_loop_exit (n : nat) (s s' : statics.t) :
  (ridx_turns s <= n)%nat ->
  ridx_loop n s = (None, s') -> (length (r s') <= ridx s')%nat.
Proof.
  revert s. induction n as [|n IH]; intros s Hn; cbn [ridx_loop].
  - intros [= <-]. unfold ridx_turns in Hn. lia.
  - destruct (_ <? _)%nat eqn:C; [|intros [= <-]; apply Nat.ltb_ge in C; lia].
    destruct (r_loop _ s) as [[h'|] s1] eqn:E; [discriminate|].
    apply r_loop_frame in E. destruct E as (?&?&?&?&?).
    apply IH. unfold ridx_turns in *. cbn. lia.
Qed.

Lemma q_loop_frame (n : nat) (s s' : statics.t) (o : option miller_index) :
  q_loop solve_quad g n s = (o, s') -> p s' = p s /\ state s' = state s.
Proof.
  revert s. induction n as [|n IH]; intros s; cbn [q_loop].
  - intros [= <- <-]. auto.
  - destruct (_ <? _); [|intros [= <- <-]; auto].
    destruct (ridx_loop _ _) as [[h|] s1] eqn:E; apply ridx_loop_frame in E;
      cbn in E; destruct E as (?&?&?).
    + intros [= <- <-]. auto.
    + intros Hrec. apply IH in Hrec. cbn in Hrec. destruct Hrec as (?&?).
      split; congruence.
Qed.

Lemma q_loop_some (n : nat) (s s' : statics.t) (h : miller_index) :
  q_loop solve_quad g n s = (Some h, s') -> is_zero h = false.
Proof.
  revert s. induction n as [|n IH]; intros s; cbn [q_loop]; [discriminate|].
  destruct (_ <? _); [|discriminate].
  destruct (ridx_loop _ _) as [[h'|] s1] eqn:E.
  - intros [= <- <-]. eapply ridx_loop_some, E.
  - apply IH.
Qed.

Lemma q_loop_exit (n : nat) (s s' : statics.t) :
  (turns (q s) <= n)%nat ->
  q_loop solve_quad g n s = (None, s') -> (q s').2 <= (q s').1.
Proof.
  revert s. induction n as [|n IH]; intros s Hn; cbn [q_loop].
  - intros [= <-]. unfold turns in Hn. lia.
  - destruct (_ <? _) eqn:C; [|intros [= <-]; lia].
    destruct (ridx_loop _ _) as [[h'|] s1] eqn:E; [discriminate|].
    apply ridx_loop_frame in E. cbn in E. destruct E as (?&Hq&?).
    apply IH. unfold turns in *. cbn. rewrite Hq. cbn. lia.
Qed.

Lemma p_loop_frame (n : nat) (s s' : statics.t) (o : option miller_index) :
  p_loop solve_quad g n s = (o, s') -> state s' = state s.
Proof.
  revert s. induction n as [|n IH]; intros s; cbn [p_loop].
  - intros [= <- <-]. auto.
  - destruct (_ <? _); [|intros [= <- <-]; auto].
    destruct (q_loop _ _ _ _) as [[h|] s1] eqn:E; apply q_loop_frame in E;
      cbn in E; destruct E as (?&?).
    + intros [= <- <-]. auto.
    + intros Hrec. apply IH in Hrec. cbn in Hrec. congruence.
Qed.

Lemma p_loop_some (n : nat) (s s' : statics.t) (h : miller_index) :
  p_loop solve_quad g n s = (Some h, s') -> is_zero h = false.
Proof.
  revert s. induction n as [|n IH]; intros s; cbn [p_loop]; [discriminate|].
  destruct (_ <? _); [|discriminate].
  destruct (q_loop _ _ _ _) as [[h'|] s1] eqn:E.
  - intros [= <- <-]. eapply q_loop_some, E.
  - apply IH.
Qed.

Lemma p_loop_exit (n : nat) (s s' : statics.t) :
  (turns (p s) <= n)%nat ->
  p_loop solve_quad g n s = (None, s') -> (p s').2 <= (p s').1.
Proof.
  revert s. induction n as [|n IH]; intros s Hn; cbn [p_loop].
  - intros [= <-]. unfold turns in Hn. lia.
  - destruct (_ <? _) eqn:C; [|intros [= <-]; lia].
    destruct (q_loop _ _ _ _) as [[h'|] s1] eqn:E; [discriminate|].
    apply q_loop_frame in E. cbn in E. destruct E as (Hp&?).
    apply IH. unfold turns in *. cbn. rewrite Hp. cbn. lia.
Qed.

End loop_facts.

(** ** One call of [next_pqr] *)

Section call_facts.

Variable solve_quad : float -> float -> float -> list float.
Variable g : ReekeIndexGenerator.

Import statics.

Lemma resume_frame (s s' : statics.t) (o : option miller_index) :
  resume solve_quad g s = (o, s') -> state s' = state s.
Proof.
  unfold resume.
  destruct (incr_r_frame s) as (_&_&_&Hs&_).
  destruct (r_loop _ _) as [[h1|] s1] eqn:E1; apply r_loop_frame in E1;
    destruct E1 as (_&_&_&Hs1&_); [intros [= <- <-]; congruence|].
  destruct (ridx_loop _ _) as [[h2|] s2] eqn:E2; apply ridx_loop_frame in E2;
    cbn in E2; destruct E2 as (_&_&Hs2); [intros [= <- <-]; congruence|].
  destruct (q_loop _ _ _ _) as [[h3|] s3] eqn:E3; apply q_loop_frame in E3;
    cbn in E3; destruct E3 as (_&Hs3); [intros [= <- <-]; congruence|].
  intros E4. apply p_loop_frame in E4. cbn in E4. congruence.
Qed.

Lemma resume_some (s s' : statics.t) (h : miller_index) :
  resume solve_quad g s = (Some h, s') -> is_zero h = false.
Proof.
  unfold resume.
  destruct (r_loop _ _) as [[h1|] s1] eqn:E1;
    [intros [= <- <-]; eapply r_loop_some, E1|].
  destruct (ridx_loop _ _) as [[h2|] s2] eqn:E2;
    [intros [= <- <-]; eapply ridx_loop_some, E2|].
  destruct (q_loop _ _ _ _) as [[h3|] s3] eqn:E3;
    [intros [= <- <-]; eapply q_loop_some, E3|].
  apply p_loop_some.
Qed.

(** The switch returns only non-zero triples, with [state = yield]. *)
Lemma switch_state_some (s s' : statics.t) (h : miller_index) :
  switch_state solve_quad g s = (Some h, s') ->
  is_zero h = false /\ state s' = yield.
Proof.
  unfold switch_state. destruct (state s) eqn:St.
  - intros E. split; [eapply p_loop_some, E|].
    apply p_loop_frame in E. exact E.
  - intros E. split; [eapply resume_some, E|].
    apply resume_frame in E. congruence.
Qed.

(** Control leaves the switch only when the p loop has run out. *)
Lemma switch_state_none (s s' : statics.t) :
  switch_state solve_quad g s = (None, s') -> (p s').2 <= (p s').1.
Proof.
  unfold switch_state, resume. destruct (state s).
  - apply p_loop_exit. reflexivity.
  - destruct (r_loop _ _) as [[h1|] s1]; [discriminate|].
    destruct (ridx_loop _ _) as [[h2|] s2]; [discriminate|].
    destruct (q_loop _ _ _ _) as [[h3|] s3]; [discriminate|].
    apply p_loop_exit. reflexivity.
Qed.

(** [next_pqr] returns (0,0,0) exactly when control left the switch, and
    then [state] is [enter] again. *)
Lemma next_pqr_cases (s : statics.t) :
  match switch_state solve_quad g s with
  | (Some pqr, s') =>
      next_pqr solve_quad g s = (pqr, s') /\ is_zero pqr = false
      /\ state s' = yield
  | (None, s') =>
      next_pqr solve_quad g s = (zero_index, set_state s' enter)
  end.
Proof.
  unfold next_pqr.
  destruct (switch_state solve_quad g s) as [[pqr|] s'] eqn:E; [|reflexivity].
  apply switch_state_some in E. tauto.
Qed.

End call_facts.

(** ** The permutation *)

Lemma max_index_3 (a b c : float) : (max_index [a; b; c] < 3)%nat.
Proof.
  unfold max_index, max_index_from.
  repeat match goal with |- context [if ?c then _ else _] => destruct c end; lia.
Qed.

Lemma max_index_2 (a b : float) : (max_index [a; b] < 2)%nat.
Proof.
  unfold max_index, max_index_from.
  repeat match goal with |- context [if ?c then _ else _] => destruct c end; lia.
Qed.

Lemma permute_axes_permutation (ub : mat3 float) (axis source : vec3 float) :
  index_bijection (reeke_detail.index (reeke_detail.permute_axes ub axis source))
  /\ permutation_matrix
       (reeke_detail.permutation (reeke_detail.permute_axes ub axis source)).
Proof.
  unfold reeke_detail.permute_axes.
  match goal with |- context [v3_swap _ 0 (max_index [?a; ?b; ?c])] =>
    pose proof (max_index_3 a b c) as Hp;
    destruct (max_index [a; b; c]) as [|[|[|pi]]]; [| | |lia] end;
  match goal with |- context [(max_index [?a; ?b] + 1)%nat] =>
    pose proof (max_index_2 a b) as Hr;
    destruct (max_index [a; b]) as [|[|ri]]; [| |lia] end;
  cbn; unfold index_bijection, permutation_matrix; cbn;
  (split; [|tauto]).
  all: eauto using Permutation, perm_swap, perm_skip, Permutation_refl.
  all: try (eapply perm_trans; [apply perm_swap|]; eauto using Permutation).
  all: try (eapply perm_trans; [apply perm_skip, perm_swap|];
            eauto using Permutation).
  all: try (eapply perm_trans; [apply perm_skip, perm_swap|];
            eapply perm_trans; [apply perm_swap|]; eauto using Permutation).
Qed.

Lemma permutation_matrix_zero (m : mat3 Z) (v : miller_index) :
  permutation_matrix m ->
  is_zero (mat3_mul_index m v) = is_zero v.
Proof.
  destruct v as [a b c]. unfold permutation_matrix, mat3_mul_index, is_zero.
  intros [->|[->|[->|[->|[->| ->]]]]]; cbn [m_0 m_1 m_2 m_3 m_4 m_5 m_6 m_7 m_8 v3_0 v3_1 v3_2];
    repeat match goal with |- context [(?x =? 0)] =>
      lazymatch x with
      | Z0 => fail
      | _ => destruct (Z.eqb_spec x 0)
      end end; cbn; try reflexivity; lia.
Qed.

Lemma is_zero_spec (v : miller_index) : is_zero v = true <-> v = zero_index.
Proof.
  destruct v as [a b c]. unfold is_zero, zero_index. cbn.
  rewrite !andb_true_iff, !Z.eqb_eq. split.
  - intros [[-> ->] ->]. reflexivity.
  - intros [= -> -> ->]. auto.
Qed.

(** [compute_p_limits] writes only the five limits. *)
Lemma compute_p_limits_frame (c_sin c_asin : float -> float)
    (m m' : ReekeModel) (rlv_beg rlv_end : mat3 float) :
  compute_p_limits c_sin c_asin m rlv_beg rlv_end = Some m' ->
  permutation_ m' = permutation_ m /\ source_ m' = source_ m
  /\ cp_ m' = cp_ m /\ margin_ m' = margin_ m
  /\ dstarmax2_ m' = dstarmax2_ m.
Proof.
  unfold compute_p_limits.
  destruct (compute_ewald_sphere_p_limits _ _ _ _ _ _) as [eb ee].
  destruct (compute_resolution_p_limits _ _ _ _ _ _ _ _) as [[rb re]|];
    [|discriminate].
  intros H. apply (f_equal (fun o => match o with Some x => x | None => m end)) in H.
  rewrite <- H. cbn. auto.
Qed.

Lemma ctor_permutation (c_sin c_asin : float -> float)
    (ub_beg ub_end : mat3 float) (axis s0 : vec3 float) (dmin : float)
    (margin : Z) (g : ReekeIndexGenerator) :
  ReekeIndexGenerator_ctor c_sin c_asin ub_beg ub_end axis s0 dmin margin = Some g ->
  permutation (model_ g)
  = reeke_detail.permutation (reeke_detail.permute_axes ub_beg axis (neg3 s0)).
Proof.
  unfold ReekeIndexGenerator_ctor.
  destruct (ReekeModel_ctor _ _ _ _ _ _ _ _) as [m|] eqn:E; [|discriminate].
  intros H. apply (f_equal (fun o => match o with Some x => model_ x | None => m end)) in H.
  cbn in H. rewrite <- H. unfold ReekeModel_ctor in E.
  apply compute_p_limits_frame in E. destruct E as (E & _).
  unfold permutation. rewrite E. reflexivity.
Qed.

Lemma ctor_permutation_matrix (c_sin c_asin : float -> float)
    (ub_beg ub_end : mat3 float) (axis s0 : vec3 float) (dmin : float)
    (margin : Z) (g : ReekeIndexGenerator) :
  ReekeIndexGenerator_ctor c_sin c_asin ub_beg ub_end axis s0 dmin margin = Some g ->
  permutation_matrix (permutation (model_ g)).
Proof.
  intros H. rewrite (ctor_permutation _ _ _ _ _ _ _ _ _ H).
  apply permute_axes_permutation.
Qed.

(** ** Restarting and sharing *)

Section sharing.

Variable solve_quad : float -> float -> float -> list float.
Variable g : ReekeIndexGenerator.

Import statics.

Lemma statics_eq (s1 s2 : statics.t) :
  p s1 = p s2 -> q s1 = q s2 -> r s1 = r s2 -> ridx s1 = ridx s2 ->
  state s1 = state s2 -> s1 = s2.
Proof. destruct s1, s2; cbn; intros; subst; reflexivity. Qed.

(** From statics that agree on [p], [q] and [state] the q loop proceeds
    alike: [r] and [ridx] are written before they are read. *)
Lemma q_loop_agree (n : nat) (s1 s2 : statics.t) :
  p s1 = p s2 -> q s1 = q s2 -> state s1 = state s2 ->
  match q_loop solve_quad g n s1, q_loop solve_quad g n s2 with
  | (Some h1, s1'), (Some h2, s2') => h1 = h2 /\ s1' = s2'
  | (None, s1'), (None, s2') =>
      p s1' = p s2' /\ q s1' = q s2' /\ state s1' = state s2'
  | _, _ => False
  end.
Proof.
  destruct s1 as [p1 q1 r1 i1 st1], s2 as [p2 q2 r2 i2 st2]. cbn.
  intros <- <- <-. destruct n as [|n]; cbn [q_loop]; [auto|].
  cbn [p q set_r set_ridx r ridx state].
  destruct (_ <? _); [|auto].
  destruct (ridx_loop _ _) as [[h|] s']; [auto|].
  destruct (q_loop _ _ _ _) as [[h|] s'']; auto.
Qed.

Lemma p_loop_agree (n : nat) (s1 s2 : statics.t) :
  p s1 = p s2 -> state s1 = state s2 ->
  match p_loop solve_quad g n s1, p_loop solve_quad g n s2 with
  | (Some h1, s1'), (Some h2, s2') => h1 = h2 /\ s1' = s2'
  | (None, s1'), (None, s2') => p s1' = p s2' /\ state s1' = state s2'
  | _, _ => False
  end.
Proof.
  revert s1 s2. induction n as [|n IH]; intros s1 s2 Hp Hs; cbn [p_loop];
    [auto|].
  rewrite Hp. destruct (_ <? _); [|rewrite <- Hp; auto].
  pose proof (q_loop_agree
    (turns (q (set_q s1 (q_limits solve_quad (model_ g) (p s2).1))))
    (set_q s1 (q_limits solve_quad (model_ g) (p s2).1))
    (set_q s2 (q_limits solve_quad (model_ g) (p s2).1)) Hp eq_refl Hs) as A.
  cbn [q set_q] in *.
  destruct (q_loop _ _ _ (set_q s1 _)) as [[h1|] s1'],
           (q_loop _ _ _ (set_q s2 _)) as [[h2|] s2']; try tauto.
  destruct A as (Hp'&_&Hs'). apply IH; cbn; congruence.
Qed.

(** A call of [next] from statics with [state = enter] does not read the
    other statics. *)
Lemma next_agree (s1 s2 : statics.t) :
  same_or_enter s1 s2 ->
  (next solve_quad g s1).1 = (next solve_quad g s2).1
  /\ same_or_enter (next solve_quad g s1).2 (next solve_quad g s2).2.
Proof.
  intros [->|[H1 H2]]; [split; [reflexivity|left; reflexivity]|].
  unfold next, next_pqr, switch_state. rewrite H1, H2.
  pose proof (p_loop_agree
    (turns (p (set_p (set_state s1 yield) (p_limits (model_ g)))))
    (set_p (set_state s1 yield) (p_limits (model_ g)))
    (set_p (set_state s2 yield) (p_limits (model_ g))) eq_refl eq_refl) as A.
  cbn [p set_p] in *.
  destruct (p_loop _ _ _ (set_p (set_state s1 yield) _)) as [[h1|] s1'],
           (p_loop _ _ _ (set_p (set_state s2 yield) _)) as [[h2|] s2'];
    try tauto; cbn.
  - destruct A as [-> ->]. split; [reflexivity|left; reflexivity].
  - split; [reflexivity|right; auto].
Qed.

Lemma calls_agree (n : nat) (s1 s2 : statics.t) :
  same_or_enter s1 s2 ->
  (calls solve_quad g n s1).1 = (calls solve_quad g n s2).1.
Proof.
  revert s1 s2. induction n as [|n IH]; intros s1 s2 H; cbn [calls];
    [reflexivity|].
  destruct (next_agree s1 s2 H) as [Hh Hs].
  destruct (next solve_quad g s1) as [h1 s1'],
           (next solve_quad g s2) as [h2 s2']. cbn in Hh, Hs.
  specialize (IH _ _ Hs).
  destruct (calls solve_quad g n s1') as [hs1 t1],
           (calls solve_quad g n s2') as [hs2 t2]. cbn in *. congruence.
Qed.

End sharing.

(** C3: [next()] never returns the zero triple as a reflection.  For a
    generator built by the constructor, [index] is a rearrangement of
    (0,1,2) and the permutation matrix M is one of the six 0/1 permutation
    matrices; a call of [next()] either returns M (p,q,r) for a triple
    (p,q,r) that the loops returned, and then neither (p,q,r) nor M (p,q,r)
    is (0,0,0), or control left the loops and it returns the sentinel
    (0,0,0) with [state] reset. *)
Theorem next_zero_only_as_sentinel
    (c_sin c_asin : float -> float)
    (solve_quad : float -> float -> float -> list float)
    (ub_beg ub_end : mat3 float) (axis s0 : vec3 float) (dmin : float)
    (margin : Z) (g : ReekeIndexGenerator) (s : statics.t) :
  ReekeIndexGenerator_ctor c_sin c_asin ub_beg ub_end axis s0 dmin margin = Some g ->
  index_bijection
    (reeke_detail.index (reeke_detail.permute_axes ub_beg axis (neg3 s0)))
  /\ permutation_matrix (permutation (model_ g))
  /\ match switch_state solve_quad g s with
     | (Some pqr, s') =>
         next solve_quad g s = (mat3_mul_index (permutation (model_ g)) pqr, s')
         /\ pqr <> zero_index
         /\ mat3_mul_index (permutation (model_ g)) pqr <> zero_index
     | (None, s') =>
         next solve_quad g s = (zero_index, statics.set_state s' statics.enter)
     end.
Proof.
  intros Hg. pose proof (ctor_permutation_matrix _ _ _ _ _ _ _ _ _ Hg) as HM.
  split; [apply permute_axes_permutation|]. split; [exact HM|].
  pose proof (next_pqr_cases solve_quad g s) as H. unfold next.
  destruct (switch_state solve_quad g s) as [[pqr|] s'].
  - destruct H as (-> & Hz & _). split; [reflexivity|].
    split; intros E; apply is_zero_spec in E.
    + congruence.
    + rewrite (permutation_matrix_zero _ _ HM) in E. congruence.
  - rewrite H. f_equal. apply is_zero_spec.
    rewrite (permutation_matrix_zero _ _ HM). reflexivity.
Qed.

Lemma next_zero_only_as_sentinel_witness :
  exists g : ReekeIndexGenerator,
    generator_x = Some g
    /\ permutation_matrix (permutation (model_ g))
    /\ next spec_solve_quad g statics.initial
       = (Vec3 (-1) 0 (-1), (calls spec_solve_quad g 1 statics.initial).2).
Proof.
  pose proof (fun g => next_zero_only_as_sentinel libm_sin libm_asin
                spec_solve_quad ub_unit ub_unit axis_x s0_z 1 1 g
                statics.initial) as T.
  fold generator_x in T. take generator_x g.
  exists g. split; [reflexivity|].
  destruct (T g eq_refl) as (_ & HM & _).
  split; [exact HM|]. subst g. vm_compute. reflexivity.
Defined.

(** C1 (as stated) fails: on the generator of the example the sixth call
    returns the sentinel and the seventh returns the first index again. *)
Lemma sentinel_not_forever :
  exists g : ReekeIndexGenerator,
    generator_x = Some g
    /\ (calls spec_solve_quad g 7 statics.initial).1
       = [Vec3 (-1) 0 (-1); Vec3 0 0 (-1); Vec3 1 0 (-1); Vec3 (-1) 0 0;
          Vec3 1 0 0; Vec3 0 0 0; Vec3 (-1) 0 (-1)]
    /\ ~ sentinel_forever spec_solve_quad g.
Proof.
  take generator_x g. exists g. split; [reflexivity|]. subst g.
  split; [vm_compute; reflexivity|].
  intros H. specialize (H 5%nat). vm_compute in H.
  specialize (H eq_refl). discriminate H.
Qed.

(** C1 (amended): [next()] returns the sentinel (0,0,0) only when the p
    loop has run out, and it has then reset [state] to [enter]; the calls
    that follow on that generator go through the traversal again from its
    start: they return what the calls of a first traversal return. *)
Theorem sentinel_restarts_traversal
    (c_sin c_asin : float -> float)
    (solve_quad : float -> float -> float -> list float)
    (ub_beg ub_end : mat3 float) (axis s0 : vec3 float) (dmin : float)
    (margin : Z) (g : ReekeIndexGenerator) (s s' : statics.t) :
  ReekeIndexGenerator_ctor c_sin c_asin ub_beg ub_end axis s0 dmin margin = Some g ->
  next solve_quad g s = (zero_index, s') ->
  (statics.p s').2 <= (statics.p s').1
  /\ statics.state s' = statics.enter
  /\ forall n : nat,
       (calls solve_quad g n s').1 = (calls solve_quad g n statics.initial).1.
Proof.
  intros Hg Hn.
  assert ((statics.p s').2 <= (statics.p s').1
          /\ statics.state s' = statics.enter) as [Hp Hs].
  { pose proof (ctor_permutation_matrix _ _ _ _ _ _ _ _ _ Hg) as HM.
    pose proof (next_pqr_cases solve_quad g s) as H.
    pose proof (switch_state_none solve_quad g s) as Hexit.
    unfold next in Hn.
    destruct (switch_state solve_quad g s) as [[pqr|] s1].
    - destruct H as (E & Hz & _). rewrite E in Hn.
      apply (f_equal fst) in Hn. cbn [fst] in Hn. apply is_zero_spec in Hn.
      rewrite (permutation_matrix_zero _ _ HM) in Hn. congruence.
    - rewrite H in Hn. apply (f_equal snd) in Hn. cbn [snd] in Hn.
      rewrite <- Hn. split; [exact (Hexit s1 eq_refl)|reflexivity]. }
  split; [exact Hp|]. split; [exact Hs|].
  intros n. apply calls_agree. right. split; [exact Hs|reflexivity].
Qed.

Lemma sentinel_restarts_traversal_witness :
  exists (g : ReekeIndexGenerator) (s' : statics.t),
    generator_x = Some g
    /\ next spec_solve_quad g (calls spec_solve_quad g 5 statics.initial).2
       = (zero_index, s')
    /\ (statics.p s').2 <= (statics.p s').1
    /\ statics.state s' = statics.enter
    /\ forall n : nat,
         (calls spec_solve_quad g n s').1
         = (calls spec_solve_quad g n statics.initial).1.
Proof.
  pose proof (fun g => sentinel_restarts_traversal libm_sin libm_asin
                spec_solve_quad ub_unit ub_unit axis_x s0_z 1 1 g
                (calls spec_solve_quad g 5 statics.initial).2) as T.
  fold generator_x in T. take generator_x g.
  eexists g, _.
  split; [reflexivity|].
  assert (next spec_solve_quad g (calls spec_solve_quad g 5 statics.initial).2
          = (zero_index,
             (next spec_solve_quad g
                (calls spec_solve_quad g 5 statics.initial).2).2)) as Hcall
    by (subst g; vm_compute; reflexivity).
  split; [exact Hcall|]. exact (T g _ eq_refl Hcall).
Defined.

(** C2 (as stated) fails: after one call on the generator about x, the
    first call on the generator about y returns (0,0,-1), not the first
    index (0,-1,-1) of its own traversal. *)
Lemma other_generator_alters_sequence :
  exists gx gy : ReekeIndexGenerator,
    generator_x = Some gx /\ generator_y = Some gy
    /\ (interleaved spec_solve_quad [gx; gy] statics.initial).1
       = [Vec3 (-1) 0 (-1); Vec3 0 0 (-1)]
    /\ (calls spec_solve_quad gy 1 statics.initial).1 = [Vec3 0 (-1) (-1)]
    /\ ~ independent_of_other_generators spec_solve_quad gy.
Proof.
  take generator_x gx. take generator_y gy. exists gx, gy.
  split; [reflexivity|]. split; [reflexivity|].
  split; [subst gx gy; vm_compute; reflexivity|].
  split; [subst gx gy; vm_compute; reflexivity|].
  intros H. specialize (H [gx] 1%nat). subst gx gy.
  vm_compute in H. discriminate H.
Qed.

(** C2 (amended): the cursors are shared, so what the calls on a generator
    return depends on the statics the earlier calls, on any generator, have
    left.  When those statics have [state = enter] (no call was made yet,
    or the last call made on any generator returned the sentinel) the calls
    on [g] return what they return in a program that calls only [g]: a
    function of the model of [g], that is of its constructor arguments, and
    of the number of calls. *)
Theorem fresh_traversal_from_enter
    (solve_quad : float -> float -> float -> list float)
    (g : ReekeIndexGenerator) (others : list ReekeIndexGenerator) (n : nat) :
  statics.state (interleaved solve_quad others statics.initial).2 = statics.enter ->
  (calls solve_quad g n (interleaved solve_quad others statics.initial).2).1
  = (calls solve_quad g n statics.initial).1.
Proof.
  intros H. apply calls_agree.
  destruct others as [|g' others'].
  - left. reflexivity.
  - right. split; [exact H|reflexivity].
Qed.

Lemma fresh_traversal_from_enter_witness :
  exists gx gy : ReekeIndexGenerator,
    generator_x = Some gx /\ generator_y = Some gy
    /\ (calls spec_solve_quad gy 3
          (interleaved spec_solve_quad [gx; gx; gx; gx; gx; gx] statics.initial).2).1
       = (calls spec_solve_quad gy 3 statics.initial).1.
Proof.
  take generator_x gx. take generator_y gy. exists gx, gy.
  split; [reflexivity|]. split; [reflexivity|].
  apply (fresh_traversal_from_enter spec_solve_quad gy [gx; gx; gx; gx; gx; gx] 3).
  subst gx. vm_compute. reflexivity.
Defined.

(** ** [q_limits] *)

Lemma sort_insert_perm (x : Z) (l : list Z) : Permutation (sort_insert x l) (x :: l).
Proof.
  induction l as [|y l IH]; cbn; [reflexivity|].
  destruct (x <=? y); [reflexivity|].
  rewrite IH. apply perm_swap.
Qed.

Lemma sort_insert_sorted (x : Z) (l : list Z) :
  Sorted Z.le l -> Sorted Z.le (sort_insert x l).
Proof.
  induction 1 as [|y l Hl IH Hy]; cbn; [repeat constructor|].
  destruct (Z.leb_spec x y).
  - repeat constructor; assumption.
  - constructor; [exact IH|].
    destruct l as [|z l]; cbn; [constructor; lia|].
    destruct (Z.leb_spec x z); constructor; try lia.
    inversion Hy; assumption.
Qed.

Lemma std_sort_perm (l : list Z) : Permutation (std_sort l) l.
Proof.
  induction l as [|x l IH]; cbn; [reflexivity|].
  rewrite sort_insert_perm, IH. reflexivity.
Qed.

Lemma std_sort_sorted (l : list Z) : Sorted Z.le (std_sort l).
Proof.
  induction l as [|x l IH]; cbn; [constructor|].
  apply sort_insert_sorted, IH.
Qed.





(** The three cases occur: on the generator of the example, plane p = 2
    has no resolution root, plane p = 1 has no Ewald root, and plane p = 0
    has the range [-1, 2). *)
Example q_limits_example :
  exists g : ReekeIndexGenerator,
    generator_x = Some g
    /\ resolution_q_roots spec_solve_quad (model_ g) 2 = []
    /\ q_limits spec_solve_quad (model_ g) 2 = (0, 0)
    /\ resolution_q_roots spec_solve_quad (model_ g) 1 = [0%float]
    /\ ewald_beg_q_roots spec_solve_quad (model_ g) 1 = []
    /\ ewald_end_q_roots spec_solve_quad (model_ g) 1 = []
    /\ q_limits spec_solve_quad (model_ g) 1 = (0, 0)
    /\ resolution_q_roots spec_solve_quad (model_ g) 0 = [(-1)%float; 1%float]
    /\ ewald_beg_q_roots spec_solve_quad (model_ g) 0 = [0%float]
    /\ ewald_end_q_roots spec_solve_quad (model_ g) 0 = [0%float]
    /\ q_limits spec_solve_quad (model_ g) 0 = (-1, 2).
Proof.
  take generator_x g. exists g. split; [reflexivity|]. subst g.
  vm_compute. repeat split; reflexivity.
Qed.

(** ** [r_limits] *)

Lemma restrict_r_lim_cases (res e : vec2 Z) :
  restrict_r_lim res e = []
  \/ exists x : vec2 Z, restrict_r_lim res e = [x] /\ x.1 < x.2.
Proof.
  unfold restrict_r_lim.
  match goal with |- context [if ?lo <? ?hi then _ else _] =>
    destruct (Z.ltb_spec lo hi) end.
  - right. eexists. split; [reflexivity|]. cbn. lia.
  - left. reflexivity.
Qed.

Lemma ewald_sphere_r_limits_length
    (solve_quad : float -> float -> float -> list float)
    (m : ReekeModel) (p q : float) (cq : list float) :
  (length (ewald_sphere_r_limits solve_quad m p q cq) <= 2)%nat.
Proof.
  unfold ewald_sphere_r_limits.
  repeat match goal with |- context [(0 <? length ?l)%nat] =>
    destruct (0 <? length l)%nat end; cbn; lia.
Qed.

Lemma order_ranges_ensured (l : list (vec2 Z)) :
  (length l <= 2)%nat -> Forall (fun x : vec2 Z => x.1 < x.2) l ->
  r_limits_ensured (order_ranges l).
Proof.
  intros Hlen Hall. destruct l as [|a [|b [|c l]]]; cbn in Hlen; try lia.
  - split; [cbn; lia|]. split; intros; discriminate.
  - split; [cbn; lia|]. split; [|intros; discriminate].
    intros a' [= <-]. inversion Hall; assumption.
  - inversion Hall as [|? ? Ha Hall']. inversion Hall' as [|? ? Hb _]. subst.
    unfold order_ranges.
    destruct (Z.ltb_spec b.1 a.1) as [Hab|Hab];
      match goal with |- context [if ?x <? ?y then _ else _] =>
        destruct (Z.ltb_spec x y) end;
      (split; [cbn; lia|]; split; [intros; discriminate|]);
      intros a' b' [= <- <-]; cbn in *; lia.
Qed.

(** C5 (amended): [r_limits(p, q)] returns at most two intervals; a single
    interval has lower < upper; of two intervals the first has
    lower < upper and ends no later than the second starts (ascending,
    disjoint), and the second has lower < upper unless its lower bound was
    raised to the end of the first, when it may be empty. *)
Theorem r_limits_intervals
    (solve_quad : float -> float -> float -> list float)
    (m : ReekeModel) (p q : float) :
  r_limits_ensured (r_limits solve_quad m p q).
Proof.
  unfold r_limits.
  destruct (resolution_r_limits _ _ _ _ _) as [res|].
  2: { split; [cbn; lia|]. split; intros; discriminate. }
  match goal with |- context [ewald_sphere_r_limits ?s ?m ?p ?q ?cq] =>
    pose proof (ewald_sphere_r_limits_length s m p q cq) as Hlen;
    destruct (ewald_sphere_r_limits s m p q cq) as [|e1 [|e2 [|e3 l]]] end;
    cbn in Hlen; try lia; cbn [flat_map app]; apply order_ranges_ensured.
  - cbn; lia.
  - constructor.
  - rewrite app_nil_r.
    destruct (restrict_r_lim_cases res e1) as [->|(x & -> & Hx)]; cbn; lia.
  - rewrite app_nil_r.
    destruct (restrict_r_lim_cases res e1) as [->|(x & -> & Hx)];
      repeat constructor; assumption.
  - rewrite app_nil_r.
    destruct (restrict_r_lim_cases res e1) as [->|(x & -> & Hx)],
             (restrict_r_lim_cases res e2) as [->|(y & -> & Hy)]; cbn; lia.
  - rewrite app_nil_r.
    destruct (restrict_r_lim_cases res e1) as [->|(x & -> & Hx)],
             (restrict_r_lim_cases res e2) as [->|(y & -> & Hy)];
      repeat constructor; assumption.
Qed.

(** C5 (as stated) fails: on the generator of the example, [r_limits(0, 0)]
    returns [-1, 2) and the empty interval [2, 2). *)
Lemma r_limits_second_interval_empty :
  exists g : ReekeIndexGenerator,
    generator_x = Some g
    /\ r_limits spec_solve_quad (model_ g) 0 0 = [(-1, 2); (2, 2)]
    /\ ~ r_limits_claimed (r_limits spec_solve_quad (model_ g) 0 0).
Proof.
  take generator_x g. exists g. split; [reflexivity|].
  assert (r_limits spec_solve_quad (model_ g) 0 0 = [(-1, 2); (2, 2)]) as Hr
    by (subst g; vm_compute; reflexivity).
  split; [exact Hr|]. rewrite Hr. intros (_ & Hall & _).
  inversion Hall as [|? ? _ Hall']. inversion Hall' as [|? ? Hb _].
  cbn in Hb. lia.
Qed.

(** ** The p limits *)

(** C6: the code takes the sign of the begin limits from [v_end].  Whatever
    [v_beg] is, [compute_resolution_p_limits] returns for the begin
    orientation the limits the specification's formula gives with the plane
    normal of the end orientation.  With the end orientation half a turn
    from the begin one, where [sign(v_beg . source) = -1] and
    [sign(v_end . source) = 1], the constructor stores (0.5, 0.5) in
    [res_p_lim_beg_], and the formula of the specification with [v_beg]
    gives (-0.5, -0.5). *)
Theorem resolution_p_limits_begin_sign_from_end :
  (forall (c_sin c_asin : float -> float) (m : ReekeModel)
          (v_beg v_end : vec3 float) (dp_beg dp_end p_dist : float),
      compute_resolution_p_limits c_sin c_asin m v_beg v_end dp_beg dp_end p_dist
      = None
      \/ compute_resolution_p_limits c_sin c_asin m v_beg v_end dp_beg dp_end p_dist
         = Some (spec_resolution_p_limits c_sin c_asin m v_end dp_beg p_dist,
                 spec_resolution_p_limits c_sin c_asin m v_end dp_end p_dist))
  /\ exists g : ReekeIndexGenerator,
       generator_half_turn = Some g
       /\ let source := neg3 s0_z in
          let perm := reeke_detail.permute_matrix ub_unit ub_half_turn axis_x source in
          let v_beg := plane_normal (reeke_detail.rlv_beg perm) in
          let v_end := plane_normal (reeke_detail.rlv_end perm) in
          let dp_beg := PrimFloat.abs (dot v_beg source) in
          let p_dist :=
            PrimFloat.abs (dot (get_row (reeke_detail.rlv_beg perm) 0) v_beg) in
          sign_of (dot v_beg source) = -1
          /\ sign_of (dot v_end source) = 1
          /\ res_p_lim_beg_ (model_ g) = (0.5, 0.5)%float
          /\ spec_resolution_p_limits libm_sin libm_asin (model_ g) v_beg dp_beg p_dist
             = (-0.5, -0.5)%float.
Proof.
  split.
  - intros. unfold compute_resolution_p_limits, spec_resolution_p_limits.
    destruct (_ && _); [right; reflexivity|left; reflexivity].
  - take generator_half_turn g. exists g. split; [reflexivity|]. subst g.
    vm_compute. repeat split; reflexivity.
Qed.

Lemma quot_is_div_or_succ (n d : Z) :
  0 < d ->
  Z.quot n d = if (n <? 0) && negb (Z.rem n d =? 0) then n / d + 1 else n / d.
Proof.
  intros Hd. destruct (Z.ltb_spec n 0) as [Hn|Hn]; cbn [andb].
  - pose proof (Z.quot_rem' n d) as E.
    pose proof (Z.rem_bound_abs n d ltac:(lia)) as B.
    pose proof (Z.rem_nonpos n d ltac:(lia) ltac:(lia)) as B'.
    destruct (Z.eqb_spec (Z.rem n d) 0) as [R|R]; cbn [negb].
    + apply (Z.div_unique n d (Z.quot n d) 0); lia.
    + assert (n / d = Z.quot n d - 1); [|lia].
      symmetry. apply (Z.div_unique n d (Z.quot n d - 1) (Z.rem n d + d)); lia.
  - apply Z.quot_div_nonneg; lia.
Qed.

(** The conversion to [int] is the floor, except on negative numbers that
    are not integers, where it is the floor plus one. *)
Lemma double_to_int_floor (x : float) :
  double_to_int x
  = if negative_fraction x then double_floor x + 1 else double_floor x.
Proof.
  unfold double_to_int, double_floor, negative_fraction.
  destruct (double_scaled x) as [[n e]|]; [|reflexivity].
  destruct (Z.leb_spec 0 e) as [He|He].
  - replace (e <? 0) with false by (symmetry; apply Z.ltb_ge; lia).
    rewrite andb_false_r. reflexivity.
  - replace (e <? 0) with true by (symmetry; apply Z.ltb_lt; lia).
    rewrite andb_true_r. apply quot_is_div_or_succ.
    apply Z.pow_pos_nonneg; lia.
Qed.

Lemma compute_p_limits_p_lim (c_sin c_asin : float -> float)
    (m m' : ReekeModel) (rlv_beg rlv_end : mat3 float) :
  compute_p_limits c_sin c_asin m rlv_beg rlv_end = Some m' ->
  p_limits_by_truncation (sign_of (dot (plane_normal rlv_end) (source_ m))) m'.
Proof.
  unfold compute_p_limits.
  destruct (compute_ewald_sphere_p_limits _ _ _ _ _ _) as [eb ee].
  destruct (compute_resolution_p_limits _ _ _ _ _ _ _ _) as [[rb re]|];
    [|discriminate].
  intros H. apply (f_equal (fun o => match o with Some x => x | None => m end)) in H.
  rewrite <- H. reflexivity.
Qed.

(** The endpoint selected on a side is, as a number, the one
    [compute_p_limits] selects with [std::max] or [std::min]. *)
Lemma side_choice_select (sigma : Z) (side : float * float) (x : float) :
  is_finite side.1 = true -> is_finite side.2 = true ->
  side_choice sigma side x ->
  same_number x
    (if sigma <? 0 then std_max side.1 side.2 else std_min side.1 side.2).
Proof.
  intros F1 F2. unfold side_choice.
  assert (Forall (fun z => is_finite z = true) [side.1; side.2]) as F
    by (constructor; [exact F1|constructor; [exact F2|constructor]]).
  destruct (sigma <? 0); intros H.
  - exact (greatest_of_unique _ _ _ F H (std_max_greatest _ _)).
  - exact (least_of_unique _ _ _ F H (std_min_least _ _)).
Qed.

Lemma per_side_selected_select (sigma : Z) (m : ReekeModel) (xs : list float) :
  p_limits_fit_int m -> per_side_selected sigma m xs ->
  Forall2 same_number xs (selected_p_limits sigma m).
Proof.
  unfold p_limits_fit_int, per_side_selected, p_limit_sides, selected_p_limits,
    select_p_limits, ewald_sphere_p_limits, resolution_p_limits.
  cbn [fst snd]. intros F H.
  repeat match goal with
         | H : Forall _ (_ :: _) |- _ =>
             let A := fresh "A" in let B := fresh "B" in
             apply Forall_cons in H; destruct H as [[A B] H];
             apply fits_int_finite in A; apply fits_int_finite in B
         | H : Forall2 _ (_ :: _) _ |- _ =>
             let y := fresh "y" in let k := fresh "k" in
             let S := fresh "S" in
             apply Forall2_cons_inv_l in H;
             destruct H as (y & k & S & H & ->)
         | H : Forall2 _ [] _ |- _ => apply Forall2_nil_inv_l in H; subst
         end.
  repeat match goal with
         | S : side_choice _ _ _ |- _ =>
             apply side_choice_select in S; [|assumption|assumption];
             cbn [fst snd] in S
         end.
  destruct (sigma <? 0); repeat (constructor; [assumption|]); constructor.
Qed.

(** C7 (amended): for a constructed model whose real limits are finite and
    within the range of [int] (C++ leaves the conversion of other values
    undefined), the interval [p_limits()] is
    [trunc(m) - margin, trunc(M) + margin + 1), for every choice [xs] of
    the four per-side endpoints (on each side the greater of the resolution
    and the Ewald limit when sigma < 0, the lesser otherwise), every least
    element [m] and every greatest element [M] of [xs]; [trunc] is the
    conversion to [int], which rounds toward zero: it is the floor for a
    value that is an integer or not negative, and the floor plus one for a
    negative value that is not an integer. *)
Theorem p_limits_truncate (c_sin c_asin : float -> float)
    (ub_beg ub_end : mat3 float) (axis source : vec3 float) (dmin : float)
    (margin : Z) (m : ReekeModel) (xs : list float) (lo hi : float) :
  ReekeModel_ctor c_sin c_asin ub_beg ub_end axis source dmin margin = Some m ->
  p_limits_fit_int m ->
  per_side_selected (end_sign ub_beg ub_end axis source) m xs ->
  least_of xs lo -> greatest_of xs hi ->
  p_limits m = (double_to_int lo - margin, double_to_int hi + margin + 1)
  /\ margin_ m = margin
  /\ forall x : float,
       double_to_int x
       = if negative_fraction x then double_floor x + 1 else double_floor x.
Proof.
  intros Hm Hfit Hxs Hlo Hhi.
  assert (margin_ m = margin) as Hmargin.
  { unfold ReekeModel_ctor in Hm. apply compute_p_limits_frame in Hm.
    destruct Hm as (_ & _ & _ & Hm & _). exact Hm. }
  split; [|split; [exact Hmargin|exact double_to_int_floor]].
  pose proof (per_side_selected_select _ _ _ Hfit Hxs) as Hsame.
  assert (Forall (fun z => is_finite z = true)
            (selected_p_limits (end_sign ub_beg ub_end axis source) m)) as Hfin.
  { apply Forall_lookup. intros i c Hc.
    destruct (Forall2_lookup_r _ _ _ _ _ Hsame Hc) as (x & _ & S).
    exact (same_number_finite _ _ S). }
  assert (selected_p_limits (end_sign ub_beg ub_end axis source) m <> []) as Hne
    by (unfold selected_p_limits, select_p_limits; destruct (_ <? 0); discriminate).
  destruct (least_of_same_numbers _ _ _ Hsame Hlo) as (lo' & Hlo' & Slo).
  destruct (greatest_of_same_numbers _ _ _ Hsame Hhi) as (hi' & Hhi' & Shi).
  rewrite (same_number_to_int _ _
             (same_number_trans _ _ _ Slo
                (least_of_unique _ _ _ Hfin Hlo' (af_min_least _ Hne)))).
  rewrite (same_number_to_int _ _
             (same_number_trans _ _ _ Shi
                (greatest_of_unique _ _ _ Hfin Hhi' (af_max_greatest _ Hne)))).
  unfold ReekeModel_ctor in Hm.
  apply compute_p_limits_p_lim in Hm. unfold p_limits_by_truncation in Hm.
  rewrite Hmargin in Hm. exact Hm.
Qed.

(** The hypotheses of the theorem at a concrete model, by evaluation. *)
Ltac fits_example :=
  unfold p_limits_fit_int, p_limit_sides, ewald_sphere_p_limits,
    resolution_p_limits;
  cbn [fst snd ewald_p_lim_beg_ ewald_p_lim_end_ res_p_lim_beg_ res_p_lim_end_
       margin_];
  repeat (constructor; [split; vm_compute; reflexivity|]); constructor.

Ltac selected_example Hs :=
  unfold per_side_selected, p_limit_sides, ewald_sphere_p_limits,
    resolution_p_limits, side_choice;
  rewrite Hs;
  cbn [fst snd ewald_p_lim_beg_ ewald_p_lim_end_ res_p_lim_beg_ res_p_lim_end_];
  repeat (constructor; [split; [cbn; auto|repeat constructor]|]); constructor.

Lemma p_limits_truncate_witness :
  (exists m : ReekeModel,
     ReekeModel_ctor libm_sin libm_asin ub_unit ub_unit axis_x (neg3 s0_z) 1 1
     = Some m
     /\ end_sign ub_unit ub_unit axis_x (neg3 s0_z) = -1
     /\ p_limits m = (double_to_int (-0.5) - 1, double_to_int 0 + 1 + 1)
     /\ p_limits m = (-1, 2))
  /\ exists m : ReekeModel,
       ReekeModel_ctor libm_sin libm_asin ub_unit ub_unit axis_x s0_z 1 1
       = Some m
       /\ end_sign ub_unit ub_unit axis_x s0_z = 1
       /\ p_limits m = (double_to_int (-0) - 1, double_to_int 0.5 + 1 + 1)
       /\ p_limits m = (-1, 2).
Proof.
  split.
  - pose proof (p_limits_truncate libm_sin libm_asin ub_unit ub_unit axis_x
                  (neg3 s0_z) 1 1) as T.
    assert (end_sign ub_unit ub_unit axis_x (neg3 s0_z) = -1) as Hs
      by (vm_compute; reflexivity).
    take (ReekeModel_ctor libm_sin libm_asin ub_unit ub_unit axis_x (neg3 s0_z) 1 1)
      m.
    exists m. split; [reflexivity|]. split; [exact Hs|].
    split; [|subst m; vm_compute; reflexivity].
    refine (proj1 (T m [(-0.5)%float; (-0.5)%float; 0%float; 0%float]
                     (-0.5)%float 0%float eq_refl _ _ _ _)).
    + subst m. fits_example.
    + subst m. selected_example Hs.
    + split; [cbn; auto|repeat constructor].
    + split; [cbn; auto|repeat constructor].
  - pose proof (p_limits_truncate libm_sin libm_asin ub_unit ub_unit axis_x
                  s0_z 1 1) as T.
    assert (end_sign ub_unit ub_unit axis_x s0_z = 1) as Hs
      by (vm_compute; reflexivity).
    take (ReekeModel_ctor libm_sin libm_asin ub_unit ub_unit axis_x s0_z 1 1) m.
    exists m. split; [reflexivity|]. split; [exact Hs|].
    split; [|subst m; vm_compute; reflexivity].
    refine (proj1 (T m [(-0)%float; (-0)%float; 0.5%float; 0.5%float]
                     (-0)%float 0.5%float eq_refl _ _ _ _)).
    + subst m. fits_example.
    + subst m. selected_example Hs.
    + split; [cbn; auto|repeat constructor].
    + split; [cbn; auto|repeat constructor].
Defined.

(** C7 (as stated) fails: for the model of the example the selected
    endpoints have minimum -0.5 and maximum 0, and the margin is 1; the
    lower bound of [p_limits()] is -1, not floor(-0.5) - 1 = -2. *)
Lemma p_limits_not_by_floor :
  exists m : ReekeModel,
    ReekeModel_ctor libm_sin libm_asin ub_unit ub_unit axis_x (neg3 s0_z) 1 1
    = Some m
    /\ selected_p_limits (end_sign ub_unit ub_unit axis_x (neg3 s0_z)) m
       = [(-0.5)%float; (-0.5)%float; 0%float; 0%float]
    /\ p_limits m = (-1, 2)
    /\ double_floor (-0.5) - margin_ m = -2
    /\ ~ p_limits_by_floor (end_sign ub_unit ub_unit axis_x (neg3 s0_z)) m.
Proof.
  take (ReekeModel_ctor libm_sin libm_asin ub_unit ub_unit axis_x (neg3 s0_z) 1 1) m.
  exists m. split; [reflexivity|]. subst m.
  split; [vm_compute; reflexivity|]. split; [vm_compute; reflexivity|].
  split; [vm_compute; reflexivity|].
  unfold p_limits_by_floor. vm_compute. discriminate.
Qed.

(** ** The scan-static predictor, per requested index *)

Section for_hkl_facts.

Variable Predicted : Z.
Variable P : ScanStatic.ScanStaticReflectionPredictor.

Lemma append_matching_ray_find (p : prediction_data) (e : bool) (pn : nat)
    (rays : list Ray) :
  ScanStatic.append_matching_ray Predicted P p e pn rays
  = match matching_ray rays e with
    | Some ray =>
        ScanStatic.append_matching_ray Predicted P p e pn [ray]
    | None => None
    end.
Proof.
  induction rays as [|ray rays IH]; [reflexivity|].
  cbn [ScanStatic.append_matching_ray matching_ray find].
  destruct (Bool.eqb (entering ray) e) eqn:E; [|exact IH].
  cbn [ScanStatic.append_matching_ray]. rewrite E. reflexivity.
Qed.

Lemma matching_ray_entering (rays : list Ray) (e : bool) (ray : Ray) :
  matching_ray rays e = Some ray -> entering ray = e.
Proof.
  unfold matching_ray. intros H. apply find_some in H. destruct H as [_ H].
  apply Bool.eqb_prop, H.
Qed.

(** One call of [append_for_index] adds the requested row. *)
Lemma append_for_index_add_row (p : prediction_data) (ub : mat3 float)
    (h : miller_index) (e : bool) (pn : nat) :
  ScanStatic.append_for_index Predicted P p ub h e pn
  = add_row p (requested_row Predicted P ub h e pn).
Proof.
  unfold ScanStatic.append_for_index, requested_row.
  rewrite append_matching_ray_find.
  destruct (matching_ray _ e) as [ray|] eqn:M; [|reflexivity].
  cbn [ScanStatic.append_matching_ray].
  rewrite (matching_ray_entering _ _ _ M), Bool.eqb_reflx.
  destruct (panel_impact _ _ _) as [[mm px]|]; reflexivity.
Qed.

Lemma add_row_columns (p : prediction_data) (w : row) (n : nat) :
  columns_of_length p n -> columns_of_length (add_row p w) (S n).
Proof.
  unfold columns_of_length. cbn. rewrite !length_app. cbn. lia.
Qed.

Lemma add_row_row_at_old (p : prediction_data) (w : row) (n j : nat) :
  columns_of_length p n -> (j < n)%nat -> row_at (add_row p w) j = row_at p j.
Proof.
  intros (?&?&?&?&?&?&?) Hj. unfold row_at. cbn.
  rewrite !lookup_app_l by lia. reflexivity.
Qed.

Lemma add_row_row_at_new (p : prediction_data) (w : row) (n : nat) :
  columns_of_length p n -> row_at (add_row p w) n = Some w.
Proof.
  intros (?&?&?&?&?&?&?). unfold row_at. cbn.
  rewrite !list_lookup_middle by congruence. destruct w; reflexivity.
Qed.

(** The loop adds one row per index [i .. i + n - 1], in order, and leaves
    the earlier rows as they are. *)
Lemma for_hkl_loop_rows (h : list miller_index) (e : list bool)
    (pn : list nat) (ub : list (mat3 float)) (n i : nat) (p : prediction_data) :
  columns_of_length p i ->
  (i + n <= length h)%nat -> (i + n <= length e)%nat ->
  (i + n <= length pn)%nat -> (i + n <= length ub)%nat ->
  let t := ScanStatic.for_hkl_loop Predicted P n i p h e pn ub in
  columns_of_length t (i + n)
  /\ (forall j : nat, (j < i)%nat -> row_at t j = row_at p j)
  /\ forall (j : nat) (hj : miller_index) (ej : bool) (pj : nat)
            (ubj : mat3 float),
       (i <= j < i + n)%nat ->
       h !! j = Some hj -> e !! j = Some ej -> pn !! j = Some pj ->
       ub !! j = Some ubj ->
       row_at t j = Some (requested_row Predicted P ubj hj ej pj).
Proof.
  revert i p. induction n as [|n IH]; intros i p Hp Hh He Hpn Hub;
    cbn [ScanStatic.for_hkl_loop].
  - rewrite Nat.add_0_r. split; [exact Hp|]. split; [reflexivity|].
    intros; lia.
  - destruct (lookup_lt_is_Some_2 ub i ltac:(lia)) as [ubi Eub].
    destruct (lookup_lt_is_Some_2 h i ltac:(lia)) as [hi Eh].
    destruct (lookup_lt_is_Some_2 e i ltac:(lia)) as [ei Ee].
    destruct (lookup_lt_is_Some_2 pn i ltac:(lia)) as [pi Epn].
    rewrite Eub, Eh, Ee, Epn, append_for_index_add_row.
    destruct (IH (S i) (add_row p (requested_row Predicted P ubi hi ei pi))
                (add_row_columns _ _ _ Hp) ltac:(lia) ltac:(lia) ltac:(lia)
                ltac:(lia)) as (C & Old & New).
    split; [replace (i + S n)%nat with (S i + n)%nat by lia; exact C|].
    split.
    + intros j Hj. rewrite Old by lia. apply (add_row_row_at_old _ _ i); [exact Hp|lia].
    + intros j hj ej pj ubj Hj Ehj Eej Epj Eubj.
      destruct (Nat.eq_dec j i) as [->|Hne].
      * rewrite Old by lia. rewrite (add_row_row_at_new _ _ i Hp).
        congruence.
      * apply New; try assumption. lia.
Qed.

Lemma empty_table_columns : columns_of_length empty_table 0.
Proof. repeat split. Qed.

(** [for_hkl] returns a table when its assertions hold, and then the table
    has one row per request, row [i] being the requested one. *)
Lemma for_hkl_table (h : list miller_index) (e : list bool) (pn : list nat)
    (ub : mat3 float) :
  length e = length h -> length pn = length h ->
  (0 <? (get_oscillation (ScanStatic.scan_ P)).2)%float = true ->
  exists t : prediction_data,
    ScanStatic.for_hkl Predicted P h e pn ub = Some t
    /\ columns_of_length t (length h)
    /\ forall (i : nat) (hi : miller_index) (ei : bool) (pi : nat),
         h !! i = Some hi -> e !! i = Some ei -> pn !! i = Some pi ->
         row_at t i = Some (requested_row Predicted P ub hi ei pi).
Proof.
  intros He Hpn Hosc.
  unfold ScanStatic.for_hkl, ScanStatic.for_hkl_with_individual_ub.
  rewrite length_replicate, He, Hpn, Nat.eqb_refl, Hosc. cbn [negb].
  destruct (for_hkl_loop_rows h e pn (replicate (length h) ub) (length h) 0
              empty_table empty_table_columns ltac:(lia) ltac:(lia) ltac:(lia)
              ltac:(rewrite length_replicate; lia)) as (C & _ & New).
  cbn [Nat.add] in C, New.
  assert (nrows (ScanStatic.for_hkl_loop Predicted P (length h) 0 empty_table
                   h e pn (replicate (length h) ub)) = length h) as ->
    by (unfold nrows; apply C).
  rewrite Nat.eqb_refl. cbn [negb]. eexists. split; [reflexivity|].
  split; [exact C|]. intros i hi ei pi Eh Ee Ep.
  apply (New i hi ei pi ub); try assumption.
  - apply lookup_lt_Some in Eh. lia.
  - apply lookup_replicate_2. apply lookup_lt_Some in Eh. exact Eh.
Qed.

End for_hkl_facts.

(** C9 (amended): when its assertions hold, [for_hkl] returns a table with
    exactly one row per requested (h, entering, panel), in order; row [i]
    carries the request, and for the first predicted ray whose entering flag
    is the requested one it carries that ray's s1; when the requested panel
    rejects that s1 the row has xyzcal.mm = (0, 0, angle) and
    xyzcal.px = (0, 0, frame): the x and y coordinates are zero, the z
    components still carry the ray's angle and array index, and the flags
    are 0 (Predicted unset). *)
Theorem for_hkl_one_row_per_request (Predicted : Z)
    (P : ScanStatic.ScanStaticReflectionPredictor) (h : list miller_index)
    (e : list bool) (pn : list nat) (ub : mat3 float) :
  length e = length h -> length pn = length h ->
  (0 <? (get_oscillation (ScanStatic.scan_ P)).2)%float = true ->
  exists t : prediction_data,
    ScanStatic.for_hkl Predicted P h e pn ub = Some t
    /\ columns_of_length t (length h)
    /\ forall (i : nat) (hi : miller_index) (ei : bool) (pi : nat),
         h !! i = Some hi -> e !! i = Some ei -> pn !! i = Some pi ->
         exists w : row,
           row_at t i = Some w
           /\ row_hkl w = hi /\ row_enter w = ei /\ row_panel w = pi
           /\ forall ray : Ray,
                matching_ray (ScanStatic.predict_rays_ P hi ub) ei = Some ray ->
                entering ray = ei /\ row_s1 w = s1 ray
                /\ (panel_impact (ScanStatic.detector_ P) pi (s1 ray) = None ->
                    row_xyz_mm w = Vec3 0%float 0%float (angle ray)
                    /\ row_xyz_px w
                       = Vec3 0%float 0%float
                           (get_array_index_from_angle (ScanStatic.scan_ P)
                              (angle ray))
                    /\ row_flags w = 0
                    /\ Z.land (row_flags w) Predicted = 0).
Proof.
  intros He Hpn Hosc.
  destruct (for_hkl_table Predicted P h e pn ub He Hpn Hosc) as (t & Ht & C & R).
  exists t. split; [exact Ht|]. split; [exact C|].
  intros i hi ei pi Eh Ee Ep. eexists. split; [apply (R i hi ei pi Eh Ee Ep)|].
  unfold requested_row.
  destruct (matching_ray _ ei) as [ray|] eqn:M.
  - pose proof (matching_ray_entering _ _ _ M) as Hent.
    destruct (panel_impact _ pi (s1 ray)) as [[mm px]|] eqn:I; cbn.
    + split; [reflexivity|]. split; [reflexivity|]. split; [reflexivity|].
      intros ray' [= <-]. split; [exact Hent|]. split; [reflexivity|].
      intros I'. congruence.
    + split; [reflexivity|]. split; [reflexivity|]. split; [reflexivity|].
      intros ray' [= <-]. split; [exact Hent|]. split; [reflexivity|].
      intros _. repeat split; reflexivity.
  - cbn. split; [reflexivity|]. split; [reflexivity|]. split; [reflexivity|].
    intros ray' [=].
Qed.

Lemma for_hkl_one_row_per_request_witness :
  exists t : prediction_data,
    ScanStatic.for_hkl 1 example_static_predictor
      [Vec3 1 0 0; Vec3 0 1 0; Vec3 1 0 0] [true; true; false]
      [0; 0; 0]%nat ub_unit = Some t
    /\ columns_of_length t 3
    /\ row_at t 0
       = Some {| row_hkl := Vec3 1 0 0; row_panel := 0; row_enter := true;
                 row_s1 := (Vec3 0 0 (-1))%float;
                 row_xyz_px := (Vec3 0 0 2)%float;
                 row_xyz_mm := (Vec3 0 0 1)%float; row_flags := 0 |}.
Proof.
  destruct (for_hkl_one_row_per_request 1 example_static_predictor
              [Vec3 1 0 0; Vec3 0 1 0; Vec3 1 0 0] [true; true; false]
              [0; 0; 0]%nat ub_unit eq_refl eq_refl eq_refl) as (t & Ht & C & _).
  exists t. split; [exact Ht|]. split; [exact C|].
  vm_compute in Ht. injection Ht as <-. vm_compute. reflexivity.
Defined.

(** C9 (as stated) fails: the panel of the example rejects the entering ray
    of (1,0,0), and the row has xyzcal.mm = (0, 0, 1), not (0, 0, 0). *)
Lemma rejected_row_keeps_angle :
  exists t : prediction_data,
    ScanStatic.for_hkl 1 example_static_predictor [Vec3 1 0 0] [true] [0%nat]
      ub_unit = Some t
    /\ xyz_mm t = [(Vec3 0 0 1)%float]
    /\ xyz_px t = [(Vec3 0 0 2)%float]
    /\ ~ rejected_rows_zero 1 example_static_predictor [Vec3 1 0 0] [true]
          [0%nat] ub_unit t.
Proof.
  eexists. split; [vm_compute; reflexivity|].
  split; [reflexivity|]. split; [reflexivity|].
  intros H.
  specialize (H 0%nat (Vec3 1 0 0) true 0%nat entering_ray _
                eq_refl eq_refl eq_refl eq_refl eq_refl eq_refl).
  destruct H as (H & _). cbn in H.
  apply (f_equal (fun v => Prim2SF (v3_2 v))) in H. vm_compute in H.
  discriminate H.
Qed.

(** C10: in [append_for_index(p, ub, h, entering, panel)], on a table of [n]
    rows, when no predicted ray has the requested entering flag the new row
    has s1, xyzcal.mm and xyzcal.px equal to (0,0,0) and flags 0 (Predicted
    unset); when a ray has it and the requested panel rejects that ray, the
    z components of xyzcal.mm and xyzcal.px are the ray's angle and array
    index (and the flags are 0 too). *)
Theorem append_for_index_without_matching_ray (Predicted : Z)
    (P : ScanStatic.ScanStaticReflectionPredictor) (p : prediction_data)
    (n : nat) (ub : mat3 float) (h : miller_index) (e : bool) (pn : nat) :
  columns_of_length p n ->
  exists w : row,
    row_at (ScanStatic.append_for_index Predicted P p ub h e pn) n = Some w
    /\ columns_of_length (ScanStatic.append_for_index Predicted P p ub h e pn) (S n)
    /\ ((forall ray : Ray,
            In ray (ScanStatic.predict_rays_ P h ub) -> entering ray <> e) ->
        row_s1 w = (Vec3 0 0 0)%float
        /\ row_xyz_mm w = (Vec3 0 0 0)%float
        /\ row_xyz_px w = (Vec3 0 0 0)%float
        /\ row_flags w = 0 /\ Z.land (row_flags w) Predicted = 0)
    /\ forall ray : Ray,
         matching_ray (ScanStatic.predict_rays_ P h ub) e = Some ray ->
         panel_impact (ScanStatic.detector_ P) pn (s1 ray) = None ->
         v3_2 (row_xyz_mm w) = angle ray
         /\ v3_2 (row_xyz_px w)
            = get_array_index_from_angle (ScanStatic.scan_ P) (angle ray)
         /\ row_flags w = 0.
Proof.
  intros C. rewrite append_for_index_add_row. eexists.
  split; [apply (add_row_row_at_new _ _ n C)|].
  split; [apply add_row_columns, C|]. unfold requested_row. split.
  - intros Hno.
    destruct (matching_ray _ e) as [ray|] eqn:M.
    + exfalso. apply (Hno ray).
      * unfold matching_ray in M. apply find_some in M. apply M.
      * exact (matching_ray_entering _ _ _ M).
    + cbn. repeat split; reflexivity.
  - intros ray M I. rewrite M, I. cbn. repeat split; reflexivity.
Qed.

Lemma append_for_index_without_matching_ray_witness :
  exists w : row,
    row_at (ScanStatic.append_for_index 1 example_static_predictor empty_table
              ub_unit (Vec3 0 1 0) true 0%nat) 0 = Some w
    /\ row_s1 w = (Vec3 0 0 0)%float
    /\ row_xyz_mm w = (Vec3 0 0 0)%float
    /\ row_xyz_px w = (Vec3 0 0 0)%float
    /\ row_flags w = 0.
Proof.
  destruct (append_for_index_without_matching_ray 1 example_static_predictor
              empty_table 0 ub_unit (Vec3 0 1 0) true 0%nat
              empty_table_columns) as (w & Hw & _ & Hzero & _).
  exists w. split; [exact Hw|].
  assert (forall ray : Ray,
            In ray (ScanStatic.predict_rays_ example_static_predictor
                      (Vec3 0 1 0) ub_unit) -> entering ray <> true) as Hno.
  { cbn. intros ray [<-|[]]. discriminate. }
  destruct (Hzero Hno) as (A & B & C & D & _). auto.
Defined.

(** ** The scan-varying predictor *)

Section for_ub_facts.

Variable Predicted : Z.
Variable space_group_type : Type.
Variable axis_and_angle_as_matrix : vec3 float -> float -> mat3 float.
Variable reeke_indices :
  list (ScanVarying.ctor_arg space_group_type) -> option (list miller_index).
Variable P : ScanVarying.ScanVaryingReflectionPredictor space_group_type.

Lemma to_size_t_small (n : Z) :
  0 <= n < 2 ^ 64 -> ScanVarying.to_size_t n = n.
Proof. intros H. unfold ScanVarying.to_size_t. apply Z.mod_small, H. Qed.

Lemma to_size_t_negative (n : Z) :
  - 2 ^ 64 <= n < 0 -> ScanVarying.to_size_t n = n + 2 ^ 64.
Proof.
  intros H. unfold ScanVarying.to_size_t.
  symmetry. apply (Z.mod_unique n (2 ^ 64) (-1)); lia.
Qed.

Lemma frames_from_S (f : Z) (n : nat) :
  frames_from f (S n) = f :: frames_from (f + 1) n.
Proof.
  unfold frames_from. cbn [seq map]. f_equal; [lia|].
  rewrite <- seq_shift, map_map. apply map_ext. intros k. lia.
Qed.

Lemma for_ub_loop_not_size_assertion (A : list (mat3 float)) (n : nat)
    (offset frame : Z) (p : prediction_data) :
  ScanVarying.for_ub_loop Predicted axis_and_angle_as_matrix reeke_indices P
    n A offset frame p <> inl ScanVarying.size_assertion.
Proof.
  revert frame p. induction n as [|n IH]; intros frame p;
    cbn [ScanVarying.for_ub_loop]; [discriminate|].
  repeat match goal with
         | |- context [if ?c then _ else _] => destruct c
         | |- context [match ?o with Some _ => _ | None => _ end] => destruct o
         end; try discriminate; apply IH.
Qed.

(** While the frames fit in [A], the loop of [for_ub] is the prediction of
    the frames one after the other. *)
Lemma for_ub_loop_frames (A : list (mat3 float)) (n : nat) (frame : Z)
    (p : prediction_data) :
  (get_array_range (ScanVarying.scan_ P)).1 <= frame ->
  ((0 < n)%nat ->
   frame + Z.of_nat n <= (get_array_range (ScanVarying.scan_ P)).2) ->
  ((0 < n)%nat ->
   frame - (get_array_range (ScanVarying.scan_ P)).1 + Z.of_nat n
   <= Z.of_nat (length A) - 1) ->
  Z.of_nat (length A) - 1 < 2 ^ 64 ->
  ScanVarying.for_ub_loop Predicted axis_and_angle_as_matrix reeke_indices P
    n A (get_array_range (ScanVarying.scan_ P)).1 frame p
  = predict_frames Predicted axis_and_angle_as_matrix reeke_indices P A
      (frames_from frame n) p.
Proof.
  set (offset := (get_array_range (ScanVarying.scan_ P)).1).
  set (last := (get_array_range (ScanVarying.scan_ P)).2).
  revert frame p. induction n as [|n IH]; intros frame p Hlo Hhi Hfit Hlen;
    [reflexivity|].
  specialize (Hhi ltac:(lia)). specialize (Hfit ltac:(lia)).
  rewrite frames_from_S. cbn [ScanVarying.for_ub_loop predict_frames].
  fold last.
  replace (frame <? last) with true by (symmetry; apply Z.ltb_lt; lia).
  rewrite !to_size_t_small by lia.
  replace (frame - offset <? Z.of_nat (length A) - 1) with true
    by (symmetry; apply Z.ltb_lt; lia).
  destruct (lookup_lt_is_Some_2 A (Z.to_nat (frame - offset)) ltac:(lia))
    as [Af E1].
  destruct (lookup_lt_is_Some_2 A (Z.to_nat (frame - offset + 1)) ltac:(lia))
    as [Af1 E2].
  unfold predict_frame. fold offset.
  replace (frame + 1 - offset) with (frame - offset + 1) by lia.
  rewrite E1, E2.
  unfold ScanVarying.append_for_image, ScanVarying.compute_setting_matrices,
    ScanVarying.generator_arguments, rotated.
  destruct (reeke_indices _) as [indices|]; [|reflexivity].
  apply IH; lia.
Qed.

End for_ub_facts.

(** C8 (amended): [for_ub(A)] fails its first assertion exactly when
    [A.size()] is not [num_images + 1].  Otherwise, the array range holding
    at most [num_images] frames, it is the prediction of the frames f of the
    array range one after the other, each from [A[f - offset]] and
    [A[f + 1 - offset]] premultiplied by the rotations at the angles of f
    and f + 1, with a generator built from the seven arguments
    (A1, A2, space_group_type, axis, s0, dmin, margin). *)
Theorem for_ub_frames (Predicted : Z) (space_group_type : Type)
    (axis_and_angle_as_matrix : vec3 float -> float -> mat3 float)
    (reeke_indices :
       list (ScanVarying.ctor_arg space_group_type) -> option (list miller_index))
    (P : ScanVarying.ScanVaryingReflectionPredictor space_group_type)
    (A : list (mat3 float)) :
  - 2 ^ 31 <= get_num_images (ScanVarying.scan_ P) < 2 ^ 31 - 1 ->
  Z.of_nat (length A) < 2 ^ 63 ->
  (ScanVarying.for_ub Predicted axis_and_angle_as_matrix reeke_indices P A
   = inl ScanVarying.size_assertion
   <-> Z.of_nat (length A) <> get_num_images (ScanVarying.scan_ P) + 1)
  /\ (Z.of_nat (length A) = get_num_images (ScanVarying.scan_ P) + 1 ->
      (get_array_range (ScanVarying.scan_ P)).2
      - (get_array_range (ScanVarying.scan_ P)).1
      <= get_num_images (ScanVarying.scan_ P) ->
      ScanVarying.for_ub Predicted axis_and_angle_as_matrix reeke_indices P A
      = predict_frames Predicted axis_and_angle_as_matrix reeke_indices P A
          (frames_from (get_array_range (ScanVarying.scan_ P)).1
             (Z.to_nat ((get_array_range (ScanVarying.scan_ P)).2
                        - (get_array_range (ScanVarying.scan_ P)).1)))
          empty_table).
Proof.
  intros Hnum Hlen. unfold ScanVarying.for_ub.
  assert (Z.of_nat (length A)
          = ScanVarying.to_size_t (get_num_images (ScanVarying.scan_ P) + 1)
          <-> Z.of_nat (length A) = get_num_images (ScanVarying.scan_ P) + 1)
    as Hsize.
  { assert (0 < 2 ^ 31) by reflexivity.
    assert (2 ^ 63 + 2 ^ 31 < 2 ^ 64) by reflexivity.
    destruct (Z.lt_ge_cases (get_num_images (ScanVarying.scan_ P) + 1) 0).
    - rewrite to_size_t_negative by lia. split; lia.
    - rewrite to_size_t_small by lia. reflexivity. }
  destruct (Z.eqb_spec (Z.of_nat (length A))
              (ScanVarying.to_size_t (get_num_images (ScanVarying.scan_ P) + 1)))
    as [E|E]; cbn [negb].
  - apply Hsize in E. split.
    + split; [|intros; lia]. intros H.
      exfalso. revert H. apply for_ub_loop_not_size_assertion.
    + intros _ Hfit. apply for_ub_loop_frames; lia.
  - split; [split; [intros _; intros E'; apply E, Hsize, E'|reflexivity]|].
    intros E'. exfalso. apply E, Hsize, E'.
Qed.

Lemma for_ub_frames_witness :
  ScanVarying.for_ub 1 rotation_at_zero example_reeke_indices
    example_varying_predictor [ub_unit; ub_unit]
  = predict_frames 1 rotation_at_zero example_reeke_indices
      example_varying_predictor [ub_unit; ub_unit] [0] empty_table
  /\ exists t : prediction_data,
       ScanVarying.for_ub 1 rotation_at_zero example_reeke_indices
         example_varying_predictor [ub_unit; ub_unit] = inr t
       /\ hkl t = [Vec3 (-1) 0 0; Vec3 1 0 0]
       /\ flags t = [1; 1].
Proof.
  destruct (for_ub_frames 1 nat rotation_at_zero example_reeke_indices
              example_varying_predictor [ub_unit; ub_unit]
              ltac:(cbn; lia) ltac:(cbn; lia)) as (_ & T).
  specialize (T eq_refl ltac:(cbn; lia)).
  split; [exact T|].
  eexists. split; [vm_compute; reflexivity|]. split; reflexivity.
Defined.

(** C8 (as stated) fails: the constructor call of [append_for_image] has
    seven arguments, the third of which is [space_group_type_]; it is not
    the call with the six arguments (A1, A2, axis, s0, dmin, margin). *)
Lemma generator_built_from_seven_arguments :
  ScanVarying.generator_arguments example_varying_predictor ub_unit ub_unit
  = [ScanVarying.arg_mat3 ub_unit; ScanVarying.arg_mat3 ub_unit;
     ScanVarying.arg_space_group_type 1%nat; ScanVarying.arg_vec3 axis_x;
     ScanVarying.arg_vec3 s0_z; ScanVarying.arg_double 1;
     ScanVarying.arg_size_t 1]
  /\ ScanVarying.generator_arguments example_varying_predictor ub_unit ub_unit
     <> six_arguments example_varying_predictor ub_unit ub_unit.
Proof.
  split; [reflexivity|]. intros H. apply (f_equal length) in H.
  cbn in H. discriminate H.
Qed.

(** * Further properties of the code *)

(** ** [sort2] *)

Lemma sort2_is_ordered (a : vec2 float) : ordered (reeke_detail.sort2 a).
Proof.
  unfold ordered, reeke_detail.sort2.
  destruct (a.2 <? a.1)%float eqn:E; cbn; [apply ltb_asym, E|exact E].
Qed.

(** X1: [sort2] puts a pair in order: in the result the second element is
    not below the first (a NaN compares below nothing, so a pair holding one
    is left as it is); the result is the pair or the pair swapped; an
    ordered pair is returned unchanged, so sorting twice is sorting once. *)
Theorem sort2_sorts (a : vec2 float) :
  ordered (reeke_detail.sort2 a)
  /\ (reeke_detail.sort2 a = a \/ reeke_detail.sort2 a = (a.2, a.1))
  /\ (ordered a -> reeke_detail.sort2 a = a)
  /\ reeke_detail.sort2 (reeke_detail.sort2 a) = reeke_detail.sort2 a.
Proof.
  split; [apply sort2_is_ordered|]. split.
  - unfold reeke_detail.sort2. destruct (_ <? _)%float; auto.
  - split.
    + unfold ordered, reeke_detail.sort2. intros ->. reflexivity.
    + pose proof (sort2_is_ordered a) as H. unfold ordered in H.
      unfold reeke_detail.sort2 at 1. rewrite H. reflexivity.
Qed.

(** ** The permutation of the axes *)

(** Decide a goal [(x <? y) = false] from comparisons in the context. *)
Ltac float_order :=
  match goal with
  | |- (?x <? ?x)%float = false => apply ltb_irrefl
  | H : (?x <? ?y)%float = false |- (?x <? ?y)%float = false => exact H
  | H : (?y <? ?x)%float = true |- (?x <? ?y)%float = false => apply ltb_asym, H
  | H1 : (?y <? ?z)%float = true, H2 : (?z <? ?x)%float = true
    |- (?x <? ?y)%float = false => apply ltb_asym, (ltb_trans _ _ _ H1 H2)
  | H1 : (?a <? ?x)%float = true, H2 : (?a <? ?y)%float = false
    |- (?x <? ?y)%float = false =>
      let G := fresh in
      destruct (x <? y)%float eqn:G; [|reflexivity];
      rewrite (ltb_trans _ _ _ H1 G) in H2; discriminate H2
  | H1 : (?y <? ?b)%float = true, H2 : (?x <? ?b)%float = false
    |- (?x <? ?y)%float = false =>
      let G := fresh in
      destruct (x <? y)%float eqn:G; [|reflexivity];
      rewrite (ltb_trans _ _ _ G H1) in H2; discriminate H2
  end.

(** X2: of the three columns of [ub], [permute_axes] puts first (p) one
    that no column exceeds in alignment with the source, and of the other
    two it puts last (r) one that the remaining one (q) does not exceed in
    alignment with the rotation axis. *)
Theorem permute_axes_closest_columns (ub : mat3 float) (axis source : vec3 float) :
  let idx := reeke_detail.index (reeke_detail.permute_axes ub axis source) in
  (forall j : nat, (j < 3)%nat ->
     (alignment ub source (v3_get idx 0) <? alignment ub source j)%float = false)
  /\ (alignment ub axis (v3_get idx 2) <? alignment ub axis (v3_get idx 1))%float
     = false.
Proof.
  cbv zeta. unfold reeke_detail.permute_axes, max_index, max_index_from.
  fold (column ub 0) (column ub 1) (column ub 2).
  fold (alignment ub source 0) (alignment ub source 1) (alignment ub source 2).
  destruct (alignment ub source 0 <? alignment ub source 1)%float eqn:C01;
    [destruct (alignment ub source 1 <? alignment ub source 2)%float eqn:C12
    |destruct (alignment ub source 0 <? alignment ub source 2)%float eqn:C02];
    cbn [v3_swap v3_get v3_set v3_0 v3_1 v3_2 reeke_detail.index];
    repeat match goal with
      |- context [normalize (Vec3 (m3_get ub ?i) (m3_get ub (?i + 3)) (m3_get ub (?i + 6)))] =>
        fold (column ub i) end;
    repeat match goal with
      |- context [PrimFloat.abs (dot (normalize (column ub ?i)) axis)] =>
        fold (alignment ub axis i) end;
    match goal with |- context [if (?a <? ?b)%float then _ else _] =>
      destruct (a <? b)%float eqn:Cr end;
    cbn [v3_swap v3_get v3_set v3_0 v3_1 v3_2 reeke_detail.index Nat.add];
    (split; [intros [|[|[|j]]] Hj; [| | |lia]|]); try float_order.
Qed.

(** X3: [permute_matrix] takes its permutation from the begin orientation;
    row [k] of [rlv_beg] and of [rlv_end] is column [index[k]] of [ub_beg]
    and of [ub_end], and the permutation matrix sends (p, q, r) to the
    (h, k, l) whose component [index[k]] is the [k]-th of (p, q, r). *)
Theorem permutation_follows_index (ub_beg ub_end : mat3 float)
    (axis source : vec3 float) (pqr : miller_index) :
  let pm := reeke_detail.permute_matrix ub_beg ub_end axis source in
  let idx := reeke_detail.index (reeke_detail.base pm) in
  let hkl := mat3_mul_index (reeke_detail.permutation (reeke_detail.base pm)) pqr in
  reeke_detail.base pm = reeke_detail.permute_axes ub_beg axis source
  /\ (forall k : nat, (k < 3)%nat ->
        get_row (reeke_detail.rlv_beg pm) k = column ub_beg (v3_get idx k)
        /\ get_row (reeke_detail.rlv_end pm) k = column ub_end (v3_get idx k)
        /\ v3_get hkl (v3_get idx k) = v3_get pqr k).
Proof.
  cbv zeta. split; [reflexivity|].
  unfold reeke_detail.permute_matrix.
  cbn [reeke_detail.base reeke_detail.rlv_beg reeke_detail.rlv_end].
  unfold reeke_detail.permute_axes.
  match goal with |- context [v3_swap _ 0 (max_index [?a; ?b; ?c])] =>
    pose proof (max_index_3 a b c) as Hp;
    destruct (max_index [a; b; c]) as [|[|[|pi]]]; [| | |lia] end;
  match goal with |- context [(max_index [?a; ?b] + 1)%nat] =>
    pose proof (max_index_2 a b) as Hr;
    destruct (max_index [a; b]) as [|[|ri]]; [| |lia] end;
  destruct pqr as [p q r];
  intros [|[|[|k]]] Hk; try lia; cbn; repeat split; lia.
Qed.

(** ** The constructors *)

Lemma permute_matrix_base (ub_beg ub_end : mat3 float)
    (axis source : vec3 float) :
  reeke_detail.base (reeke_detail.permute_matrix ub_beg ub_end axis source)
  = reeke_detail.permute_axes ub_beg axis source.
Proof.
  unfold reeke_detail.permute_matrix. cbn [reeke_detail.base]. reflexivity.
Qed.

(** What [compute_p_limits] leaves of a model given by its members, and
    when its assertion fails. *)
Lemma compute_p_limits_of_members (c_sin c_asin : float -> float)
    (perm : mat3 Z) (source axis : vec3 float) (cp0 : list float)
    (p_lim : vec2 Z) (dstarmax dstarmax2 wavelength wavelength_sq : float)
    (margin : Z) (eb ee rb re : vec2 float) (rlv_beg rlv_end : mat3 float) :
  let m0 :=
    {| permutation_ := perm; source_ := source; axis_ := axis; cp_ := cp0;
       p_lim_ := p_lim; dstarmax_ := dstarmax; dstarmax2_ := dstarmax2;
       wavelength_ := wavelength; wavelength_sq_ := wavelength_sq;
       margin_ := margin; ewald_p_lim_beg_ := eb; ewald_p_lim_end_ := ee;
       res_p_lim_beg_ := rb; res_p_lim_end_ := re |} in
  (compute_p_limits c_sin c_asin m0 rlv_beg rlv_end = None
   <-> ((0.5 * wavelength * dstarmax <=? 1)%float
        && (-1 <=? 0.5 * wavelength * dstarmax)%float) = false)
  /\ forall m : ReekeModel,
       compute_p_limits c_sin c_asin m0 rlv_beg rlv_end = Some m ->
       permutation_ m = perm /\ source_ m = source /\ axis_ m = axis
       /\ cp_ m = cp0 /\ dstarmax_ m = dstarmax /\ dstarmax2_ m = dstarmax2
       /\ wavelength_ m = wavelength /\ margin_ m = margin
       /\ ordered (ewald_p_lim_beg_ m) /\ ordered (ewald_p_lim_end_ m)
       /\ ordered (res_p_lim_beg_ m) /\ ordered (res_p_lim_end_ m).
Proof.
  intros m0. unfold compute_p_limits, compute_ewald_sphere_p_limits,
    compute_resolution_p_limits.
  cbn [wavelength_ dstarmax_ m0].
  destruct (_ && _); split.
  - split; discriminate.
  - intros m H.
    apply (f_equal (fun o => match o with Some x => x | None => m0 end)) in H.
    rewrite <- H.
    cbn [permutation_ source_ axis_ cp_ dstarmax_ dstarmax2_ wavelength_
         margin_ ewald_p_lim_beg_ ewald_p_lim_end_ res_p_lim_beg_
         res_p_lim_end_ set_p_limits m0].
    repeat (split; [reflexivity|]). repeat split; apply sort2_is_ordered.
  - split; reflexivity.
  - discriminate.
Qed.

Lemma ReekeModel_ctor_members (c_sin c_asin : float -> float)
    (ub_beg ub_end : mat3 float) (axis source : vec3 float) (dmin : float)
    (margin : Z) :
  (ReekeModel_ctor c_sin c_asin ub_beg ub_end axis source dmin margin = None
   <-> sin_theta_in_range source dmin = false)
  /\ forall m : ReekeModel,
  ReekeModel_ctor c_sin c_asin ub_beg ub_end axis source dmin margin = Some m ->
  source_ m = source /\ axis_ m = axis /\ margin_ m = margin
  /\ wavelength_ m = (1 / length3 source)%float
  /\ dstarmax_ m = (1 / dmin)%float
  /\ dstarmax2_ m = (1 / dmin * (1 / dmin))%float
  /\ cp_ m
     = reeke_detail.compute_constant_with_p
         (reeke_detail.rlv_beg
            (reeke_detail.permute_matrix ub_beg ub_end axis source))
         (reeke_detail.rlv_end
            (reeke_detail.permute_matrix ub_beg ub_end axis source))
         axis source
  /\ permutation m
     = reeke_detail.permutation (reeke_detail.permute_axes ub_beg axis source)
  /\ ordered (ewald_p_lim_beg_ m) /\ ordered (ewald_p_lim_end_ m)
  /\ ordered (res_p_lim_beg_ m) /\ ordered (res_p_lim_end_ m).
Proof.
  unfold ReekeModel_ctor, sin_theta_in_range, sin_theta, permutation. cbv zeta.
  match goal with |- context [compute_p_limits _ _ (Build_ReekeModel ?a1 ?a2 ?a3 ?a4 ?a5 ?a6 ?a7 ?a8 ?a9 ?a10 ?a11 ?a12 ?a13 ?a14) ?rb ?re] =>
    destruct (compute_p_limits_of_members c_sin c_asin a1 a2 a3 a4 a5 a6 a7 a8 a9 a10 a11 a12 a13 a14 rb re) as [Hnone Hsome]
  end.
  split; [exact Hnone|]. intros m H.
  destruct (Hsome m H) as (A1 & A2 & A3 & A4 & A5 & A6 & A7 & A8 & A9).
  rewrite permute_matrix_base in A1.
  repeat (split; [assumption|]). exact A9.
Qed.

(** X4: the constructor of [ReekeModel] throws exactly when
    [0.5 * wavelength * dstarmax], computed with wavelength [1 / |source|]
    and [dstarmax = 1 / dmin], is not within [-1, 1] (a NaN is not);
    otherwise it stores the source, the axis and the margin it was given,
    those values of the wavelength and of dstarmax, 21 constants [cp], and
    the permutation of the begin orientation.  The constructor of
    [ReekeIndexGenerator] builds its model with the source [-s0]. *)
Theorem ReekeModel_ctor_assertion (c_sin c_asin : float -> float)
    (ub_beg ub_end : mat3 float) (axis source s0 : vec3 float) (dmin : float)
    (margin : Z) :
  (ReekeModel_ctor c_sin c_asin ub_beg ub_end axis source dmin margin = None
   <-> sin_theta_in_range source dmin = false)
  /\ (forall m : ReekeModel,
        ReekeModel_ctor c_sin c_asin ub_beg ub_end axis source dmin margin = Some m ->
        source_ m = source /\ axis_ m = axis /\ margin_ m = margin
        /\ wavelength_ m = (1 / length3 source)%float
        /\ dstarmax_ m = (1 / dmin)%float
        /\ length (cp_ m) = 21%nat
        /\ permutation m
           = reeke_detail.permutation
               (reeke_detail.permute_axes ub_beg axis source))
  /\ (ReekeIndexGenerator_ctor c_sin c_asin ub_beg ub_end axis s0 dmin margin = None
      <-> sin_theta_in_range (neg3 s0) dmin = false)
  /\ forall g : ReekeIndexGenerator,
       ReekeIndexGenerator_ctor c_sin c_asin ub_beg ub_end axis s0 dmin margin = Some g ->
       source_ (model_ g) = neg3 s0.
Proof.
  destruct (ReekeModel_ctor_members c_sin c_asin ub_beg ub_end axis source dmin
              margin) as [Hnone Hsome].
  destruct (ReekeModel_ctor_members c_sin c_asin ub_beg ub_end axis (neg3 s0)
              dmin margin) as [Hnone' Hsome'].
  split; [exact Hnone|]. split.
  { intros m H.
    destruct (Hsome m H) as (Hs & Ha & Hm & Hw & Hd & _ & Hcp & Hperm & _).
    rewrite Hcp. repeat (split; [assumption|]). split; [reflexivity|exact Hperm]. }
  unfold ReekeIndexGenerator_ctor.
  destruct (ReekeModel_ctor c_sin c_asin ub_beg ub_end axis (neg3 s0) dmin margin)
    as [m|].
  - split; [split; [discriminate|]|].
    + intros H. apply Hnone' in H. discriminate H.
    + intros g [= <-]. cbn [model_]. apply (Hsome' m eq_refl).
  - split; [split; [intros _; apply Hnone'; reflexivity|reflexivity]|discriminate].
Qed.

(** X5: for a constructed model, each of the four pairs that
    [ewald_sphere_p_limits()] and [resolution_p_limits()] return is in
    order: its second element is not below its first. *)
Theorem p_limit_pairs_ordered (c_sin c_asin : float -> float)
    (ub_beg ub_end : mat3 float) (axis source : vec3 float) (dmin : float)
    (margin : Z) (m : ReekeModel) :
  ReekeModel_ctor c_sin c_asin ub_beg ub_end axis source dmin margin = Some m ->
  ordered (ewald_sphere_p_limits m).1 /\ ordered (ewald_sphere_p_limits m).2
  /\ ordered (resolution_p_limits m).1 /\ ordered (resolution_p_limits m).2.
Proof.
  intros H.
  destruct (proj2 (ReekeModel_ctor_members _ _ _ _ _ _ _ _) m H)
    as (_ & _ & _ & _ & _ & _ & _ & _ & A).
  exact A.
Qed.

Lemma p_limit_pairs_ordered_witness :
  exists m : ReekeModel,
    ReekeModel_ctor libm_sin libm_asin ub_unit ub_half_turn axis_x (neg3 s0_z) 1 1
    = Some m
    /\ ewald_sphere_p_limits m = ((-2, 0), (-0, 2))%float
    /\ resolution_p_limits m = ((0.5, 0.5), (0.5, 0.5))%float
    /\ ordered (ewald_sphere_p_limits m).1 /\ ordered (ewald_sphere_p_limits m).2
    /\ ordered (resolution_p_limits m).1 /\ ordered (resolution_p_limits m).2.
Proof.
  pose proof (p_limit_pairs_ordered libm_sin libm_asin ub_unit ub_half_turn
                axis_x (neg3 s0_z) 1 1) as T.
  take (ReekeModel_ctor libm_sin libm_asin ub_unit ub_half_turn axis_x
          (neg3 s0_z) 1 1) m.
  exists m. split; [reflexivity|].
  split; [subst m; vm_compute; reflexivity|].
  split; [subst m; vm_compute; reflexivity|].
  exact (T m eq_refl).
Defined.

(** ** The resolution limits *)

(** The quantities [cp] that the resolution limits read come from the
    begin orientation alone. *)
Lemma cp_from_begin (rlv_beg rlv_end rlv_end' : mat3 float)
    (axis source : vec3 float) (i : nat) :
  In i [0; 5; 8; 9; 10; 11; 12; 13; 14]%nat ->
  reeke_detail.elt
    (reeke_detail.compute_constant_with_p rlv_beg rlv_end axis source) i
  = reeke_detail.elt
      (reeke_detail.compute_constant_with_p rlv_beg rlv_end' axis source) i.
Proof.
  intros H. cbn [In] in H.
  repeat (destruct H as [<-|H]; [reflexivity|]). destruct H.
Qed.

Lemma resolution_limits_agree
    (solve_quad : float -> float -> float -> list float) (m m' : ReekeModel) :
  margin_ m = margin_ m' -> dstarmax2_ m = dstarmax2_ m' ->
  (forall i : nat, In i [0; 5; 8; 9; 10; 11; 12; 13; 14]%nat -> cp m i = cp m' i) ->
  (forall p : Z,
     resolution_q_limits solve_quad m p = resolution_q_limits solve_quad m' p)
  /\ (forall p q : float,
        resolution_r_limits solve_quad m p q (cq_of m p)
        = resolution_r_limits solve_quad m' p q (cq_of m' p)).
Proof.
  intros Hm Hd Hi. split.
  - intros p. unfold resolution_q_limits, widened_extent. rewrite Hm, Hd.
    rewrite (Hi 9%nat), (Hi 8%nat), (Hi 5%nat), (Hi 0%nat) by (cbn; tauto).
    reflexivity.
  - intros p q. unfold resolution_r_limits, widened_extent, cq_of.
    rewrite Hm, Hd. cbn [reeke_detail.elt nth].
    rewrite (Hi 10%nat), (Hi 12%nat), (Hi 14%nat), (Hi 0%nat), (Hi 11%nat),
      (Hi 13%nat) by (cbn; tauto).
    reflexivity.
Qed.

Lemma rlv_beg_ignores_end (ub_beg ub_end ub_end' : mat3 float)
    (axis source : vec3 float) :
  reeke_detail.rlv_beg (reeke_detail.permute_matrix ub_beg ub_end axis source)
  = reeke_detail.rlv_beg (reeke_detail.permute_matrix ub_beg ub_end' axis source).
Proof.
  unfold reeke_detail.permute_matrix. cbn [reeke_detail.rlv_beg]. reflexivity.
Qed.

(** X6: the resolution limits do not read the end orientation: two models
    constructed with the same arguments but for [ub_end] have the same
    permutation, the same [resolution_q_limits(p)] and the same
    [resolution_r_limits(p, q, cq)]. *)
Theorem resolution_limits_ignore_end_orientation
    (c_sin c_asin : float -> float)
    (solve_quad : float -> float -> float -> list float)
    (ub_beg ub_end ub_end' : mat3 float) (axis source : vec3 float)
    (dmin : float) (margin : Z) (m m' : ReekeModel) :
  ReekeModel_ctor c_sin c_asin ub_beg ub_end axis source dmin margin = Some m ->
  ReekeModel_ctor c_sin c_asin ub_beg ub_end' axis source dmin margin = Some m' ->
  permutation m = permutation m'
  /\ (forall p : Z,
        resolution_q_limits solve_quad m p = resolution_q_limits solve_quad m' p)
  /\ (forall p q : float,
        resolution_r_limits solve_quad m p q (cq_of m p)
        = resolution_r_limits solve_quad m' p q (cq_of m' p)).
Proof.
  intros H H'.
  destruct (proj2 (ReekeModel_ctor_members _ _ _ _ _ _ _ _) m H)
    as (_ & _ & Hm & _ & _ & Hd & Hcp & Hperm & _).
  destruct (proj2 (ReekeModel_ctor_members _ _ _ _ _ _ _ _) m' H')
    as (_ & _ & Hm' & _ & _ & Hd' & Hcp' & Hperm' & _).
  rewrite (rlv_beg_ignores_end ub_beg ub_end ub_end') in Hcp.
  split; [rewrite Hperm, Hperm'; reflexivity|].
  apply resolution_limits_agree; [congruence|congruence|].
  intros i Hin. unfold cp. rewrite Hcp, Hcp'.
  exact (cp_from_begin _ _ _ axis source i Hin).
Qed.

Lemma resolution_limits_ignore_end_orientation_witness :
  exists m m' : ReekeModel,
    ReekeModel_ctor libm_sin libm_asin ub_unit ub_unit axis_x (neg3 s0_z) 1 1
    = Some m
    /\ ReekeModel_ctor libm_sin libm_asin ub_unit ub_half_turn axis_x
         (neg3 s0_z) 1 1 = Some m'
    /\ p_limits m = (-1, 2) /\ p_limits m' = (-3, 2)
    /\ forall p : Z,
         resolution_q_limits spec_solve_quad m p
         = resolution_q_limits spec_solve_quad m' p.
Proof.
  pose proof (resolution_limits_ignore_end_orientation libm_sin libm_asin
                spec_solve_quad ub_unit ub_unit ub_half_turn axis_x
                (neg3 s0_z) 1 1) as T.
  take (ReekeModel_ctor libm_sin libm_asin ub_unit ub_unit axis_x (neg3 s0_z) 1 1) m.
  take (ReekeModel_ctor libm_sin libm_asin ub_unit ub_half_turn axis_x
          (neg3 s0_z) 1 1) m'.
  exists m, m'. split; [reflexivity|]. split; [reflexivity|].
  split; [subst m; vm_compute; reflexivity|].
  split; [subst m'; vm_compute; reflexivity|].
  exact (proj1 (proj2 (T m m' eq_refl eq_refl))).
Defined.

(** ** [q_limits] and [r_limits], further *)

Lemma std_sort_4 (a b c d : Z) :
  exists x0 x1 x2 x3 : Z,
    std_sort [a; b; c; d] = [x0; x1; x2; x3]
    /\ x0 <= x1 <= x2 /\ x2 <= x3
    /\ Permutation [x0; x1; x2; x3] [a; b; c; d].
Proof.
  pose proof (std_sort_perm [a; b; c; d]) as HP.
  pose proof (std_sort_sorted [a; b; c; d]) as HS.
  pose proof (Permutation_length HP) as HL.
  destruct (std_sort [a; b; c; d]) as [|x0 [|x1 [|x2 [|x3 [|x4 l]]]]];
    try discriminate HL.
  exists x0, x1, x2, x3. split; [reflexivity|]. split; [|split; [|exact HP]].
  - inversion HS as [|? ? HS1 H01]; subst. inversion H01; subst.
    inversion HS1 as [|? ? HS2 H12]; subst. inversion H12; subst. lia.
  - inversion HS as [|? ? HS1 _]; subst. inversion HS1 as [|? ? HS2 _]; subst.
    inversion HS2 as [|? ? _ H23]; subst. inversion H23; subst. lia.
Qed.

(** X7: [q_limits(p)] is (0,0) or a range that holds at least one q: its
    lower bound is below its upper bound. *)
Theorem q_limits_not_inverted
    (solve_quad : float -> float -> float -> list float)
    (m : ReekeModel) (p : Z) :
  q_limits solve_quad m p = (0, 0)
  \/ (q_limits solve_quad m p).1 < (q_limits solve_quad m p).2.
Proof.
  unfold q_limits.
  destruct (resolution_q_limits solve_quad m p) as [r|]; [|left; reflexivity].
  destruct (ewald_sphere_q_limits solve_quad m p) as [e|]; [|left; reflexivity].
  right. destruct (std_sort_4 e.1 e.2 r.1 r.2) as (x0 & x1 & x2 & x3 & -> & H & _).
  cbn. lia.
Qed.

Lemma std_sort_4_cases (a b c d : Z) :
  a <= b -> c <= d ->
  std_sort [a; b; c; d]
  = if d <? a then [c; d; a; b]
    else if b <? c then [a; b; c; d]
    else [Z.min a c; Z.max a c; Z.min b d; Z.max b d]
         .
Proof.
  intros Hab Hcd. unfold std_sort. cbn [fold_right sort_insert].
  repeat match goal with
         | |- context [?x <=? ?y] => destruct (Z.leb_spec x y); cbn [sort_insert]
         | |- context [?x <? ?y] => destruct (Z.ltb_spec x y)
         end; try lia;
    repeat f_equal; lia.
Qed.

(** X8: when the resolution range and the Ewald range of q at p are both
    present and each in order, [q_limits(p)] is their intersection (made
    closed-open) if they overlap; if they are disjoint it is the gap between
    them, from the end of the lower range to the start of the upper one. *)
Theorem q_limits_intersection_or_gap
    (solve_quad : float -> float -> float -> list float)
    (m : ReekeModel) (p : Z) (res ewald : vec2 Z) :
  resolution_q_limits solve_quad m p = Some res ->
  ewald_sphere_q_limits solve_quad m p = Some ewald ->
  res.1 <= res.2 -> ewald.1 <= ewald.2 ->
  q_limits solve_quad m p
  = if res.2 <? ewald.1 then (res.2, ewald.1 + 1)
    else if ewald.2 <? res.1 then (ewald.2, res.1 + 1)
    else (Z.max ewald.1 res.1, Z.min ewald.2 res.2 + 1).
Proof.
  intros Hr He Hres Hew. unfold q_limits. rewrite Hr, He.
  rewrite (std_sort_4_cases _ _ _ _ Hew Hres).
  destruct (res.2 <? ewald.1); [reflexivity|].
  destruct (ewald.2 <? res.1); reflexivity.
Qed.

Lemma q_limits_intersection_or_gap_witness :
  exists g : ReekeIndexGenerator,
    generator_x = Some g
    /\ resolution_q_limits spec_solve_quad (model_ g) 0 = Some (-2, 2)
    /\ ewald_sphere_q_limits spec_solve_quad (model_ g) 0 = Some (-1, 1)
    /\ q_limits spec_solve_quad (model_ g) 0 = (-1, 2).
Proof.
  take generator_x g. exists g. split; [reflexivity|].
  assert (resolution_q_limits spec_solve_quad (model_ g) 0 = Some (-2, 2)) as Hr
    by (subst g; vm_compute; reflexivity).
  assert (ewald_sphere_q_limits spec_solve_quad (model_ g) 0 = Some (-1, 1)) as He
    by (subst g; vm_compute; reflexivity).
  split; [exact Hr|]. split; [exact He|].
  exact (q_limits_intersection_or_gap spec_solve_quad (model_ g) 0 (-2, 2) (-1, 1)
           Hr He ltac:(cbn; lia) ltac:(cbn; lia)).
Defined.

Lemma restrict_r_lim_within (res e : vec2 Z) :
  Forall (fun x : vec2 Z => within res x /\ x.1 < x.2) (restrict_r_lim res e).
Proof.
  unfold restrict_r_lim, within.
  destruct (e.1 <? res.1) eqn:A, (res.2 <? e.2) eqn:B;
    match goal with |- context [if ?lo <? ?hi then _ else _] =>
      destruct (Z.ltb_spec lo hi) end;
    repeat constructor; cbn; try lia.
  all: try (apply Z.ltb_lt in A); try (apply Z.ltb_ge in A);
       try (apply Z.ltb_lt in B); try (apply Z.ltb_ge in B); lia.
Qed.

Lemma order_ranges_within (res : vec2 Z) (l : list (vec2 Z)) :
  Forall (fun x : vec2 Z => within res x /\ x.1 < x.2) l ->
  Forall (within res) (order_ranges l).
Proof.
  intros H. destruct l as [|a [|b [|c l]]]; cbn [order_ranges].
  - constructor.
  - inversion H as [|? ? [Ha _] _]; subst. constructor; [exact Ha|constructor].
  - inversion H as [|? ? [Ha Ha'] H']; subst.
    inversion H' as [|? ? [Hb Hb'] _]; subst.
    unfold within in *.
    destruct (b.1 <? a.1);
      match goal with |- context [if ?x <? ?y then _ else _] =>
        destruct (Z.ltb_spec x y) end;
      repeat constructor; cbn; lia.
  - eapply Forall_impl; [exact H|]. cbn. tauto.
Qed.

(** X9: [r_limits(p, q)] returns no interval when the resolution quadratic
    has no root; otherwise every interval it returns lies within the
    resolution range [res]: it starts at [res[0]] or later and ends at
    [res[1] + 1] or earlier. *)
Theorem r_limits_within_resolution
    (solve_quad : float -> float -> float -> list float)
    (m : ReekeModel) (p q : float) :
  match resolution_r_limits solve_quad m p q (cq_of m p) with
  | None => r_limits solve_quad m p q = []
  | Some res => Forall (within res) (r_limits solve_quad m p q)
  end.
Proof.
  unfold r_limits. fold (cq_of m p).
  destruct (resolution_r_limits solve_quad m p q (cq_of m p)) as [res|];
    [|reflexivity].
  apply order_ranges_within.
  induction (ewald_sphere_r_limits solve_quad m p q (cq_of m p)) as [|e l IH];
    cbn [flat_map]; [constructor|].
  apply Forall_app. split; [apply restrict_r_lim_within|exact IH].
Qed.

(** ** The traversal as nested loops *)

Lemma zrange_nil (lo hi : Z) : hi <= lo -> zrange lo hi = [].
Proof.
  intros H. unfold zrange. replace (Z.to_nat (hi - lo)) with 0%nat by lia.
  reflexivity.
Qed.

Lemma zrange_cons (lo hi : Z) : lo < hi -> zrange lo hi = lo :: zrange (lo + 1) hi.
Proof.
  intros H. unfold zrange.
  replace (Z.to_nat (hi - lo)) with (S (Z.to_nat (hi - (lo + 1)))) by lia.
  cbn [seq map]. f_equal; [lia|].
  rewrite <- seq_shift, map_map. apply map_ext. intros k. lia.
Qed.

Lemma in_zrange (lo hi x : Z) : In x (zrange lo hi) <-> lo <= x < hi.
Proof.
  unfold zrange. rewrite in_map_iff. split.
  - intros (k & <- & Hk). apply in_seq in Hk. lia.
  - intros H. exists (Z.to_nat (x - lo)). split; [lia|]. apply in_seq. lia.
Qed.

Section traversal_facts.

Variable solve_quad : float -> float -> float -> list float.
Variable g : ReekeIndexGenerator.

Import statics.

Abbreviation at_q_g := (at_q solve_quad (model_ g)).
Abbreviation at_p_g := (at_p solve_quad (model_ g)).
Abbreviation rest_g := (rest solve_quad (model_ g)).

Lemma at_r_end (s : statics.t) : r s !! ridx s = None -> at_r s = [].
Proof.
  intros H. unfold at_r. rewrite drop_ge; [reflexivity|].
  apply lookup_ge_None_1, H.
Qed.

Lemma at_r_skip (s : statics.t) (lo hi : Z) :
  r s !! ridx s = Some (lo, hi) -> hi <= lo -> at_r s = at_r (incr_ridx s).
Proof.
  intros H Hle. unfold at_r, incr_ridx. cbn [p q r ridx set_ridx].
  rewrite (drop_S _ _ _ H). cbn [r_indices flat_map].
  unfold r_interval_indices. cbn [fst snd]. rewrite (zrange_nil _ _ Hle).
  reflexivity.
Qed.

Lemma at_r_cons (s : statics.t) (lo hi : Z) :
  r s !! ridx s = Some (lo, hi) -> lo < hi ->
  at_r s
  = (if nonzero (Vec3 (p s).1 (q s).1 lo) then [Vec3 (p s).1 (q s).1 lo] else [])
    ++ at_r (incr_r s).
Proof.
  intros H Hlt. pose proof (incr_r_lookup _ _ _ H) as H'.
  destruct (incr_r_frame s) as (Hp & Hq & Hi & _ & _).
  unfold at_r. rewrite Hp, Hq, Hi in *.
  rewrite (drop_S _ _ _ H), (drop_S _ _ _ H').
  unfold incr_r. rewrite H. cbn [r set_r].
  rewrite drop_insert_lt by lia.
  cbn [r_indices flat_map]. unfold r_interval_indices. cbn [fst snd].
  rewrite (zrange_cons _ _ Hlt). cbn [map List.filter].
  destruct (nonzero _); rewrite <- ?app_assoc; reflexivity.
Qed.

Lemma r_loop_spec (n : nat) (s s' : statics.t) (o : option miller_index) :
  (r_turns s <= n)%nat ->
  r_loop n s = (o, s') ->
  match o with
  | Some h => at_r s = h :: at_r (incr_r s')
  | None => at_r s = at_r (incr_ridx s')
  end.
Proof.
  revert s. induction n as [|n IH]; intros s Hn; cbn [r_loop].
  - intros [= <- <-]. unfold r_turns, turns in Hn.
    destruct (r s !! ridx s) as [[lo hi]|] eqn:E.
    + apply (at_r_skip _ _ _ E). cbn in Hn. lia.
    + rewrite (at_r_end _ E). symmetry. apply at_r_end.
      apply lookup_ge_None_2. apply lookup_ge_None_1 in E. cbn. lia.
  - destruct (r s !! ridx s) as [[lo hi]|] eqn:E.
    + destruct (Z.ltb_spec lo hi) as [C|C].
      * pose proof (at_r_cons _ _ _ E C) as A. unfold nonzero in A.
        destruct (negb _).
        -- intros [= <- <-]. exact A.
        -- intros Hrec. cbn [app] in A. rewrite A. apply IH; [|exact Hrec].
           pose proof (incr_r_lookup _ _ _ E) as E'.
           unfold r_turns in *. rewrite E'. rewrite E in Hn.
           unfold turns in *. cbn in *. lia.
      * intros [= <- <-]. apply (at_r_skip _ _ _ E C).
    + intros [= <- <-]. rewrite (at_r_end _ E). symmetry. apply at_r_end.
      apply lookup_ge_None_2. apply lookup_ge_None_1 in E. cbn. lia.
Qed.

Lemma ridx_loop_spec (n : nat) (s s' : statics.t) (o : option miller_index) :
  (ridx_turns s <= n)%nat ->
  ridx_loop n s = (o, s') ->
  match o with
  | Some h => at_r s = h :: at_r (incr_r s')
  | None => at_r s = []
  end.
Proof.
  revert s. induction n as [|n IH]; intros s Hn; cbn [ridx_loop].
  - intros [= <- <-]. apply at_r_end, lookup_ge_None_2.
    unfold ridx_turns in Hn. lia.
  - destruct (Nat.ltb_spec (ridx s) (length (r s))) as [C|C].
    + destruct (r_loop (r_turns s) s) as [[h|] s1] eqn:E.
      * intros [= <- <-]. apply (r_loop_spec _ _ _ _ (Nat.le_refl _) E).
      * intros Hrec. rewrite (r_loop_spec _ _ _ _ (Nat.le_refl _) E).
        apply IH; [|exact Hrec]. apply r_loop_frame in E.
        destruct E as (_ & _ & Hi & _ & Hl). unfold ridx_turns in *. cbn. lia.
    + intros [= <- <-]. apply at_r_end, lookup_ge_None_2, C.
Qed.

Lemma at_q_ext (s1 s2 : statics.t) :
  p s1 = p s2 -> q s1 = q s2 -> at_q_g s1 = at_q_g s2.
Proof. unfold at_q. intros -> ->. reflexivity. Qed.

Lemma at_p_ext (s1 s2 : statics.t) : p s1 = p s2 -> at_p_g s1 = at_p_g s2.
Proof. unfold at_p. intros ->. reflexivity. Qed.

Lemma q_loop_spec (n : nat) (s s' : statics.t) (o : option miller_index) :
  (turns (q s) <= n)%nat ->
  q_loop solve_quad g n s = (o, s') ->
  match o with
  | Some h => at_q_g s = h :: at_r (incr_r s') ++ at_q_g (incr_q s')
  | None => at_q_g s = []
  end.
Proof.
  revert s. induction n as [|n IH]; intros s Hn; cbn [q_loop].
  - intros [= <- <-]. unfold at_q. rewrite zrange_nil; [reflexivity|].
    unfold turns in Hn. lia.
  - destruct (Z.ltb_spec (q s).1 (q s).2) as [C|C].
    + set (s0 := set_ridx (set_r s _) 0).
      assert (at_q_g s = at_r s0 ++ at_q_g (incr_q s)) as A.
      { unfold at_q at 1. rewrite (zrange_cons _ _ C). reflexivity. }
      destruct (ridx_loop (ridx_turns s0) s0) as [[h|] s1] eqn:E;
        pose proof (ridx_loop_spec _ _ _ _ (Nat.le_refl _) E) as B;
        apply ridx_loop_frame in E; cbn [p q state s0 set_ridx set_r] in E;
        destruct E as (Hp & Hq & _).
      * intros [= <- <-]. rewrite A, B. cbn [app]. do 2 f_equal.
        apply at_q_ext; cbn; congruence.
      * intros Hrec. rewrite A, B. cbn [app].
        rewrite <- (at_q_ext (incr_q s1) (incr_q s)) by (cbn; congruence).
        apply IH; [|exact Hrec]. unfold turns in *. cbn. rewrite Hq. lia.
    + intros [= <- <-]. unfold at_q. rewrite zrange_nil; [reflexivity|lia].
Qed.

Lemma p_loop_spec (n : nat) (s s' : statics.t) (o : option miller_index) :
  (turns (p s) <= n)%nat ->
  p_loop solve_quad g n s = (o, s') ->
  match o with
  | Some h => at_p_g s = h :: rest_g s'
  | None => at_p_g s = []
  end.
Proof.
  revert s. induction n as [|n IH]; intros s Hn; cbn [p_loop].
  - intros [= <- <-]. unfold at_p. rewrite zrange_nil; [reflexivity|].
    unfold turns in Hn. lia.
  - destruct (Z.ltb_spec (p s).1 (p s).2) as [C|C].
    + set (s0 := set_q s _).
      assert (at_p_g s = at_q_g s0 ++ at_p_g (incr_p s)) as A.
      { unfold at_p at 1. rewrite (zrange_cons _ _ C). reflexivity. }
      destruct (q_loop solve_quad g (turns (q s0)) s0) as [[h|] s1] eqn:E;
        pose proof (q_loop_spec _ _ _ _ (Nat.le_refl _) E) as B;
        apply q_loop_frame in E; cbn [p state s0 set_q] in E;
        destruct E as (Hp & _).
      * intros [= <- <-]. rewrite A, B. unfold rest. cbn [app].
        rewrite <- !app_assoc. do 3 f_equal. apply at_p_ext; cbn; congruence.
      * intros Hrec. rewrite A, B. cbn [app].
        rewrite <- (at_p_ext (incr_p s1) (incr_p s)) by (cbn; congruence).
        apply IH; [|exact Hrec]. unfold turns in *. cbn. rewrite Hp. lia.
    + intros [= <- <-]. unfold at_p. rewrite zrange_nil; [reflexivity|lia].
Qed.


Lemma resume_spec (s s' : statics.t) (o : option miller_index) :
  resume solve_quad g s = (o, s') ->
  match o with
  | Some h => rest_g s = h :: rest_g s'
  | None => rest_g s = []
  end.
Proof.
  unfold resume, rest.
  destruct (incr_r_frame s) as (Hp0 & Hq0 & _).
  destruct (r_loop _ (incr_r s)) as [[h|] s1] eqn:E1;
    pose proof (r_loop_spec _ _ _ _ (Nat.le_refl _) E1) as B1;
    apply r_loop_frame in E1; destruct E1 as (Hp1 & Hq1 & _).
  { intros [= <- <-]. rewrite B1. cbn [app]. do 2 f_equal.
    f_equal; [apply at_q_ext|apply at_p_ext]; cbn; congruence. }
  destruct (ridx_loop _ (incr_ridx s1)) as [[h|] s2] eqn:E2;
    pose proof (ridx_loop_spec _ _ _ _ (Nat.le_refl _) E2) as B2;
    apply ridx_loop_frame in E2; cbn [p q incr_ridx set_ridx] in E2;
    destruct E2 as (Hp2 & Hq2 & _).
  { intros [= <- <-]. rewrite B1, B2. cbn [app]. do 2 f_equal.
    f_equal; [apply at_q_ext|apply at_p_ext]; cbn; congruence. }
  rewrite B1, B2. cbn [app].
  rewrite <- (at_q_ext (incr_q s2) (incr_q s)) by (cbn; congruence).
  destruct (q_loop _ _ _ (incr_q s2)) as [[h|] s3] eqn:E3;
    pose proof (q_loop_spec _ _ _ _ (Nat.le_refl _) E3) as B3;
    apply q_loop_frame in E3; cbn [p incr_q set_q] in E3;
    destruct E3 as (Hp3 & _).
  { intros [= <- <-]. rewrite B3. cbn [app]. rewrite <- !app_assoc.
    do 3 f_equal. apply at_p_ext; cbn; congruence. }
  rewrite B3. cbn [app].
  rewrite <- (at_p_ext (incr_p s3) (incr_p s)) by (cbn; congruence).
  intros E4. pose proof (p_loop_spec _ _ _ _ (Nat.le_refl _) E4) as B4.
  destruct o; exact B4.
Qed.

(** One call of [next_pqr]: it returns the first pending triple, and
    (0,0,0) when there is none. *)
Lemma next_pqr_pending (s : statics.t) :
  match pending solve_quad g s with
  | [] => (next_pqr solve_quad g s).1 = zero_index
          /\ pending solve_quad g (next_pqr solve_quad g s).2
             = pqr_indices solve_quad (model_ g)
  | h :: hs => (next_pqr solve_quad g s).1 = h /\ is_zero h = false
               /\ pending solve_quad g (next_pqr solve_quad g s).2 = hs
  end.
Proof.
  unfold next_pqr, pending.
  destruct (switch_state solve_quad g s) as [[h|] s'] eqn:E.
  - pose proof (switch_state_some _ _ _ _ _ E) as [Hz Hs].
    cbn [fst snd]. rewrite Hs. unfold switch_state in E.
    destruct (state s).
    + apply p_loop_spec in E; [|apply Nat.le_refl].
      unfold at_p in E. cbn [p set_p] in E. unfold pqr_indices. rewrite E. auto.
    + apply resume_spec in E. rewrite E. auto.
  - cbn [fst snd state set_state]. unfold switch_state in E.
    destruct (state s).
    + apply p_loop_spec in E; [|apply Nat.le_refl].
      unfold at_p in E. cbn [p set_p] in E. unfold pqr_indices. rewrite E. auto.
    + apply resume_spec in E. rewrite E. auto.
Qed.

End traversal_facts.

Lemma mat3_mul_index_zero (m : mat3 Z) : mat3_mul_index m zero_index = zero_index.
Proof. unfold mat3_mul_index, zero_index. cbn. f_equal; lia. Qed.

Section enumeration_facts.

Variable solve_quad : float -> float -> float -> list float.
Variable g : ReekeIndexGenerator.

Abbreviation M := (mat3_mul_index (permutation (model_ g))).
Abbreviation pending_g := (pending solve_quad g).

(** The first [k] calls of [next()] return the first [k] pending indices. *)
Lemma calls_pending (k : nat) (s : statics.t) :
  (k <= length (pending_g s))%nat ->
  (calls solve_quad g k s).1 = map M (take k (pending_g s))
  /\ pending_g (calls solve_quad g k s).2 = drop k (pending_g s).
Proof.
  revert s. induction k as [|k IH]; intros s Hk; cbn [calls take drop].
  - rewrite take_0, drop_0. auto.
  - pose proof (next_pqr_pending solve_quad g s) as H. unfold next.
    destruct (next_pqr solve_quad g s) as [pqr s1].
    destruct (pending_g s) as [|h hs]; [cbn in Hk; lia|].
    cbn [fst snd] in H. destruct H as (-> & _ & Hs1).
    destruct (IH s1 ltac:(rewrite Hs1; cbn in Hk; lia)) as [A B].
    destruct (calls solve_quad g k s1) as [l s2]. cbn [fst snd] in *.
    rewrite A, B, Hs1. auto.
Qed.

(** The call after the last pending index returns (0,0,0) and leaves the
    whole traversal pending again. *)
Lemma next_sentinel (s : statics.t) :
  pending_g s = [] ->
  (next solve_quad g s).1 = zero_index
  /\ statics.state (next solve_quad g s).2 = statics.enter.
Proof.
  intros Hs. pose proof (next_pqr_pending solve_quad g s) as H.
  pose proof (next_pqr_cases solve_quad g s) as C.
  rewrite Hs in H. unfold next.
  destruct (switch_state solve_quad g s) as [[pqr|] s'].
  - destruct C as (E & Hz & _). rewrite E in H. cbn [fst] in H.
    destruct H as [-> _]. discriminate Hz.
  - rewrite C. cbn [fst snd]. split; [apply mat3_mul_index_zero|reflexivity].
Qed.

Lemma calls_app (j k : nat) (s : statics.t) :
  (calls solve_quad g (j + k) s).1
  = (calls solve_quad g j s).1
    ++ (calls solve_quad g k (calls solve_quad g j s).2).1
  /\ (calls solve_quad g (j + k) s).2
     = (calls solve_quad g k (calls solve_quad g j s).2).2.
Proof.
  revert s. induction j as [|j IH]; intros s; cbn [calls Nat.add]; [auto|].
  destruct (next solve_quad g s) as [h s1]. specialize (IH s1).
  destruct (calls solve_quad g (j + k) s1) as [l s2].
  destruct (calls solve_quad g j s1) as [l1 s3]. cbn [fst snd] in *.
  destruct IH as [-> ->]. auto.
Qed.

Lemma pending_enter (s : statics.t) :
  statics.state s = statics.enter ->
  pending_g s = pqr_indices solve_quad (model_ g).
Proof. unfold pending. intros ->. reflexivity. Qed.

Lemma to_array_pending (n : nat) (s : statics.t) :
  permutation_matrix (permutation (model_ g)) ->
  (length (pending_g s) < n)%nat ->
  (to_array solve_quad g n s).1 = map M (pending_g s)
  /\ statics.state (to_array solve_quad g n s).2 = statics.enter.
Proof.
  intros HM. revert s. induction n as [|n IH]; intros s Hn; [lia|].
  cbn [to_array].
  pose proof (next_pqr_pending solve_quad g s) as H.
  pose proof (next_sentinel s) as Z.
  destruct (pending_g s) as [|h hs] eqn:E.
  - destruct (Z eq_refl) as [Z1 Z2].
    destruct (next solve_quad g s) as [h' s1]. cbn [fst snd] in *.
    subst h'. cbn. auto.
  - clear Z. unfold next. destruct (next_pqr solve_quad g s) as [pqr s1].
    cbn [fst snd] in H. destruct H as (-> & Hz & Hs1).
    rewrite (permutation_matrix_zero _ _ HM), Hz.
    destruct (IH s1 ltac:(rewrite Hs1; cbn in Hn; lia)) as [A B].
    destruct (to_array solve_quad g n s1) as [l s2]. cbn [fst snd] in *.
    rewrite A, Hs1. auto.
Qed.

End enumeration_facts.

(** X10: from [state = enter], the calls of [next()] return the indices
    of the nested loops in their order (p over [p_limits()], q over
    [q_limits(p)], r over the intervals of [r_limits(p, q)] in turn, (0,0,0)
    passed over, each triple mapped by the permutation), then (0,0,0), and
    [state] is [enter] again. *)
Theorem next_enumerates_nested_loops
    (solve_quad : float -> float -> float -> list float)
    (g : ReekeIndexGenerator) (s : statics.t) :
  statics.state s = statics.enter ->
  let n := length (traversal solve_quad g) in
  (calls solve_quad g (S n) s).1 = traversal solve_quad g ++ [zero_index]
  /\ statics.state (calls solve_quad g (S n) s).2 = statics.enter.
Proof.
  intros Hs n.
  pose proof (pending_enter solve_quad g s Hs) as Hp.
  assert (n = length (pending solve_quad g s)) as Hn
    by (unfold n, traversal; rewrite length_map, Hp; reflexivity).
  replace (S n) with (n + 1)%nat by lia.
  destruct (calls_app solve_quad g n 1 s) as [-> ->].
  destruct (calls_pending solve_quad g n s ltac:(lia)) as [A B].
  rewrite A. rewrite Hn, take_ge, drop_ge in * by lia.
  pose proof (next_sentinel solve_quad g _ B) as [Z1 Z2].
  cbn [calls]. destruct (next solve_quad g _) as [h s1]. cbn [fst snd] in *.
  subst h. unfold traversal. rewrite Hp. auto.
Qed.

Lemma next_enumerates_nested_loops_witness :
  exists g : ReekeIndexGenerator,
    generator_x = Some g
    /\ traversal spec_solve_quad g
       = [Vec3 (-1) 0 (-1); Vec3 0 0 (-1); Vec3 1 0 (-1); Vec3 (-1) 0 0; Vec3 1 0 0]
    /\ (calls spec_solve_quad g 6 statics.initial).1
       = traversal spec_solve_quad g ++ [zero_index].
Proof.
  take generator_x g. exists g. split; [reflexivity|].
  assert (traversal spec_solve_quad g
          = [Vec3 (-1) 0 (-1); Vec3 0 0 (-1); Vec3 1 0 (-1); Vec3 (-1) 0 0;
             Vec3 1 0 0]) as HT by (subst g; vm_compute; reflexivity).
  split; [exact HT|].
  pose proof (next_enumerates_nested_loops spec_solve_quad g statics.initial
                eq_refl) as T.
  cbv zeta in T. rewrite HT in T at 1. exact (proj1 T).
Defined.

Lemma StronglySorted_app_intro {A : Type} (R : A -> A -> Prop) (l1 l2 : list A) :
  StronglySorted R l1 -> StronglySorted R l2 ->
  (forall a b, In a l1 -> In b l2 -> R a b) ->
  StronglySorted R (l1 ++ l2).
Proof.
  intros H1 H2 H. induction H1 as [|x l1 H1 IH Hx]; cbn; [exact H2|].
  constructor.
  - apply IH. intros a b Ha Hb. apply H; [right; exact Ha|exact Hb].
  - apply List.Forall_app. split; [exact Hx|].
    apply List.Forall_forall. intros b Hb. apply H; [left; reflexivity|exact Hb].
Qed.

Lemma StronglySorted_flat_map {A B : Type} (Q : A -> A -> Prop)
    (R : B -> B -> Prop) (f : A -> list B) (l : list A) :
  StronglySorted Q l ->
  (forall x, In x l -> StronglySorted R (f x)) ->
  (forall x y a b, Q x y -> In a (f x) -> In b (f y) -> R a b) ->
  StronglySorted R (flat_map f l).
Proof.
  intros HQ Hf HR. induction HQ as [|x l HQ IH Hx]; cbn; [constructor|].
  apply StronglySorted_app_intro.
  - apply Hf. left. reflexivity.
  - apply IH. intros y Hy. apply Hf. right. exact Hy.
  - intros a b Ha Hb. apply in_flat_map in Hb. destruct Hb as (y & Hy & Hb).
    rewrite List.Forall_forall in Hx. exact (HR x y a b (Hx y Hy) Ha Hb).
Qed.

Lemma StronglySorted_filter {A : Type} (R : A -> A -> Prop) (f : A -> bool)
    (l : list A) :
  StronglySorted R l -> StronglySorted R (List.filter f l).
Proof.
  induction 1 as [|x l H IH Hx]; cbn; [constructor|].
  destruct (f x); [|exact IH]. constructor; [exact IH|].
  rewrite List.Forall_forall in *. intros y Hy. apply filter_In in Hy.
  apply Hx, Hy.
Qed.

Lemma StronglySorted_map {A B : Type} (Q : A -> A -> Prop)
    (R : B -> B -> Prop) (f : A -> B) (l : list A) :
  (forall x y, Q x y -> R (f x) (f y)) ->
  StronglySorted Q l -> StronglySorted R (map f l).
Proof.
  intros Hf. induction 1 as [|x l H IH Hx]; cbn; constructor; [exact IH|].
  rewrite List.Forall_forall in *. intros y Hy. apply in_map_iff in Hy.
  destruct Hy as (z & <- & Hz). apply Hf, Hx, Hz.
Qed.

Lemma StronglySorted_NoDup {A : Type} (R : A -> A -> Prop) (l : list A) :
  (forall x, ~ R x x) -> StronglySorted R l -> List.NoDup l.
Proof.
  intros Hirr. induction 1 as [|x l H IH Hx]; constructor; [|exact IH].
  intros Hin. rewrite List.Forall_forall in Hx. exact (Hirr x (Hx x Hin)).
Qed.

Lemma zrange_sorted (lo hi : Z) : StronglySorted Z.lt (zrange lo hi).
Proof.
  unfold zrange. generalize (Z.to_nat (hi - lo)) as n. intros n. revert lo.
  induction n as [|n IH]; intros lo; cbn [seq map]; constructor.
  - rewrite <- seq_shift, map_map.
    rewrite (map_ext _ (fun k : nat => (lo + 1) + Z.of_nat k)) by (intros; lia).
    apply IH.
  - apply List.Forall_forall. intros x Hx. apply in_map_iff in Hx.
    destruct Hx as (k & <- & Hk). apply in_seq in Hk. lia.
Qed.

(** The intervals of [r_limits] are in ascending order and do not overlap. *)
Lemma r_limits_ascending
    (solve_quad : float -> float -> float -> list float)
    (m : ReekeModel) (p q : float) :
  StronglySorted (fun a b : vec2 Z => a.2 <= b.1) (r_limits solve_quad m p q).
Proof.
  assert (r_limits_ensured (r_limits solve_quad m p q)) as (Hlen & _ & H2).
  { unfold r_limits.
    destruct (resolution_r_limits _ _ _ _ _) as [res|].
    2: { split; [cbn; lia|]. split; intros; discriminate. }
    apply order_ranges_ensured.
    - pose proof (ewald_sphere_r_limits_length solve_quad m p q
                    [p * cp m 10; p * p * cp m 12; p * cp m 14; p * cp m 19;
                     p * cp m 20]%float) as Hlen.
      destruct (ewald_sphere_r_limits _ _ _ _ _) as [|e1 [|e2 [|e3 l]]];
        cbn in Hlen; try lia; cbn [flat_map]; rewrite ?app_nil_r;
        rewrite ?length_app;
        repeat match goal with |- context [restrict_r_lim ?a ?b] =>
          destruct (restrict_r_lim_cases a b) as [->|(? & -> & ?)] end;
        cbn; lia.
    - apply List.Forall_flat_map, List.Forall_forall. intros e _.
      destruct (restrict_r_lim_cases res e) as [->|(x & -> & Hx)];
        repeat constructor; assumption. }
  destruct (r_limits solve_quad m p q) as [|a [|b [|c l]]]; cbn in Hlen;
    try lia; repeat constructor.
  apply (H2 a b eq_refl).
Qed.

Section order_facts.

Variable solve_quad : float -> float -> float -> list float.
Variable m : ReekeModel.

Lemma in_r_interval_indices (p q : Z) (x : vec2 Z) (h : miller_index) :
  In h (r_interval_indices p q x)
  <-> v3_0 h = p /\ v3_1 h = q /\ x.1 <= v3_2 h < x.2 /\ is_zero h = false.
Proof.
  unfold r_interval_indices. rewrite filter_In, in_map_iff. unfold nonzero.
  rewrite negb_true_iff. split.
  - intros ((r & <- & Hr) & Hz). apply in_zrange in Hr. cbn. auto.
  - intros (<- & <- & Hr & Hz). split; [|exact Hz].
    exists (v3_2 h). split; [destruct h; reflexivity|apply in_zrange, Hr].
Qed.

Lemma in_r_indices (p q : Z) (rl : list (vec2 Z)) (h : miller_index) :
  In h (r_indices p q rl)
  <-> v3_0 h = p /\ v3_1 h = q /\ in_intervals rl (v3_2 h) /\ is_zero h = false.
Proof.
  unfold r_indices, in_intervals. rewrite in_flat_map. split.
  - intros (x & Hx & Hh). apply in_r_interval_indices in Hh.
    destruct Hh as (? & ? & ? & ?). eauto 10.
  - intros (? & ? & (x & Hx & ?) & ?). exists x. split; [exact Hx|].
    apply in_r_interval_indices. auto.
Qed.

Lemma in_p_indices (p : Z) (h : miller_index) :
  In h (p_indices solve_quad m p)
  <-> v3_0 h = p
      /\ (q_limits solve_quad m p).1 <= v3_1 h < (q_limits solve_quad m p).2
      /\ in_intervals
           (r_limits solve_quad m (int_to_double p) (int_to_double (v3_1 h)))
           (v3_2 h)
      /\ is_zero h = false.
Proof.
  unfold p_indices, q_indices. rewrite in_flat_map. split.
  - intros (q & Hq & Hh). apply in_zrange in Hq. apply in_r_indices in Hh.
    destruct Hh as (? & <- & ? & ?). auto.
  - intros (? & Hq & ? & ?). exists (v3_1 h). split; [apply in_zrange, Hq|].
    apply in_r_indices. auto.
Qed.

Lemma in_pqr_indices (h : miller_index) :
  In h (pqr_indices solve_quad m)
  <-> within_limits solve_quad m h /\ is_zero h = false.
Proof.
  unfold pqr_indices, within_limits. rewrite in_flat_map. split.
  - intros (p & Hp & Hh). apply in_zrange in Hp. apply in_p_indices in Hh.
    destruct Hh as (<- & ? & ? & ?). auto.
  - intros ((Hp & ? & ?) & ?). exists (v3_0 h). split; [apply in_zrange, Hp|].
    apply in_p_indices. auto.
Qed.

Lemma r_indices_sorted (p q : Z) (rl : list (vec2 Z)) :
  StronglySorted (fun a b : vec2 Z => a.2 <= b.1) rl ->
  StronglySorted pqr_lt (r_indices p q rl).
Proof.
  intros H. unfold r_indices.
  apply (StronglySorted_flat_map (fun a b : vec2 Z => a.2 <= b.1)); [exact H| |].
  - intros x _. unfold r_interval_indices. apply StronglySorted_filter.
    apply (StronglySorted_map Z.lt); [|apply zrange_sorted].
    intros r r' Hr. unfold pqr_lt. cbn. lia.
  - intros x y a b Hxy Ha Hb. apply in_r_interval_indices in Ha, Hb.
    unfold pqr_lt. lia.
Qed.

Lemma pqr_indices_sorted : StronglySorted pqr_lt (pqr_indices solve_quad m).
Proof.
  unfold pqr_indices.
  apply (StronglySorted_flat_map Z.lt); [apply zrange_sorted| |].
  - intros p _. unfold p_indices.
    apply (StronglySorted_flat_map Z.lt); [apply zrange_sorted| |].
    + intros q _. apply r_indices_sorted, r_limits_ascending.
    + intros q q' a b Hq Ha Hb. apply in_r_indices in Ha, Hb.
      unfold pqr_lt. lia.
  - intros p p' a b Hp Ha Hb. apply in_p_indices in Ha, Hb.
    unfold pqr_lt. lia.
Qed.

End order_facts.

Lemma permutation_matrix_inj (M : mat3 Z) (a b : miller_index) :
  permutation_matrix M -> mat3_mul_index M a = mat3_mul_index M b -> a = b.
Proof.
  destruct a as [a0 a1 a2], b as [b0 b1 b2]. unfold mat3_mul_index.
  intros [->|[->|[->|[->|[->| ->]]]]];
    cbn [m_0 m_1 m_2 m_3 m_4 m_5 m_6 m_7 m_8 v3_0 v3_1 v3_2];
    intros [= H0 H1 H2]; f_equal; lia.
Qed.

(** X11: [to_array()] terminates and returns what is left of the traversal:
    called after [k] calls of [next()] in a traversal started from
    [state = enter], it returns the indices of the nested loops but the
    first [k], and leaves [state = enter]. *)
Theorem to_array_returns_rest_of_traversal
    (c_sin c_asin : float -> float)
    (solve_quad : float -> float -> float -> list float)
    (ub_beg ub_end : mat3 float) (axis s0 : vec3 float) (dmin : float)
    (margin : Z) (g : ReekeIndexGenerator) (s : statics.t) (k n : nat) :
  ReekeIndexGenerator_ctor c_sin c_asin ub_beg ub_end axis s0 dmin margin = Some g ->
  statics.state s = statics.enter ->
  (k <= length (traversal solve_quad g))%nat ->
  (length (traversal solve_quad g) - k < n)%nat ->
  (to_array solve_quad g n (calls solve_quad g k s).2).1
  = drop k (traversal solve_quad g)
  /\ statics.state (to_array solve_quad g n (calls solve_quad g k s).2).2
     = statics.enter.
Proof.
  intros Hg Hs Hk Hn.
  pose proof (ctor_permutation_matrix _ _ _ _ _ _ _ _ _ Hg) as HM.
  pose proof (pending_enter solve_quad g s Hs) as Hp.
  unfold traversal in *. rewrite length_map in Hk, Hn.
  destruct (calls_pending solve_quad g k s ltac:(rewrite Hp; exact Hk)) as [_ B].
  rewrite Hp in B.
  destruct (to_array_pending solve_quad g n (calls solve_quad g k s).2 HM
              ltac:(rewrite B, length_drop; exact Hn)) as [C D].
  rewrite C, B. split; [symmetry; apply skipn_map|exact D].
Qed.

Lemma to_array_returns_rest_of_traversal_witness :
  exists g : ReekeIndexGenerator,
    generator_x = Some g
    /\ (to_array spec_solve_quad g 4
          (calls spec_solve_quad g 2 statics.initial).2).1
       = [Vec3 1 0 (-1); Vec3 (-1) 0 0; Vec3 1 0 0].
Proof.
  pose proof (fun g => to_array_returns_rest_of_traversal libm_sin libm_asin
                spec_solve_quad ub_unit ub_unit axis_x s0_z 1 1 g
                statics.initial 2 4) as T.
  fold generator_x in T. take generator_x g.
  exists g. split; [reflexivity|].
  assert (traversal spec_solve_quad g
          = [Vec3 (-1) 0 (-1); Vec3 0 0 (-1); Vec3 1 0 (-1); Vec3 (-1) 0 0;
             Vec3 1 0 0]) as HT by (subst g; vm_compute; reflexivity).
  specialize (T g eq_refl eq_refl). rewrite HT in T.
  exact (proj1 (T ltac:(cbn; lia) ltac:(cbn; lia))).
Defined.

(** X12: the triples of a traversal come in strictly ascending order of
    (p, q, r), and no index is returned twice in a traversal. *)
Theorem traversal_ascending_without_repeats
    (c_sin c_asin : float -> float)
    (solve_quad : float -> float -> float -> list float)
    (ub_beg ub_end : mat3 float) (axis s0 : vec3 float) (dmin : float)
    (margin : Z) (g : ReekeIndexGenerator) :
  ReekeIndexGenerator_ctor c_sin c_asin ub_beg ub_end axis s0 dmin margin = Some g ->
  StronglySorted pqr_lt (pqr_indices solve_quad (model_ g))
  /\ List.NoDup (traversal solve_quad g).
Proof.
  intros Hg. pose proof (ctor_permutation_matrix _ _ _ _ _ _ _ _ _ Hg) as HM.
  pose proof (pqr_indices_sorted solve_quad (model_ g)) as HS.
  split; [exact HS|]. unfold traversal.
  apply (StronglySorted_NoDup
           (fun a b => exists a' b',
              a = mat3_mul_index (permutation (model_ g)) a'
              /\ b = mat3_mul_index (permutation (model_ g)) b'
              /\ pqr_lt a' b')).
  - intros x (a' & b' & Ha & Hb & Hlt).
    rewrite Ha in Hb. apply (permutation_matrix_inj _ _ _ HM) in Hb. subst b'.
    unfold pqr_lt in Hlt. lia.
  - eapply StronglySorted_map; [|exact HS]. intros a b Hab. eauto.
Qed.

Lemma traversal_ascending_without_repeats_witness :
  exists g : ReekeIndexGenerator,
    generator_y = Some g
    /\ StronglySorted pqr_lt (pqr_indices spec_solve_quad (model_ g))
    /\ List.NoDup (traversal spec_solve_quad g).
Proof.
  pose proof (fun g => traversal_ascending_without_repeats libm_sin libm_asin
                spec_solve_quad ub_unit ub_unit axis_y s0_z 1 1 g) as T.
  fold generator_y in T. take generator_y g.
  exists g. split; [reflexivity|]. exact (T g eq_refl).
Defined.

(** X13: the array [to_array()] returns from [state = enter] holds
    exactly the images by the permutation of the triples other than (0,0,0)
    with p in [p_limits()], q in [q_limits(p)] and r in one of the intervals
    of [r_limits(p, q)]. *)
Theorem to_array_members
    (c_sin c_asin : float -> float)
    (solve_quad : float -> float -> float -> list float)
    (ub_beg ub_end : mat3 float) (axis s0 : vec3 float) (dmin : float)
    (margin : Z) (g : ReekeIndexGenerator) (s : statics.t) (n : nat)
    (h : miller_index) :
  ReekeIndexGenerator_ctor c_sin c_asin ub_beg ub_end axis s0 dmin margin = Some g ->
  statics.state s = statics.enter ->
  (length (traversal solve_quad g) < n)%nat ->
  In h (to_array solve_quad g n s).1
  <-> exists pqr : miller_index,
        h = mat3_mul_index (permutation (model_ g)) pqr
        /\ within_limits solve_quad (model_ g) pqr
        /\ pqr <> zero_index.
Proof.
  intros Hg Hs Hn.
  pose proof (ctor_permutation_matrix _ _ _ _ _ _ _ _ _ Hg) as HM.
  pose proof (pending_enter solve_quad g s Hs) as Hp.
  unfold traversal in Hn. rewrite length_map in Hn.
  destruct (to_array_pending solve_quad g n s HM ltac:(rewrite Hp; exact Hn))
    as [-> _].
  rewrite Hp, in_map_iff. split.
  - intros (pqr & <- & Hin). apply in_pqr_indices in Hin.
    destruct Hin as [Hw Hz]. exists pqr. split; [reflexivity|].
    split; [exact Hw|]. intros E. apply is_zero_spec in E. congruence.
  - intros (pqr & -> & Hw & Hz). exists pqr. split; [reflexivity|].
    apply in_pqr_indices. split; [exact Hw|].
    destruct (is_zero pqr) eqn:E; [|reflexivity].
    apply is_zero_spec in E. contradiction.
Qed.

Lemma to_array_members_witness :
  exists g : ReekeIndexGenerator,
    generator_x = Some g
    /\ (to_array spec_solve_quad g 6 statics.initial).1
       = [Vec3 (-1) 0 (-1); Vec3 0 0 (-1); Vec3 1 0 (-1); Vec3 (-1) 0 0; Vec3 1 0 0]
    /\ (In (Vec3 1 0 0) (to_array spec_solve_quad g 6 statics.initial).1
        <-> exists pqr : miller_index,
              Vec3 1 0 0 = mat3_mul_index (permutation (model_ g)) pqr
              /\ within_limits spec_solve_quad (model_ g) pqr
              /\ pqr <> zero_index).
Proof.
  pose proof (fun g => to_array_members libm_sin libm_asin
                spec_solve_quad ub_unit ub_unit axis_x s0_z 1 1 g
                statics.initial 6 (Vec3 1 0 0)) as T.
  fold generator_x in T. take generator_x g.
  exists g. split; [reflexivity|].
  split; [subst g; vm_compute; reflexivity|].
  apply (T g eq_refl eq_refl). subst g. vm_compute. reflexivity.
Defined.

(** ** The scan-static predictor, further *)

Lemma for_hkl_assertions_dec (P : ScanStatic.ScanStaticReflectionPredictor)
    (h : list miller_index) (e : list bool) (pn : list nat)
    (ub : list (mat3 float)) :
  {for_hkl_assertions P h e pn ub} + {~ for_hkl_assertions P h e pn ub}.
Proof.
  unfold for_hkl_assertions.
  destruct (Nat.eq_dec (length ub) (length h));
    [|right; intros (? & _); contradiction].
  destruct (Nat.eq_dec (length ub) (length pn));
    [|right; intros (_ & ? & _); contradiction].
  destruct (Nat.eq_dec (length ub) (length e));
    [|right; intros (_ & _ & ? & _); contradiction].
  destruct (0 <? (get_oscillation (ScanStatic.scan_ P)).2)%float;
    [left; auto|right; intros (_ & _ & _ & ?); discriminate].
Defined.

(** When its first four assertions hold, [for_hkl_with_individual_ub]
    returns the table its loop has filled: the assertion on the size of the
    table holds then. *)
Lemma for_hkl_with_individual_ub_succeeds (Predicted : Z)
    (P : ScanStatic.ScanStaticReflectionPredictor) (h : list miller_index)
    (e : list bool) (pn : list nat) (ub : list (mat3 float)) :
  for_hkl_assertions P h e pn ub ->
  ScanStatic.for_hkl_with_individual_ub Predicted P h e pn ub
  = Some (ScanStatic.for_hkl_loop Predicted P (length h) 0 empty_table h e pn ub).
Proof.
  intros (Eh & Ep & Ee & Eo).
  unfold ScanStatic.for_hkl_with_individual_ub.
  rewrite Eo.
  rewrite (proj2 (Nat.eqb_eq _ _) Eh), (proj2 (Nat.eqb_eq _ _) Ep),
    (proj2 (Nat.eqb_eq _ _) Ee).
  cbn [negb].
  destruct (for_hkl_loop_rows Predicted P h e pn ub (length h) 0 empty_table
              empty_table_columns ltac:(lia) ltac:(lia) ltac:(lia) ltac:(lia))
    as (C & _).
  cbn [Nat.add] in C.
  assert (nrows (ScanStatic.for_hkl_loop Predicted P (length h) 0 empty_table
                   h e pn ub) = length h) as ->
    by (unfold nrows; apply C).
  rewrite Nat.eqb_refl. reflexivity.
Qed.

Lemma for_hkl_with_individual_ub_fails (Predicted : Z)
    (P : ScanStatic.ScanStaticReflectionPredictor) (h : list miller_index)
    (e : list bool) (pn : list nat) (ub : list (mat3 float)) :
  ~ for_hkl_assertions P h e pn ub ->
  ScanStatic.for_hkl_with_individual_ub Predicted P h e pn ub = None.
Proof.
  intros H. unfold ScanStatic.for_hkl_with_individual_ub.
  destruct (Nat.eqb_spec (length ub) (length h)) as [Eh|Eh]; cbn [negb];
    [|reflexivity].
  destruct (Nat.eqb_spec (length ub) (length pn)) as [Ep|Ep]; cbn [negb];
    [|reflexivity].
  destruct (Nat.eqb_spec (length ub) (length e)) as [Ee|Ee]; cbn [negb];
    [|reflexivity].
  destruct (0 <? (get_oscillation (ScanStatic.scan_ P)).2)%float eqn:Eo;
    cbn [negb]; [|reflexivity].
  exfalso. apply H. unfold for_hkl_assertions. auto.
Qed.

(** The rows of the table [for_hkl_with_individual_ub] returns. *)
Lemma for_hkl_with_individual_ub_table (Predicted : Z)
    (P : ScanStatic.ScanStaticReflectionPredictor) (h : list miller_index)
    (e : list bool) (pn : list nat) (ub : list (mat3 float)) :
  for_hkl_assertions P h e pn ub ->
  let t := ScanStatic.for_hkl_loop Predicted P (length h) 0 empty_table h e pn ub in
  columns_of_length t (length h)
  /\ forall (i : nat) (hi : miller_index) (ei : bool) (pi : nat)
            (ubi : mat3 float),
       h !! i = Some hi -> e !! i = Some ei -> pn !! i = Some pi ->
       ub !! i = Some ubi ->
       row_at t i = Some (requested_row Predicted P ubi hi ei pi).
Proof.
  intros (Eh & Ep & Ee & Eo).
  destruct (for_hkl_loop_rows Predicted P h e pn ub (length h) 0 empty_table
              empty_table_columns ltac:(lia) ltac:(lia) ltac:(lia) ltac:(lia))
    as (C & _ & New).
  cbn [Nat.add] in C, New. cbv zeta. split; [exact C|].
  intros i hi ei pi ubi Eh' Ee' Ep' Eu'.
  apply (New i hi ei pi ubi); try assumption.
  apply lookup_lt_Some in Eh'. lia.
Qed.

(** X14: the scan-static [for_hkl_with_individual_ub] throws exactly when
    the four arrays differ in length or the oscillation width is not
    positive (its last assertion never fails); otherwise the table has one
    row per request and row [i] is the row of request [i] predicted with
    [ub[i]]. *)
Theorem for_hkl_with_individual_ub_rows (Predicted : Z)
    (P : ScanStatic.ScanStaticReflectionPredictor) (h : list miller_index)
    (e : list bool) (pn : list nat) (ub : list (mat3 float)) :
  (ScanStatic.for_hkl_with_individual_ub Predicted P h e pn ub = None
   <-> ~ for_hkl_assertions P h e pn ub)
  /\ forall t : prediction_data,
       ScanStatic.for_hkl_with_individual_ub Predicted P h e pn ub = Some t ->
       columns_of_length t (length h)
       /\ forall (i : nat) (hi : miller_index) (ei : bool) (pi : nat)
                 (ubi : mat3 float),
            h !! i = Some hi -> e !! i = Some ei -> pn !! i = Some pi ->
            ub !! i = Some ubi ->
            row_at t i = Some (requested_row Predicted P ubi hi ei pi).
Proof.
  destruct (for_hkl_assertions_dec P h e pn ub) as [A|A].
  - rewrite (for_hkl_with_individual_ub_succeeds Predicted P h e pn ub A). split.
    + split; [discriminate|]. intros H. contradiction.
    + intros t [= <-]. exact (for_hkl_with_individual_ub_table Predicted P h e pn ub A).
  - rewrite (for_hkl_with_individual_ub_fails Predicted P h e pn ub A). split.
    + split; [intros _; exact A|reflexivity].
    + discriminate.
Qed.

Lemma land_lnot_size_t (f P : Z) :
  0 <= f < 2 ^ 64 -> Z.land f (Z.lnot P mod 2 ^ 64) = Z.land f (Z.lnot P).
Proof.
  intros Hf. rewrite <- (Z.land_ones (Z.lnot P) 64) by lia.
  rewrite (Z.land_comm (Z.lnot P)), Z.land_assoc, Z.land_ones by lia.
  rewrite (Z.mod_small f) by lia. reflexivity.
Qed.

(** [(f & ~P) | nf] for [nf] equal to 0 or [P]: the bits of [P] are those
    of [nf], the other bits are those of [f]. *)
Lemma clear_then_set (f P nf : Z) :
  nf = 0 \/ nf = P ->
  Z.land (Z.lor (Z.land f (Z.lnot P)) nf) P = nf
  /\ Z.land (Z.lor (Z.land f (Z.lnot P)) nf) (Z.lnot P) = Z.land f (Z.lnot P).
Proof.
  intros H. split; apply Z.bits_inj'; intros n Hn;
    rewrite ?Z.land_spec, ?Z.lor_spec, ?Z.land_spec, ?Z.lnot_spec by lia;
    destruct H as [->| ->]; rewrite ?Z.bits_0;
    destruct (Z.testbit f n), (Z.testbit P n); reflexivity.
Qed.

Section reflection_table_facts.

Variable Predicted : Z.
Variable P : ScanStatic.ScanStaticReflectionPredictor.

(** The flag update, element by element. *)
Lemma update_flags_loop_spec (new_flags : list Z) (n i : nat) (fl : list Z) :
  (i + n <= length fl)%nat -> (i + n <= length new_flags)%nat ->
  length (ScanStatic.update_flags_loop Predicted n i fl new_flags) = length fl
  /\ forall j : nat,
       ScanStatic.update_flags_loop Predicted n i fl new_flags !! j
       = if ((i <=? j) && (j <? i + n))%nat then
           match fl !! j, new_flags !! j with
           | Some f, Some nf =>
               Some (Z.lor (Z.land f (Z.lnot Predicted mod 2 ^ 64)) nf)
           | _, _ => None
           end
         else fl !! j.
Proof.
  revert i fl. induction n as [|n IH]; intros i fl Hfl Hnew;
    cbn [ScanStatic.update_flags_loop].
  - split; [reflexivity|]. intros j.
    destruct (Nat.leb_spec i j), (Nat.ltb_spec j (i + 0)); cbn; try reflexivity; lia.
  - destruct (lookup_lt_is_Some_2 fl i ltac:(lia)) as [f Ef].
    destruct (lookup_lt_is_Some_2 new_flags i ltac:(lia)) as [nf En].
    rewrite Ef, En.
    destruct (IH (S i) (<[i:=Z.lor (Z.land f (Z.lnot Predicted mod 2 ^ 64)) nf]> fl)
                ltac:(rewrite length_insert; lia) ltac:(lia)) as [L E].
    rewrite length_insert in L. split; [exact L|]. intros j. rewrite E.
    destruct (Nat.eq_dec j i) as [->|Hne].
    + replace ((S i <=? i)%nat) with false by (symmetry; apply Nat.leb_gt; lia).
      replace ((i <=? i)%nat) with true by (symmetry; apply Nat.leb_le; lia).
      replace ((i <? i + S n)%nat) with true by (symmetry; apply Nat.ltb_lt; lia).
      cbn [andb]. rewrite list_lookup_insert_eq by lia. rewrite Ef, En. reflexivity.
    + rewrite list_lookup_insert_ne by congruence.
      destruct (Nat.leb_spec (S i) j), (Nat.leb_spec i j),
               (Nat.ltb_spec j (S i + n)), (Nat.ltb_spec j (i + S n));
        cbn [andb]; try reflexivity; lia.
Qed.

Lemma requested_row_flags (ub : mat3 float) (h : miller_index) (e : bool)
    (pn : nat) :
  row_flags (requested_row Predicted P ub h e pn) = 0
  \/ row_flags (requested_row Predicted P ub h e pn) = Predicted.
Proof.
  unfold requested_row. destruct (matching_ray _ _); [|left; reflexivity].
  destruct (panel_impact _ _ _) as [[mm px]|]; [right|left]; reflexivity.
Qed.

Lemma row_at_flags (t : prediction_data) (i : nat) (w : row) :
  row_at t i = Some w -> flags t !! i = Some (row_flags w).
Proof.
  unfold row_at.
  destruct (hkl t !! i), (panel t !! i), (enter t !! i), (pd_s1 t !! i),
           (xyz_px t !! i), (xyz_mm t !! i), (flags t !! i); try discriminate.
  intros [= <-]. reflexivity.
Qed.

End reflection_table_facts.

(** X15: on a table whose seven columns have as many elements as [ub],
    with a positive oscillation width and flags that fit 64 bits,
    [for_reflection_table_with_individual_ub] succeeds; the index, entering,
    panel, s1 and xyzcal columns become those of
    [for_hkl_with_individual_ub] on the table's own requests, and in each
    flag the bits of [Predicted] become those of the new prediction while
    every other bit is kept. *)
Theorem for_reflection_table_updates_flags (Predicted : Z)
    (P : ScanStatic.ScanStaticReflectionPredictor) (table : prediction_data)
    (ub : list (mat3 float)) :
  columns_of_length table (length ub) ->
  (0 <? (get_oscillation (ScanStatic.scan_ P)).2)%float = true ->
  Forall (fun f : Z => 0 <= f < 2 ^ 64) (flags table) ->
  exists new_table t : prediction_data,
    ScanStatic.for_hkl_with_individual_ub Predicted P
      (hkl table) (enter table) (panel table) ub = Some new_table
    /\ ScanStatic.for_reflection_table_with_individual_ub Predicted P table ub = Some t
    /\ hkl t = hkl new_table /\ enter t = enter new_table
    /\ panel t = panel new_table /\ pd_s1 t = pd_s1 new_table
    /\ xyz_px t = xyz_px new_table /\ xyz_mm t = xyz_mm new_table
    /\ columns_of_length t (length ub)
    /\ forall (i : nat) (f : Z) (hi : miller_index) (ei : bool) (pi : nat)
              (ubi : mat3 float),
         flags table !! i = Some f ->
         hkl table !! i = Some hi -> enter table !! i = Some ei ->
         panel table !! i = Some pi -> ub !! i = Some ubi ->
         exists f' : Z,
           flags t !! i = Some f'
           /\ Z.land f' Predicted
              = row_flags (requested_row Predicted P ubi hi ei pi)
           /\ Z.land f' (Z.lnot Predicted) = Z.land f (Z.lnot Predicted).
Proof.
  intros (Ch & Cp & Ce & Cs & Cpx & Cmm & Cf) Hosc Hfl.
  assert (for_hkl_assertions P (hkl table) (enter table) (panel table) ub) as A
    by (unfold for_hkl_assertions; auto).
  pose proof (for_hkl_with_individual_ub_succeeds Predicted P _ _ _ _ A) as E.
  destruct (for_hkl_with_individual_ub_table Predicted P _ _ _ _ A) as [C Rows].
  set (new_table := ScanStatic.for_hkl_loop Predicted P (length (hkl table)) 0
                      empty_table (hkl table) (enter table) (panel table) ub)
    in E, C, Rows.
  clearbody new_table.
  destruct C as (Nh & Np & Ne & Ns & Npx & Nmm & Nf).
  destruct (update_flags_loop_spec Predicted (flags new_table)
              (length (flags table)) 0 (flags table) ltac:(lia)
              ltac:(rewrite Nf, Ch, Cf; cbn; lia)) as [L Upd].
  exists new_table.
  exists {| hkl := hkl new_table; panel := panel new_table;
            enter := enter new_table; pd_s1 := pd_s1 new_table;
            xyz_px := xyz_px new_table; xyz_mm := xyz_mm new_table;
            flags := ScanStatic.update_flags_loop Predicted (length (flags table)) 0
                       (flags table) (flags new_table) |}.
  split; [exact E|]. split.
  { unfold ScanStatic.for_reflection_table_with_individual_ub. rewrite E.
    unfold nrows at 1 2 3. rewrite Ch, Nat.eqb_refl. cbn [negb].
    rewrite Nh, Ch, Nat.eqb_refl. cbn [negb].
    cbv zeta. unfold is_consistent, nrows.
    cbn [hkl panel enter pd_s1 xyz_px xyz_mm flags].
    rewrite L, Np, Ne, Ns, Npx, Nmm, Nh, Cf, Ch, !Nat.eqb_refl. reflexivity. }
  cbn [hkl panel enter pd_s1 xyz_px xyz_mm flags].
  do 6 (split; [reflexivity|]).
  split.
  { unfold columns_of_length. cbn [hkl panel enter pd_s1 xyz_px xyz_mm flags].
    rewrite L, Np, Ne, Ns, Npx, Nmm, Nh, Cf, Ch. repeat split. }
  intros i f hi ei pi ubi Ef Eh Ee' Ep' Eu.
  specialize (Rows i hi ei pi ubi Eh Ee' Ep' Eu). apply row_at_flags in Rows.
  rewrite Upd, Ef, Rows.
  pose proof (lookup_lt_Some _ _ _ Ef) as Hi.
  replace ((0 <=? i)%nat) with true by (symmetry; apply Nat.leb_le; lia).
  replace ((i <? 0 + length (flags table))%nat) with true
    by (symmetry; apply Nat.ltb_lt; lia).
  cbn [andb]. eexists. split; [reflexivity|].
  rewrite Forall_lookup in Hfl. specialize (Hfl i f Ef).
  rewrite (land_lnot_size_t f Predicted Hfl).
  apply clear_then_set, requested_row_flags.
Qed.

Lemma for_reflection_table_updates_flags_witness :
  exists t : prediction_data,
    ScanStatic.for_reflection_table_with_individual_ub 1 example_static_predictor
      example_table [ub_unit; ub_unit] = Some t
    /\ flags t = [2; 5]
    /\ xyz_mm t = [Vec3 0 0 1; Vec3 0 0 2]%float.
Proof.
  destruct (for_reflection_table_updates_flags 1 example_static_predictor
              example_table [ub_unit; ub_unit])
    as (new_table & t & _ & Ht & _).
  - repeat split.
  - reflexivity.
  - repeat constructor; cbn; lia.
  - exists t. split; [exact Ht|].
    vm_compute in Ht. injection Ht as <-. split; reflexivity.
Defined.

Lemma fold_left_ext_all {A B : Type} (f g : A -> B -> A) (l : list B) (a : A) :
  (forall a b, f a b = g a b) -> fold_left f l a = fold_left g l a.
Proof.
  intros H. revert a. induction l as [|b l IH]; intros a; cbn; [reflexivity|].
  rewrite H. apply IH.
Qed.

Lemma add_rows_app (p : prediction_data) (a b : list row) :
  add_rows (add_rows p a) b = add_rows p (a ++ b).
Proof. unfold add_rows. symmetry. apply fold_left_app. Qed.

Lemma fold_left_add_rows {A : Type} (f : A -> list row) (l : list A)
    (p : prediction_data) :
  fold_left (fun p x => add_rows p (f x)) l p = add_rows p (flat_map f l).
Proof.
  revert p. induction l as [|x l IH]; intros p; cbn [fold_left flat_map];
    [reflexivity|].
  rewrite IH. apply add_rows_app.
Qed.

Lemma add_rows_columns (p : prediction_data) (ws : list row) (n : nat) :
  columns_of_length p n -> columns_of_length (add_rows p ws) (n + length ws).
Proof.
  revert p n. induction ws as [|w ws IH]; intros p n Hp; cbn.
  - rewrite Nat.add_0_r. exact Hp.
  - replace (n + S (length ws))%nat with (S n + length ws)%nat by lia.
    apply IH, add_row_columns, Hp.
Qed.

Lemma add_rows_row_at (p : prediction_data) (ws : list row) (n i : nat) :
  columns_of_length p n ->
  row_at (add_rows p ws) i
  = if (i <? n)%nat then row_at p i else ws !! (i - n)%nat.
Proof.
  revert p n. induction ws as [|w ws IH]; intros p n Hp; cbn [add_rows fold_left].
  - destruct (Nat.ltb_spec i n); [reflexivity|].
    destruct Hp as (Hh & _). unfold row_at.
    rewrite (lookup_ge_None_2 (hkl p)) by lia. reflexivity.
  - fold (add_rows (add_row p w) ws).
    rewrite (IH _ (S n) (add_row_columns _ _ _ Hp)).
    destruct (Nat.ltb_spec i (S n)), (Nat.ltb_spec i n); try lia.
    + apply (add_row_row_at_old _ _ n); assumption.
    + replace i with n by lia. rewrite Nat.sub_diag.
      apply add_row_row_at_new, Hp.
    + replace (i - n)%nat with (S (i - S n)) by lia. reflexivity.
Qed.

Lemma table_of_rows_row_at (ws : list row) (i : nat) :
  row_at (table_of_rows ws) i = ws !! i.
Proof.
  unfold table_of_rows. rewrite (add_rows_row_at _ _ 0 _ empty_table_columns).
  cbn. rewrite Nat.sub_0_r. reflexivity.
Qed.

Section static_for_ub_facts.

Variable Predicted : Z.
Variable P : ScanStatic.ScanStaticReflectionPredictor.
Variables unit_cell space_group_type : Type.
Variable unit_cell_ : unit_cell.
Variable space_group_type_ : space_group_type.
Variable IndexGenerator_indices :
  unit_cell -> space_group_type -> float -> list miller_index.
Variable is_angle_in_range : vec2 float -> float -> bool.
Variable get_oscillation_range : Scan -> vec2 float.
Variable get_array_indices_with_angle : Scan -> float -> list (vec2 float).

Abbreviation ray_rows :=
  (static_ray_rows Predicted P is_angle_in_range get_oscillation_range
     get_array_indices_with_angle).

Lemma append_for_ray_rows (p : prediction_data) (h : miller_index) (ray : Ray) :
  ScanStatic.append_for_index_ub_ray Predicted P is_angle_in_range get_oscillation_range
    get_array_indices_with_angle p h ray
  = add_rows p (ray_rows h ray).
Proof.
  unfold ScanStatic.append_for_index_ub_ray, static_ray_rows.
  destruct (is_angle_in_range _ _); cbn [negb]; [|reflexivity].
  destruct (detector_get_ray_intersection _ _) as [[panel_ mm]|]; [|reflexivity].
  unfold predicted_row.
  destruct (panels (ScanStatic.detector_ P) !! panel_) as [pn|].
  - generalize (get_array_indices_with_angle (ScanStatic.scan_ P) (angle ray)).
    intros frames. revert p.
    induction frames as [|fr frames IH]; intros p; [reflexivity|].
    cbn [fold_left flat_map app add_rows]. rewrite IH. reflexivity.
  - induction (get_array_indices_with_angle _ _) as [|fr frames IH];
      [reflexivity|exact IH].
Qed.

Lemma for_ub_rows (ub : mat3 float) :
  ScanStatic.for_ub Predicted P unit_cell_ space_group_type_ IndexGenerator_indices
    is_angle_in_range get_oscillation_range get_array_indices_with_angle ub
  = table_of_rows
      (flat_map
         (fun h => flat_map (ray_rows h) (ScanStatic.predict_rays_ P h ub))
         (IndexGenerator_indices unit_cell_ space_group_type_
            (ScanStatic.dmin_ P))).
Proof.
  unfold ScanStatic.for_ub, table_of_rows. rewrite <- fold_left_add_rows.
  apply fold_left_ext_all. intros p h. unfold ScanStatic.append_for_index_ub.
  rewrite <- fold_left_add_rows. apply fold_left_ext_all. intros p' ray.
  apply append_for_ray_rows.
Qed.

End static_for_ub_facts.

Lemma predicted_row_of_ray (Predicted : Z) (d : Detector) (h : miller_index)
    (ray : Ray) (panel_ : nat) (mm : vec2 float) (z_mm z_px : float) (w : row) :
  detector_get_ray_intersection d (s1 ray) = Some (panel_, mm) ->
  In w (predicted_row Predicted d h ray panel_ mm z_mm z_px) ->
  row_of_ray Predicted d h ray w
  /\ v3_2 (row_xyz_mm w) = z_mm /\ v3_2 (row_xyz_px w) = z_px.
Proof.
  intros Hd. unfold predicted_row.
  destruct (panels d !! panel_) as [pn|] eqn:E; [|intros []].
  intros [<-|[]]. split; [|split; reflexivity].
  exists mm, pn. cbn. repeat split; assumption.
Qed.

(** X16: in the table of the scan-static [for_ub(ub)] the seven columns
    have the same length, and every row records a ray, predicted for an index
    of the generator, whose angle is in the oscillation range and which hits
    the detector: it carries that index, the ray's s1 and flag, the panel
    and position of the impact, the z coordinates of one of the frames at
    that angle, and the flag [Predicted]. *)
Theorem static_for_ub_rows_predicted (Predicted : Z)
    (P : ScanStatic.ScanStaticReflectionPredictor)
    (unit_cell space_group_type : Type) (unit_cell_ : unit_cell)
    (space_group_type_ : space_group_type)
    (IndexGenerator_indices :
       unit_cell -> space_group_type -> float -> list miller_index)
    (is_angle_in_range : vec2 float -> float -> bool)
    (get_oscillation_range : Scan -> vec2 float)
    (get_array_indices_with_angle : Scan -> float -> list (vec2 float))
    (ub : mat3 float) :
  let t :=
    ScanStatic.for_ub Predicted P unit_cell_ space_group_type_ IndexGenerator_indices
      is_angle_in_range get_oscillation_range get_array_indices_with_angle ub in
  exists ws : list row,
    t = table_of_rows ws
    /\ columns_of_length t (length ws)
    /\ (forall i : nat, row_at t i = ws !! i)
    /\ Forall
         (fun w : row =>
            In (row_hkl w)
              (IndexGenerator_indices unit_cell_ space_group_type_
                 (ScanStatic.dmin_ P))
            /\ exists (ray : Ray) (frame : vec2 float),
                 In ray (ScanStatic.predict_rays_ P (row_hkl w) ub)
                 /\ is_angle_in_range
                      (get_oscillation_range (ScanStatic.scan_ P)) (angle ray)
                    = true
                 /\ In frame
                      (get_array_indices_with_angle (ScanStatic.scan_ P)
                         (angle ray))
                 /\ row_of_ray Predicted (ScanStatic.detector_ P) (row_hkl w)
                      ray w
                 /\ v3_2 (row_xyz_mm w) = frame.1
                 /\ v3_2 (row_xyz_px w) = frame.2)
         ws.
Proof.
  cbv zeta. rewrite for_ub_rows. eexists. split; [reflexivity|].
  split; [apply (add_rows_columns _ _ 0), empty_table_columns|].
  split; [apply table_of_rows_row_at|].
  apply List.Forall_forall. intros w Hw.
  apply in_flat_map in Hw. destruct Hw as (h & Hh & Hw).
  apply in_flat_map in Hw. destruct Hw as (ray & Hray & Hw).
  unfold static_ray_rows in Hw.
  destruct (is_angle_in_range _ _) eqn:Hin; [|destruct Hw].
  destruct (detector_get_ray_intersection _ _) as [[panel_ mm]|] eqn:Hd;
    [|destruct Hw].
  apply in_flat_map in Hw. destruct Hw as (frame & Hf & Hw).
  destruct (predicted_row_of_ray _ _ _ _ _ _ _ _ _ Hd Hw) as (R & Zmm & Zpx).
  assert (row_hkl w = h) as Eh by (destruct R as (? & ? & _ & _ & ? & _); assumption).
  rewrite Eh. split; [exact Hh|]. exists ray, frame. auto 10.
Qed.

(** ** The scan-varying predictor, further *)

Lemma table_app_empty_l (q : prediction_data) : table_app empty_table q = q.
Proof. destruct q. reflexivity. Qed.

Lemma table_app_empty_r (p : prediction_data) : table_app p empty_table = p.
Proof. destruct p. unfold table_app. cbn. rewrite !app_nil_r. reflexivity. Qed.

Lemma table_app_assoc (p q r : prediction_data) :
  table_app (table_app p q) r = table_app p (table_app q r).
Proof. unfold table_app. cbn. rewrite <- !app_assoc. reflexivity. Qed.

Lemma add_row_table_app (p q : prediction_data) (w : row) :
  add_row (table_app p q) w = table_app p (add_row q w).
Proof. unfold add_row, table_app. cbn. rewrite <- !app_assoc. reflexivity. Qed.

Lemma add_rows_table_app (p : prediction_data) (ws : list row) :
  add_rows p ws = table_app p (table_of_rows ws).
Proof.
  unfold table_of_rows. rewrite <- (table_app_empty_r p) at 1.
  generalize empty_table as q. intros q. revert q.
  induction ws as [|w ws IH]; intros q; cbn [add_rows fold_left]; [reflexivity|].
  fold (add_rows (add_row (table_app p q) w) ws).
  fold (add_rows (add_row q w) ws).
  rewrite add_row_table_app. apply IH.
Qed.

Section scan_varying_facts.

Variable Predicted : Z.
Variable space_group_type : Type.
Variable axis_and_angle_as_matrix : vec3 float -> float -> mat3 float.
Variable reeke_indices :
  list (ScanVarying.ctor_arg space_group_type) -> option (list miller_index).
Variable P : ScanVarying.ScanVaryingReflectionPredictor space_group_type.

Lemma varying_append_for_ray_rows (p : prediction_data) (h : miller_index)
    (ray : Ray) :
  ScanVarying.append_for_ray Predicted P p h ray
  = add_rows p (varying_ray_rows Predicted P h ray).
Proof.
  unfold ScanVarying.append_for_ray, varying_ray_rows, predicted_row.
  destruct (detector_get_ray_intersection _ _) as [[panel_ mm]|]; [|reflexivity].
  destruct (panels _ !! panel_); reflexivity.
Qed.

Lemma varying_append_for_index_rows (p : prediction_data) (A1 A2 : mat3 float)
    (frame : Z) (h : miller_index) :
  ScanVarying.append_for_index Predicted P p A1 A2 frame h
  = add_rows p (varying_index_rows Predicted P A1 A2 frame h).
Proof.
  unfold ScanVarying.append_for_index, varying_index_rows.
  destruct (ScanVarying.predict_rays_ P h A1 A2 frame 1);
    [apply varying_append_for_ray_rows|reflexivity].
Qed.

(** [append_for_image] adds, to any table, the rows it adds to an empty
    one. *)
Lemma append_for_image_rows (p : prediction_data) (frame : Z)
    (A1 A2 : mat3 float) :
  ScanVarying.append_for_image Predicted axis_and_angle_as_matrix
    reeke_indices P p frame A1 A2
  = match
      reeke_indices
        (ScanVarying.generator_arguments P
           (rotated axis_and_angle_as_matrix P frame A1)
           (rotated axis_and_angle_as_matrix P (frame + 1) A2))
    with
    | Some indices =>
        Some (add_rows p
                (flat_map
                   (varying_index_rows Predicted P
                      (rotated axis_and_angle_as_matrix P frame A1)
                      (rotated axis_and_angle_as_matrix P (frame + 1) A2)
                      (ScanVarying.to_size_t frame))
                   indices))
    | None => None
    end.
Proof.
  unfold ScanVarying.append_for_image, ScanVarying.compute_setting_matrices,
    rotated.
  destruct (reeke_indices _) as [indices|]; [|reflexivity].
  f_equal. rewrite <- fold_left_add_rows. apply fold_left_ext_all.
  intros p' h. apply varying_append_for_index_rows.
Qed.

End scan_varying_facts.

(** *** The cursors of the generator *)

Section scan_varying_cursor_facts.

Variable Predicted : Z.
Variable space_group_type : Type.
Variable axis_and_angle_as_matrix : vec3 float -> float -> mat3 float.
Variable reeke_to_array :
  list (ScanVarying.ctor_arg space_group_type) -> statics.t ->
  option (list miller_index * statics.t).
Variable P : ScanVarying.ScanVaryingReflectionPredictor space_group_type.

(** [append_for_image] adds, to any table, the rows it adds to an empty
    one, and leaves the same cursors. *)
Lemma append_for_image_s_app (s s' : statics.t) (p p' : prediction_data)
    (frame : Z) (A1 A2 : mat3 float) :
  ScanVarying.append_for_image_s Predicted axis_and_angle_as_matrix
    reeke_to_array P s p frame A1 A2 = Some (p', s') ->
  exists t : prediction_data,
    ScanVarying.append_for_image_s Predicted axis_and_angle_as_matrix
      reeke_to_array P s empty_table frame A1 A2 = Some (t, s')
    /\ p' = table_app p t.
Proof.
  unfold ScanVarying.append_for_image_s.
  destruct (ScanVarying.compute_setting_matrices _ _ _ _ _) as [B1 B2].
  destruct (reeke_to_array _ s) as [[indices s1]|]; [|discriminate].
  intros [= <- <-]. eexists. split; [reflexivity|].
  assert (forall q : prediction_data,
            fold_left
              (fun p h =>
                 ScanVarying.append_for_index Predicted P p B1 B2
                   (ScanVarying.to_size_t frame) h)
              indices q
            = add_rows q
                (flat_map
                   (varying_index_rows Predicted P B1 B2
                      (ScanVarying.to_size_t frame))
                   indices)) as F.
  { intros q. rewrite <- fold_left_add_rows. apply fold_left_ext_all.
    intros p' h. apply varying_append_for_index_rows. }
  rewrite !F, !add_rows_table_app, table_app_empty_l. reflexivity.
Qed.

Lemma for_ub_loop_s_join (A : list (mat3 float)) (n : nat) (frame : Z)
    (s s' : statics.t) (p t : prediction_data) :
  (get_array_range (ScanVarying.scan_ P)).1 <= frame ->
  ScanVarying.for_ub_loop_s Predicted axis_and_angle_as_matrix reeke_to_array P
    n A (get_array_range (ScanVarying.scan_ P)).1 frame s p = inr (t, s') ->
  exists ts : list prediction_data,
    single_images Predicted axis_and_angle_as_matrix reeke_to_array P A
      (zrange frame
         (Z.min (frame + Z.of_nat n) (get_array_range (ScanVarying.scan_ P)).2))
      s ts s'
    /\ t = fold_left table_app ts p.
Proof.
  revert frame s p. induction n as [|n IH]; intros frame s p Hlo;
    cbn [ScanVarying.for_ub_loop_s].
  - intros [= <- <-]. exists []. rewrite zrange_nil by lia. split; reflexivity.
  - destruct (Z.ltb_spec frame (get_array_range (ScanVarying.scan_ P)).2)
      as [C|C].
    2: { intros [= <- <-]. exists []. rewrite zrange_nil by lia.
         split; reflexivity. }
    destruct (_ <? _); [|discriminate].
    destruct (A !! Z.to_nat (frame - _)) as [A1|] eqn:E1; [|discriminate].
    destruct (A !! Z.to_nat (frame - _ + 1)) as [A2|] eqn:E2; [|discriminate].
    destruct (ScanVarying.append_for_image_s _ _ _ _ s p frame A1 A2)
      as [[p' s1]|] eqn:E; [|discriminate].
    intros Hrec. apply IH in Hrec; [|lia]. destruct Hrec as (ts & Hts & ->).
    destruct (append_for_image_s_app _ _ _ _ _ _ _ E) as (tf & Etf & ->).
    exists (tf :: ts). split; [|reflexivity].
    rewrite zrange_cons by lia.
    replace (Z.min (frame + Z.of_nat (S n)) (get_array_range (ScanVarying.scan_ P)).2)
      with (Z.min (frame + 1 + Z.of_nat n) (get_array_range (ScanVarying.scan_ P)).2)
      by lia.
    cbn [single_images]. exists A1, A2, s1.
    split; [exact E1|]. split; [exact E2|]. split; [|exact Hts].
    unfold ScanVarying.for_ub_on_single_image_s.
    replace (_ <=? frame) with true by (symmetry; apply Z.leb_le; lia).
    replace (frame <? _) with true by (symmetry; apply Z.ltb_lt; lia).
    cbn [andb negb]. rewrite Etf. reflexivity.
Qed.

Hypothesis restarts : restarts_from_enter reeke_to_array.

(** With a generator that restarts from [state = enter], a single-image
    call made with [state = enter] returns the same table at any time. *)
Lemma single_image_from_enter (s s' : statics.t) (f : Z) (A1 A2 : mat3 float)
    (t : prediction_data) :
  statics.state s = statics.enter ->
  ScanVarying.for_ub_on_single_image_s Predicted axis_and_angle_as_matrix
    reeke_to_array P s f A1 A2 = inr (t, s') ->
  statics.state s' = statics.enter
  /\ forall s0 : statics.t,
       statics.state s0 = statics.enter ->
       exists s0' : statics.t,
         ScanVarying.for_ub_on_single_image_s Predicted axis_and_angle_as_matrix
           reeke_to_array P s0 f A1 A2 = inr (t, s0')
         /\ statics.state s0' = statics.enter.
Proof.
  intros Hs.
  unfold ScanVarying.for_ub_on_single_image_s, ScanVarying.append_for_image_s.
  destruct (negb _); [discriminate|].
  destruct (ScanVarying.compute_setting_matrices _ _ _ _ _) as [B1 B2].
  destruct (reeke_to_array _ s) as [[l s1]|] eqn:E; [|discriminate].
  intros [= <- <-]. split; [exact (proj2 (restarts _ s s Hs Hs) l s1 E)|].
  intros s0 Hs0.
  destruct (restarts (ScanVarying.generator_arguments P B1 B2) s0 s Hs0 Hs)
    as [Same Left].
  rewrite E in Same.
  destruct (reeke_to_array _ s0) as [[l0 s0']|]; [|discriminate].
  cbn in Same. injection Same as ->. exists s0'.
  split; [reflexivity|]. exact (Left l s0' eq_refl).
Qed.

Lemma single_images_from_enter (A : list (mat3 float)) (fs : list Z)
    (s s' : statics.t) (ts : list prediction_data) :
  statics.state s = statics.enter ->
  single_images Predicted axis_and_angle_as_matrix reeke_to_array P A fs s ts s' ->
  Forall2 (image_from_enter Predicted axis_and_angle_as_matrix reeke_to_array P A)
    fs ts
  /\ statics.state s' = statics.enter.
Proof.
  revert s ts. induction fs as [|f fs IH]; intros s [|t ts] Hs;
    cbn [single_images]; try contradiction.
  - intros ->. split; [constructor|exact Hs].
  - intros (A1 & A2 & s1 & E1 & E2 & E & Hrest).
    destruct (single_image_from_enter _ _ _ _ _ _ Hs E) as [Hs1 Any].
    destruct (IH s1 ts Hs1 Hrest) as [F Hs'].
    split; [|exact Hs']. constructor; [|exact F].
    exists A1, A2. split; [exact E1|]. split; [exact E2|exact Any].
Qed.

(** From [state = enter], the predictor returns what it returns when the
    generator is taken as the function [indices_from_enter] of its
    arguments, as the definitions without cursors take it, and it leaves
    [state = enter]. *)
Lemma append_for_image_s_enter (s : statics.t) (p : prediction_data)
    (frame : Z) (A1 A2 : mat3 float) :
  statics.state s = statics.enter ->
  match
    ScanVarying.append_for_image_s Predicted axis_and_angle_as_matrix
      reeke_to_array P s p frame A1 A2
  with
  | Some (p', s') =>
      ScanVarying.append_for_image Predicted axis_and_angle_as_matrix
        (indices_from_enter reeke_to_array) P p frame A1 A2 = Some p'
      /\ statics.state s' = statics.enter
  | None =>
      ScanVarying.append_for_image Predicted axis_and_angle_as_matrix
        (indices_from_enter reeke_to_array) P p frame A1 A2 = None
  end.
Proof.
  intros Hs.
  unfold ScanVarying.append_for_image_s, ScanVarying.append_for_image,
    indices_from_enter.
  destruct (ScanVarying.compute_setting_matrices _ _ _ _ _) as [B1 B2].
  destruct (restarts (ScanVarying.generator_arguments P B1 B2) s statics.initial
              Hs eq_refl) as [Same Left].
  destruct (reeke_to_array _ s) as [[l s']|]; cbn [option_map fst] in Same;
    rewrite <- Same; [|reflexivity].
  split; [reflexivity|]. exact (Left l s' eq_refl).
Qed.

Lemma for_ub_loop_s_enter (n : nat) (A : list (mat3 float)) (offset frame : Z)
    (s : statics.t) (p : prediction_data) :
  statics.state s = statics.enter ->
  match
    ScanVarying.for_ub_loop_s Predicted axis_and_angle_as_matrix reeke_to_array P
      n A offset frame s p
  with
  | inr (t, s') =>
      ScanVarying.for_ub_loop Predicted axis_and_angle_as_matrix
        (indices_from_enter reeke_to_array) P n A offset frame p = inr t
      /\ statics.state s' = statics.enter
  | inl e =>
      ScanVarying.for_ub_loop Predicted axis_and_angle_as_matrix
        (indices_from_enter reeke_to_array) P n A offset frame p = inl e
  end.
Proof.
  revert frame s p. induction n as [|n IH]; intros frame s p Hs;
    cbn [ScanVarying.for_ub_loop_s ScanVarying.for_ub_loop]; [auto|].
  destruct (frame <? _); [|auto].
  destruct (_ <? _); [|reflexivity].
  destruct (A !! _) as [A1|]; [|reflexivity].
  destruct (A !! _) as [A2|]; [|reflexivity].
  pose proof (append_for_image_s_enter s p frame A1 A2 Hs) as H.
  destruct (ScanVarying.append_for_image_s _ _ _ _ s p frame A1 A2)
    as [[p' s']|].
  - destruct H as [-> Hs']. apply IH, Hs'.
  - rewrite H. reflexivity.
Qed.

Lemma for_ub_s_enter (A : list (mat3 float)) (s : statics.t) :
  statics.state s = statics.enter ->
  match
    ScanVarying.for_ub_s Predicted axis_and_angle_as_matrix reeke_to_array P s A
  with
  | inr (t, s') =>
      ScanVarying.for_ub Predicted axis_and_angle_as_matrix
        (indices_from_enter reeke_to_array) P A = inr t
      /\ statics.state s' = statics.enter
  | inl e =>
      ScanVarying.for_ub Predicted axis_and_angle_as_matrix
        (indices_from_enter reeke_to_array) P A = inl e
  end.
Proof.
  intros Hs. unfold ScanVarying.for_ub_s, ScanVarying.for_ub.
  destruct (negb _); [reflexivity|]. apply for_ub_loop_s_enter, Hs.
Qed.

End scan_varying_cursor_facts.

(** [to_array()] of the embedded class restarts from [state = enter]. *)
Lemma example_reeke_to_array_restarts :
  restarts_from_enter example_reeke_to_array.
Proof.
  intros args s1 s2 H1 H2. unfold example_reeke_to_array.
  destruct (embedded_arguments args) as [[[[[[A1 A2] m2] s0] dmin] margin]|];
    [|split; [reflexivity|discriminate]].
  destruct (ReekeIndexGenerator_ctor _ _ A1 A2 m2 s0 dmin margin) as [g|] eqn:Hg;
    [|split; [reflexivity|discriminate]].
  pose proof (ctor_permutation_matrix _ _ _ _ _ _ _ _ _ Hg) as HM.
  assert (forall s : statics.t,
            statics.state s = statics.enter ->
            (to_array spec_solve_quad g
               (S (length (traversal spec_solve_quad g))) s).1
            = traversal spec_solve_quad g
            /\ statics.state
                 (to_array spec_solve_quad g
                    (S (length (traversal spec_solve_quad g))) s).2
               = statics.enter) as T.
  { intros s Hs. pose proof (pending_enter spec_solve_quad g s Hs) as Hp.
    destruct (to_array_pending spec_solve_quad g
                (S (length (traversal spec_solve_quad g))) s HM) as [C D].
    - rewrite Hp. unfold traversal. rewrite length_map. lia.
    - rewrite C, Hp. split; [reflexivity|exact D]. }
  cbn [option_map]. split.
  - rewrite (proj1 (T s1 H1)), (proj1 (T s2 H2)). reflexivity.
  - intros l s' E. apply (f_equal (option_map snd)) in E.
    cbn [option_map snd] in E. injection E as <-. exact (proj2 (T s1 H1)).
Qed.

(** X17: the table that the scan-varying [for_ub(A)] returns is the tables
    of the calls [for_ub_on_single_image(f, A[f - offset],
    A[f - offset + 1])], made one after the other for the frames [f] of the
    array range from the cursors [for_ub] was called with, joined in that
    order, and the cursors it leaves are those the last call leaves.  When
    the generator restarts from [state = enter] and [for_ub] is called with
    [state = enter], each of these tables is the one the single-image call
    returns whenever it is made with [state = enter], and [state] is
    [enter] afterwards. *)
Theorem for_ub_joins_single_images (Predicted : Z) (space_group_type : Type)
    (axis_and_angle_as_matrix : vec3 float -> float -> mat3 float)
    (reeke_to_array :
       list (ScanVarying.ctor_arg space_group_type) -> statics.t ->
       option (list miller_index * statics.t))
    (P : ScanVarying.ScanVaryingReflectionPredictor space_group_type)
    (A : list (mat3 float)) (s s' : statics.t) (t : prediction_data) :
  ScanVarying.for_ub_s Predicted axis_and_angle_as_matrix reeke_to_array P s A
  = inr (t, s') ->
  let frames :=
    zrange (get_array_range (ScanVarying.scan_ P)).1
      (get_array_range (ScanVarying.scan_ P)).2 in
  exists ts : list prediction_data,
    t = join_tables ts
    /\ single_images Predicted axis_and_angle_as_matrix reeke_to_array P A
         frames s ts s'
    /\ (restarts_from_enter reeke_to_array ->
        statics.state s = statics.enter ->
        Forall2
          (image_from_enter Predicted axis_and_angle_as_matrix reeke_to_array P A)
          frames ts
        /\ statics.state s' = statics.enter).
Proof.
  unfold ScanVarying.for_ub_s. destruct (negb _); [discriminate|].
  intros H. apply for_ub_loop_s_join in H; [|lia].
  destruct H as (ts & Hts & ->). cbv zeta. exists ts. split; [reflexivity|].
  assert (single_images Predicted axis_and_angle_as_matrix reeke_to_array P A
            (zrange (get_array_range (ScanVarying.scan_ P)).1
               (get_array_range (ScanVarying.scan_ P)).2) s ts s') as Hall.
  { destruct (Z.le_gt_cases (get_array_range (ScanVarying.scan_ P)).1
                (get_array_range (ScanVarying.scan_ P)).2) as [C|C].
    - rewrite Z.min_r in Hts by lia. exact Hts.
    - rewrite zrange_nil in Hts by lia. rewrite zrange_nil by lia. exact Hts. }
  split; [exact Hall|]. intros R Hs.
  exact (single_images_from_enter _ _ _ _ _ R _ _ _ _ _ Hs Hall).
Qed.

Lemma for_ub_joins_single_images_witness :
  exists (t : prediction_data) (s' : statics.t) (ts : list prediction_data),
    ScanVarying.for_ub_s 1 rotation_at_zero example_reeke_to_array
      two_image_predictor statics.initial [ub_unit; ub_unit; ub_unit]
    = inr (t, s')
    /\ t = join_tables ts
    /\ single_images 1 rotation_at_zero example_reeke_to_array
         two_image_predictor [ub_unit; ub_unit; ub_unit] [0; 1]
         statics.initial ts s'
    /\ Forall2
         (image_from_enter 1 rotation_at_zero example_reeke_to_array
            two_image_predictor [ub_unit; ub_unit; ub_unit])
         [0; 1] ts
    /\ statics.state s' = statics.enter.
Proof.
  destruct (ScanVarying.for_ub_s 1 rotation_at_zero example_reeke_to_array
              two_image_predictor statics.initial [ub_unit; ub_unit; ub_unit])
    as [e|[t s']] eqn:E; [vm_compute in E; discriminate E|].
  exists t, s'.
  destruct (for_ub_joins_single_images 1 nat rotation_at_zero
              example_reeke_to_array two_image_predictor
              [ub_unit; ub_unit; ub_unit] statics.initial s' t E)
    as (ts & Ht & Hchain & Henter).
  exists ts. split; [reflexivity|]. split; [exact Ht|]. split; [exact Hchain|].
  exact (Henter example_reeke_to_array_restarts eq_refl).
Defined.

(** The cursors matter: called in the middle of a traversal, after four
    calls of [next()] on a generator with the same arguments, [for_ub]
    gets for its first image only the index the traversal had left, and
    returns three rows where it returns four from [state = enter]. *)
Example for_ub_in_the_middle_of_a_traversal :
  exists (g : ReekeIndexGenerator) (t t' : prediction_data) (s s' : statics.t),
    generator_x = Some g
    /\ ScanVarying.for_ub_s 1 rotation_at_zero example_reeke_to_array
         two_image_predictor statics.initial [ub_unit; ub_unit; ub_unit]
       = inr (t, s)
    /\ hkl t = [Vec3 (-1) 0 0; Vec3 1 0 0; Vec3 (-1) 0 0; Vec3 1 0 0]
    /\ ScanVarying.for_ub_s 1 rotation_at_zero example_reeke_to_array
         two_image_predictor (calls spec_solve_quad g 4 statics.initial).2
         [ub_unit; ub_unit; ub_unit]
       = inr (t', s')
    /\ hkl t' = [Vec3 1 0 0; Vec3 (-1) 0 0; Vec3 1 0 0].
Proof.
  take generator_x g.
  destruct (ScanVarying.for_ub_s 1 rotation_at_zero example_reeke_to_array
              two_image_predictor statics.initial [ub_unit; ub_unit; ub_unit])
    as [e|[t s]] eqn:E1; [vm_compute in E1; discriminate E1|].
  destruct (ScanVarying.for_ub_s 1 rotation_at_zero example_reeke_to_array
              two_image_predictor (calls spec_solve_quad g 4 statics.initial).2
              [ub_unit; ub_unit; ub_unit])
    as [e|[t' s']] eqn:E2; [subst g; vm_compute in E2; discriminate E2|].
  exists g, t, t', s, s'. split; [reflexivity|]. split; [reflexivity|].
  split; [vm_compute in E1; injection E1 as <- _; reflexivity|].
  split; [exact E2|].
  subst g. vm_compute in E2. injection E2 as <- _. reflexivity.
Qed.

(** X18: [for_ub_on_single_image(frame, A1, A2)] fails its assertion
    exactly when [frame] is outside the array range; a table it returns has
    columns of one length, and every row records the ray the predictor gives
    for an index of the generator built from the rotated matrices, a ray
    that hits the detector: the row carries the Predicted flag, the ray's
    angle as z in millimetres and its array index as z in pixels. *)
Theorem for_ub_on_single_image_rows (Predicted : Z) (space_group_type : Type)
    (axis_and_angle_as_matrix : vec3 float -> float -> mat3 float)
    (reeke_indices :
       list (ScanVarying.ctor_arg space_group_type) -> option (list miller_index))
    (P : ScanVarying.ScanVaryingReflectionPredictor space_group_type)
    (frame : Z) (A1 A2 : mat3 float) :
  let result :=
    ScanVarying.for_ub_on_single_image Predicted axis_and_angle_as_matrix
      reeke_indices P
      frame A1 A2 in
  let B1 := rotated axis_and_angle_as_matrix P frame A1 in
  let B2 := rotated axis_and_angle_as_matrix P (frame + 1) A2 in
  (result = inl ScanVarying.range_assertion
   <-> ~ (get_array_range (ScanVarying.scan_ P)).1 <= frame
         < (get_array_range (ScanVarying.scan_ P)).2)
  /\ forall t : prediction_data,
       result = inr t ->
       exists (indices : list miller_index) (ws : list row),
         reeke_indices (ScanVarying.generator_arguments P B1 B2) = Some indices
         /\ t = table_of_rows ws
         /\ columns_of_length t (length ws)
         /\ Forall
              (fun w : row =>
                 In (row_hkl w) indices
                 /\ exists ray : Ray,
                      ScanVarying.predict_rays_ P (row_hkl w) B1 B2
                        (ScanVarying.to_size_t frame) 1 = Some ray
                      /\ row_of_ray Predicted (ScanVarying.detector_ P)
                           (row_hkl w) ray w
                      /\ v3_2 (row_xyz_mm w) = angle ray
                      /\ v3_2 (row_xyz_px w)
                         = get_array_index_from_angle (ScanVarying.scan_ P)
                             (angle ray))
              ws.
Proof.
  cbv zeta. unfold ScanVarying.for_ub_on_single_image. rewrite append_for_image_rows.
  destruct (Z.leb_spec (get_array_range (ScanVarying.scan_ P)).1 frame) as [C1|C1];
    destruct (Z.ltb_spec frame (get_array_range (ScanVarying.scan_ P)).2) as [C2|C2];
    cbn [andb negb].
  2-4: split; [split; [intros _; lia|reflexivity]|discriminate].
  split.
  { split; [|intros H; exfalso; apply H; lia].
    destruct (reeke_indices _); discriminate. }
  intros t. destruct (reeke_indices _) as [indices|]; [|discriminate].
  intros [= <-]. exists indices. eexists. split; [reflexivity|].
  split; [reflexivity|].
  split; [apply (add_rows_columns _ _ 0), empty_table_columns|].
  apply List.Forall_forall. intros w Hw.
  apply in_flat_map in Hw. destruct Hw as (h & Hh & Hw).
  unfold varying_index_rows in Hw.
  destruct (ScanVarying.predict_rays_ P h _ _ _ 1) as [ray|] eqn:Hray;
    [|destruct Hw].
  unfold varying_ray_rows in Hw.
  destruct (detector_get_ray_intersection _ _) as [[panel_ mm]|] eqn:Hd;
    [|destruct Hw].
  destruct (predicted_row_of_ray _ _ _ _ _ _ _ _ _ Hd Hw) as (R & Zmm & Zpx).
  assert (row_hkl w = h) as Eh by (destruct R as (? & ? & _ & _ & ? & _); assumption).
  rewrite Eh. split; [exact Hh|]. exists ray. auto.
Qed.

(** ** The stills predictor *)

Lemma lookup_map {A B : Type} (f : A -> B) (l : list A) (i : nat) (x : A) :
  l !! i = Some x -> map f l !! i = Some (f x).
Proof.
  revert i. induction l as [|y l IH]; intros [|i]; cbn; try discriminate.
  - intros [= ->]. reflexivity.
  - apply IH.
Qed.

Lemma stills_add_rows_app (p : stills_prediction_data)
    (a b : list (row * float)) :
  stills_add_rows (stills_add_rows p a) b = stills_add_rows p (a ++ b).
Proof. unfold stills_add_rows. symmetry. apply fold_left_app. Qed.

Lemma stills_add_rows_columns (p : stills_prediction_data)
    (ws : list (row * float)) :
  columns (stills_add_rows p ws) = add_rows (columns p) (map fst ws)
  /\ delpsi (stills_add_rows p ws) = delpsi p ++ map snd ws.
Proof.
  revert p. induction ws as [|w ws IH]; intros p; cbn.
  - rewrite app_nil_r. auto.
  - destruct (IH (stills_add_row p w)) as [A B]. unfold stills_add_rows in *.
    rewrite A, B. cbn. rewrite <- app_assoc. auto.
Qed.

Section stills_facts.

Variable Predicted : Z.
Variables unit_cell space_group_type : Type.
Variable P : Stills.StillsReflectionPredictor unit_cell space_group_type.

Lemma stills_append_for_index_row (p : stills_prediction_data)
    (ub : mat3 float) (h : miller_index) (panel_ : Z) :
  Stills.append_for_index Predicted P p ub h panel_
  = stills_add_rows p (option_list (stills_request_row Predicted P ub h panel_)).
Proof.
  unfold Stills.append_for_index, stills_request_row, Stills.append_for_ray.
  destruct (Stills.predict_ray_ P h ub) as [ray d].
  destruct (Stills.get_ray_intersection P (s1 ray) panel_) as [[pnl mm]|];
    [|reflexivity].
  destruct (panels (Stills.detector_ P) !! pnl); reflexivity.
Qed.

Lemma stills_rows_at_cases (h : list miller_index) (pn : list nat)
    (ub : list (mat3 float)) (j : nat) :
  stills_rows_at Predicted P h pn ub j = []
  \/ exists (hj : miller_index) (pj : nat) (ubj : mat3 float) (w : row * float),
       h !! j = Some hj /\ pn !! j = Some pj /\ ub !! j = Some ubj
       /\ stills_request_row Predicted P ubj hj (size_t_to_int pj) = Some w
       /\ stills_rows_at Predicted P h pn ub j = [w].
Proof.
  unfold stills_rows_at.
  destruct (ub !! j) as [ubj|]; [|left; reflexivity].
  destruct (h !! j) as [hj|]; [|left; reflexivity].
  destruct (pn !! j) as [pj|]; [|left; reflexivity].
  destruct (stills_request_row _ _ _ _ _) as [w|] eqn:E; [|left; reflexivity].
  right. exists hj, pj, ubj, w. auto.
Qed.

Lemma stills_for_hkl_loop_rows (h : list miller_index) (pn : list nat)
    (ub : list (mat3 float)) (n i : nat) (p : stills_prediction_data) :
  (i + n <= length h)%nat -> (i + n <= length pn)%nat ->
  (i + n <= length ub)%nat ->
  Stills.for_hkl_loop Predicted P n i p h pn ub
  = stills_add_rows p (stills_rows_from Predicted P h pn ub i n).
Proof.
  revert i p. induction n as [|n IH]; intros i p Hh Hp Hu;
    cbn [Stills.for_hkl_loop]; [reflexivity|].
  destruct (lookup_lt_is_Some_2 ub i ltac:(lia)) as [ubi Eu].
  destruct (lookup_lt_is_Some_2 h i ltac:(lia)) as [hi Eh].
  destruct (lookup_lt_is_Some_2 pn i ltac:(lia)) as [pi Ep].
  rewrite Eu, Eh, Ep, IH by lia. rewrite stills_append_for_index_row.
  rewrite stills_add_rows_app. unfold stills_rows_from at 2.
  cbn [seq flat_map]. unfold stills_rows_at at 1. rewrite Eu, Eh, Ep.
  reflexivity.
Qed.

(** Each request gives at most one row; there are as many rows as requests
    only if every request gives one, and then row [i] is that of
    request [i]. *)
Lemma stills_rows_from_full (h : list miller_index) (pn : list nat)
    (ub : list (mat3 float)) (n i : nat) :
  (length (stills_rows_from Predicted P h pn ub i n) <= n)%nat
  /\ (length (stills_rows_from Predicted P h pn ub i n) = n ->
      forall j : nat, (i <= j < i + n)%nat ->
        exists (hj : miller_index) (pj : nat) (ubj : mat3 float)
               (w : row * float),
          h !! j = Some hj /\ pn !! j = Some pj /\ ub !! j = Some ubj
          /\ stills_request_row Predicted P ubj hj (size_t_to_int pj) = Some w
          /\ stills_rows_from Predicted P h pn ub i n !! (j - i)%nat = Some w).
Proof.
  revert i. induction n as [|n IH]; intros i.
  - split; [cbn; lia|]. intros _ j Hj. lia.
  - destruct (IH (S i)) as [Hle Hfull]. unfold stills_rows_from in *.
    cbn [seq flat_map]. rewrite length_app.
    destruct (stills_rows_at_cases h pn ub i)
      as [E|(hi & pi & ubi & w & A & B & C & D & E)]; rewrite E; cbn [length].
    + split; [lia|]. intros Hlen. lia.
    + split; [lia|]. intros Hlen j Hj. specialize (Hfull ltac:(lia)).
      destruct (Nat.eq_dec j i) as [->|Hne].
      * rewrite Nat.sub_diag. exists hi, pi, ubi, w. cbn. auto.
      * destruct (Hfull j ltac:(lia)) as (hj & pj & ubj & w' & A' & B' & C' & D' & E').
        exists hj, pj, ubj, w'. repeat (split; [assumption|]).
        replace (j - i)%nat with (S (j - S i)) by lia. exact E'.
Qed.

Lemma stills_rows_from_hits (h : list miller_index) (pn : list nat)
    (ub : list (mat3 float)) (n i : nat) :
  (forall j : nat, (i <= j < i + n)%nat ->
     stills_request_hits Predicted P h pn ub j) ->
  length (stills_rows_from Predicted P h pn ub i n) = n.
Proof.
  revert i. induction n as [|n IH]; intros i H; [reflexivity|].
  unfold stills_rows_from in *. cbn [seq flat_map]. rewrite length_app.
  rewrite IH by (intros j Hj; apply H; lia).
  destruct (H i ltac:(lia)) as (hi & pi & ubi & w & A & B & C & D).
  unfold stills_rows_at. rewrite A, B, C, D. reflexivity.
Qed.

End stills_facts.

Lemma stills_request_row_spec (Predicted : Z) (unit_cell space_group_type : Type)
    (P : Stills.StillsReflectionPredictor unit_cell space_group_type)
    (ub : mat3 float) (h : miller_index) (panel_ : Z) (w : row * float) :
  stills_request_row Predicted P ub h panel_ = Some w ->
  row_hkl w.1 = h
  /\ row_s1 w.1 = s1 (Stills.predict_ray_ P h ub).1
  /\ row_enter w.1 = entering (Stills.predict_ray_ P h ub).1
  /\ w.2 = (Stills.predict_ray_ P h ub).2
  /\ v3_2 (row_xyz_mm w.1) = 0%float /\ v3_2 (row_xyz_px w.1) = 0%float
  /\ row_flags w.1 = Predicted
  /\ (0 <= panel_ -> row_panel w.1 = Z.to_nat panel_).
Proof.
  unfold stills_request_row, Stills.get_ray_intersection.
  destruct (Stills.predict_ray_ P h ub) as [ray d]. cbn [fst snd].
  destruct (Z.ltb_spec panel_ 0) as [C|C].
  - destruct (detector_get_ray_intersection _ _) as [[pnl mm]|]; [|discriminate].
    destruct (panels _ !! pnl); [|discriminate].
    intros [= <-]. cbn. repeat split. lia.
  - destruct (panels _ !! Z.to_nat panel_) as [pn|] eqn:E; [|discriminate].
    destruct (get_ray_intersection pn (s1 ray)) as [mm|]; [|discriminate].
    rewrite E. intros [= <-]. cbn. repeat split.
Qed.

(** X19: the stills [for_hkl_with_individual_ub] returns a table only
    when the arrays have one length and every request gives a row; a single
    request whose ray misses its panel makes the last assertion fail.  The
    table it returns has one row per request, in order, with the delpsi of
    the request in the column [delpsical.rad]. *)
Theorem stills_for_hkl_all_or_nothing (Predicted : Z)
    (unit_cell space_group_type : Type)
    (P : Stills.StillsReflectionPredictor unit_cell space_group_type)
    (h : list miller_index) (pn : list nat) (ub : list (mat3 float)) :
  (Stills.for_hkl_with_individual_ub Predicted P h pn ub = None
   <-> ~ (length ub = length h /\ length ub = length pn
          /\ forall i : nat, (i < length h)%nat ->
               stills_request_hits Predicted P h pn ub i))
  /\ forall t : stills_prediction_data,
       Stills.for_hkl_with_individual_ub Predicted P h pn ub = Some t ->
       columns_of_length (columns t) (length h)
       /\ length (delpsi t) = length h
       /\ forall (i : nat) (hi : miller_index) (pi : nat) (ubi : mat3 float),
            h !! i = Some hi -> pn !! i = Some pi -> ub !! i = Some ubi ->
            exists w : row * float,
              stills_request_row Predicted P ubi hi (size_t_to_int pi) = Some w
              /\ row_at (columns t) i = Some w.1
              /\ delpsi t !! i = Some w.2
              /\ row_hkl w.1 = hi /\ row_flags w.1 = Predicted.
Proof.
  unfold Stills.for_hkl_with_individual_ub.
  destruct (Nat.eqb_spec (length ub) (length h)) as [Eh|Eh]; cbn [negb].
  2: { split; [split; [intros _ (? & _); contradiction|reflexivity]|discriminate]. }
  destruct (Nat.eqb_spec (length ub) (length pn)) as [Ep|Ep]; cbn [negb].
  2: { split; [split; [intros _ (_ & ? & _); contradiction|reflexivity]|discriminate]. }
  cbv zeta.
  rewrite (stills_for_hkl_loop_rows Predicted _ _ P h pn ub (length h) 0)
    by lia.
  set (rows := stills_rows_from Predicted P h pn ub
                 0 (length h)).
  destruct (stills_add_rows_columns empty_stills_table rows) as [Hc Hd].
  pose proof (add_rows_columns empty_table (map fst rows) 0 empty_table_columns)
    as Hcols.
  rewrite length_map in Hcols. cbn [Nat.add columns empty_stills_table] in *.
  rewrite <- Hc in Hcols.
  assert (nrows (columns (stills_add_rows empty_stills_table rows)) = length rows)
    as -> by (unfold nrows; apply Hcols).
  destruct (stills_rows_from_full Predicted _ _ P h pn ub (length h) 0)
    as [Hle Hfull]. fold rows in Hle, Hfull.
  destruct (Nat.eqb_spec (length rows) (length h)) as [E|E]; cbn [negb].
  - specialize (Hfull E). split.
    + split; [discriminate|]. intros H. exfalso. apply H.
      split; [exact Eh|]. split; [exact Ep|]. intros i Hi.
      destruct (Hfull i ltac:(lia)) as (hj & pj & ubj & w & A & B & C & D & _).
      exists hj, pj, ubj, w. auto.
    + intros t [= <-]. rewrite E in Hcols. split; [exact Hcols|].
      split; [rewrite Hd; cbn; rewrite length_map; exact E|].
      intros i hi pi ubi Ehi Epi Eui.
      pose proof (lookup_lt_Some _ _ _ Ehi) as Hi.
      destruct (Hfull i ltac:(lia)) as (hj & pj & ubj & w & A & B & C & D & F).
      rewrite Nat.sub_0_r in F.
      assert (hj = hi) by congruence. assert (pj = pi) by congruence.
      assert (ubj = ubi) by congruence. subst hj pj ubj.
      exists w. split; [exact D|].
      rewrite Hc, Hd. cbn [delpsi empty_stills_table app].
      fold (table_of_rows (map fst rows)). rewrite table_of_rows_row_at.
      rewrite (lookup_map fst _ _ _ F), (lookup_map snd _ _ _ F).
      destruct (stills_request_row_spec _ _ _ _ _ _ _ _ D) as (? & _ & _ & _ & _ & _ & ? & _).
      auto.
  - split; [|discriminate]. split; [|reflexivity]. intros _ (_ & _ & Hall).
    apply E. apply stills_rows_from_hits. intros j Hj. apply Hall. lia.
Qed.

Section stills_for_ub_facts.

Variable Predicted : Z.
Variables unit_cell space_group_type : Type.
Variable IndexGenerator_indices :
  unit_cell -> space_group_type -> float -> list miller_index.
Variable P : Stills.StillsReflectionPredictor unit_cell space_group_type.

Lemma stills_for_ub_is_rows (ub : mat3 float) :
  Stills.for_ub Predicted IndexGenerator_indices P ub
  = stills_add_rows empty_stills_table
      (flat_map (stills_for_ub_rows Predicted P ub)
         (IndexGenerator_indices (Stills.unit_cell_ P)
            (Stills.space_group_type_ P) (Stills.dmin_ P))).
Proof.
  unfold Stills.for_ub.
  generalize (IndexGenerator_indices (Stills.unit_cell_ P)
                (Stills.space_group_type_ P) (Stills.dmin_ P)) as l.
  generalize empty_stills_table as p. intros p l. revert p.
  induction l as [|h l IH]; intros p; cbn [fold_left flat_map]; [reflexivity|].
  rewrite IH, <- stills_add_rows_app. f_equal.
  unfold stills_for_ub_rows.
  destruct (Stills.predict_ray_ P h ub) as [ray d] eqn:E. cbn [snd].
  destruct (_ <? _)%float; [|reflexivity].
  apply stills_append_for_index_row.
Qed.

End stills_for_ub_facts.

(** X20: the table of the stills [for_ub(ub)] has columns of one length,
    [delpsical.rad] included; every row is for an index of the generator
    whose |delpsi| is below 0.001 (as a double), carries that delpsi, the
    s1 of the predicted ray, z coordinates 0 and the flag [Predicted]. *)
Theorem stills_for_ub_filters_by_delpsi (Predicted : Z)
    (unit_cell space_group_type : Type)
    (IndexGenerator_indices :
       unit_cell -> space_group_type -> float -> list miller_index)
    (P : Stills.StillsReflectionPredictor unit_cell space_group_type)
    (ub : mat3 float) :
  let t := Stills.for_ub Predicted IndexGenerator_indices P ub in
  exists ws : list (row * float),
    columns t = table_of_rows (map fst ws)
    /\ delpsi t = map snd ws
    /\ columns_of_length (columns t) (length ws)
    /\ Forall
         (fun w : row * float =>
            In (row_hkl w.1)
              (IndexGenerator_indices (Stills.unit_cell_ P)
                 (Stills.space_group_type_ P) (Stills.dmin_ P))
            /\ (PrimFloat.abs (Stills.predict_ray_ P (row_hkl w.1) ub).2
                <? 0x1.0624dd2f1a9fcp-10)%float = true
            /\ w.2 = (Stills.predict_ray_ P (row_hkl w.1) ub).2
            /\ row_s1 w.1 = s1 (Stills.predict_ray_ P (row_hkl w.1) ub).1
            /\ v3_2 (row_xyz_mm w.1) = 0%float
            /\ v3_2 (row_xyz_px w.1) = 0%float
            /\ row_flags w.1 = Predicted)
         ws.
Proof.
  cbv zeta. rewrite stills_for_ub_is_rows.
  set (ws := flat_map _ _).
  destruct (stills_add_rows_columns empty_stills_table ws) as [Hc Hd].
  exists ws. split; [exact Hc|]. split; [exact Hd|]. split.
  { rewrite Hc. pose proof (add_rows_columns empty_table (map fst ws) 0
                              empty_table_columns) as H.
    rewrite length_map in H. exact H. }
  apply List.Forall_forall. intros w Hw. unfold ws in Hw.
  apply in_flat_map in Hw. destruct Hw as (h & Hh & Hw).
  unfold stills_for_ub_rows in Hw.
  destruct (_ <? _)%float eqn:Hd'; [|destruct Hw].
  destruct (stills_request_row Predicted P ub h (-1)) as [w'|] eqn:E;
    [|destruct Hw].
  destruct Hw as [<-|[]].
  destruct (stills_request_row_spec _ _ _ _ _ _ _ _ E)
    as (Eh & Es & _ & Ed & Zmm & Zpx & Ef & _).
  rewrite Eh. auto 10.
Qed.

(** One request whose ray misses its panel makes the whole call fail. *)
Example stills_for_hkl_example :
  (exists t : stills_prediction_data,
     Stills.for_hkl_with_individual_ub 1 example_stills_predictor
       [Vec3 1 0 1; Vec3 2 0 1] [0; 0]%nat [ub_unit; ub_unit] = Some t
     /\ hkl (columns t) = [Vec3 1 0 1; Vec3 2 0 1]
     /\ delpsi t = [0x1p-10; 0x1p-9]%float)
  /\ Stills.for_hkl_with_individual_ub 1 example_stills_predictor
       [Vec3 1 0 1; Vec3 2 0 (-1)] [0; 0]%nat [ub_unit; ub_unit] = None
  /\ exists t : stills_prediction_data,
       Stills.for_ub 1 (fun _ _ _ => [Vec3 1 0 1; Vec3 2 0 1])
         example_stills_predictor ub_unit = t
       /\ hkl (columns t) = [Vec3 1 0 1].
Proof.
  split; [|split].
  - eexists. split; [vm_compute; reflexivity|]. split; reflexivity.
  - vm_compute. reflexivity.
  - eexists. split; [reflexivity|]. vm_compute. reflexivity.
Qed.
